(** * Bill splitter: ledger balances and debt settlement

    A shallow embedding of the three computational functions of
    [bill-splitter.py]:

    - [compute_expense_balances]  (lines 95-131)
    - [adjust_for_payments]       (lines 133-151)
    - [settle_debts]              (lines 153-177)

    and of the checks of the two forms and the rows they hand to the sheet
    (lines 42-68, 240-262, 283-300).

    Modelling choices.

    - A Python [str] is modelled by its UTF-8 encoding.  [strip] removes
      the 29 whitespace characters of Unicode that [str.strip()] removes,
      the no-break space among them.
    - A Python [dict] is an insertion-ordered association list with at most
      one entry per key; [d[k] += v] raises [KeyError] on a missing key.
    - A Python [set] of names is a duplicate-free list; its iteration order
      (which Python leaves open) is taken to be the order of first
      insertion.  The statements about balances go through [dict_get],
      which does not depend on that order, and the statements about
      [settle_debts] hold for every mapping, whatever its order.
    - A data-frame row is a record of its cells.  Text cells are strings
      (the model of [str(cell)]); the [Amount] cell is either something
      [float()] accepts, with its value, or something it rejects.
    - Exceptions are an explicit [result] type.
    - The [while] loop of [settle_debts] runs on fuel.
    - Amounts.  The code computes with binary64 numbers.  The functions are
      given three times, with the same text:
      -- on exact rationals [Q] (the definitions that follow), where the
         statements on names, on exceptions, on who pays whom and on the
         signs and the order of amounts are proved; these do not depend on
         rounding, and they are about finite amounts;
      -- on rationals with every operation followed by a rounding [fl]
         that is left open (module [Rounded]), where the statements on the
         values of the balances are proved, for every rounding or for every
         rounding as accurate as that of binary64;
      -- on binary64 numbers themselves (module [Binary64]), with their
         rounding, infinities and NaN, where the code is run on inputs on
         which the rational model has nothing to say. *)

From Stdlib Require Import List String Ascii Bool Arith Lia.
From Stdlib Require Import NArith ZArith QArith Qabs Qminmax Qround Lqa.
From Stdlib Require Floats.
From Stdlib Require Import Permutation Sorted.
Import ListNotations.

Close Scope Q_scope.
Close Scope Z_scope.
Open Scope string_scope.
Open Scope list_scope.

(** ** Python strings: [str.strip] and [str.split] on a comma *)

(** A Python [str] is a sequence of Unicode code points.  It is modelled by
    its UTF-8 encoding, a [string] of bytes: two texts are equal exactly
    when their encodings are, a comma is the one byte 0x2c that occurs in
    no other character's encoding, and a character sits at the start (at
    the end) of a text exactly when its encoding is a prefix (a suffix) of
    the text's. *)

(** The code points [str.strip()] removes, those of [str.isspace]: TAB, LF,
    VT, FF, CR, the separators 0x1c-0x1f, the space, NEL, the no-break
    space, the Ogham space mark, the spaces U+2000 to U+200A, the line and
    paragraph separators, the narrow no-break space, the medium
    mathematical space and the ideographic space. *)
Definition whitespace_code_points : list N :=
  [9; 10; 11; 12; 13; 28; 29; 30; 31; 32; 133; 160; 5760;
   8192; 8193; 8194; 8195; 8196; 8197; 8198; 8199; 8200; 8201; 8202;
   8232; 8233; 8239; 8287; 12288]%N.

(** The UTF-8 encoding of a code point. *)
Definition utf8 (cp : N) : list ascii :=
  let continuation n := ascii_of_N (128 + N.land n 63) in
  if N.ltb cp 128 then [ascii_of_N cp]
  else if N.ltb cp 2048 then
    [ascii_of_N (192 + N.shiftr cp 6); continuation cp]
  else if N.ltb cp 65536 then
    [ascii_of_N (224 + N.shiftr cp 12); continuation (N.shiftr cp 6);
     continuation cp]
  else
    [ascii_of_N (240 + N.shiftr cp 18); continuation (N.shiftr cp 12);
     continuation (N.shiftr cp 6); continuation cp].

Definition whitespace : list (list ascii) :=
  Eval vm_compute in map utf8 whitespace_code_points.

(** [l] without its prefix [w], when it has that prefix. *)
Fixpoint drop_prefix (w l : list ascii) : option (list ascii) :=
  match w, l with
  | [], _ => Some l
  | a :: w', b :: l' => if Ascii.eqb a b then drop_prefix w' l' else None
  | _ :: _, [] => None
  end.

(** [l] without its first character, when that is one of [chars]. *)
Fixpoint drop_any (chars : list (list ascii)) (l : list ascii)
  : option (list ascii) :=
  match chars with
  | [] => None
  | w :: chars' =>
      match drop_prefix w l with
      | Some r => Some r
      | None => drop_any chars' l
      end
  end.

(** Leading characters of [chars] removed, one per unit of fuel; the length
    of the text is always enough. *)
Fixpoint strip_front (chars : list (list ascii)) (fuel : nat) (l : list ascii)
  : list ascii :=
  match fuel with
  | O => l
  | S fuel' =>
      match drop_any chars l with
      | Some r => strip_front chars fuel' r
      | None => l
      end
  end.

Definition lstrip (s : string) : string :=
  let l := list_ascii_of_string s in
  string_of_list_ascii (strip_front whitespace (List.length l) l).

(** Trailing whitespace is leading whitespace of the text read backwards. *)
Definition rstrip (s : string) : string :=
  let l := rev (list_ascii_of_string s) in
  string_of_list_ascii
    (rev (strip_front (map (@rev ascii) whitespace) (List.length l) l)).

Definition strip (s : string) : string := rstrip (lstrip s).

(** [s.split] on a comma: one more piece than there are commas. *)
Fixpoint split_comma (s : string) : list string :=
  match s with
  | EmptyString => [EmptyString]
  | String c r =>
      if Ascii.eqb c ","%char then EmptyString :: split_comma r
      else match split_comma r with
           | h :: t => String c h :: t
           | [] => [String c EmptyString]
           end
  end.

(** Truthiness of a string: [if s:]. *)
Definition truthy (s : string) : bool :=
  match s with EmptyString => false | String _ _ => true end.

(** ** Exceptions *)

Inductive exn : Type :=
| KeyError (key : string)
| ValueError.

Inductive result (A : Type) : Type :=
| Ok (a : A)
| Raise (e : exn).
Arguments Ok {A} a.
Arguments Raise {A} e.

Definition bind {A B} (m : result A) (k : A -> result B) : result B :=
  match m with
  | Ok a => k a
  | Raise e => Raise e
  end.

Notation "x <- m ;; k" := (bind m (fun x => k))
  (at level 61, m at next level, right associativity).

(** A [for] loop whose body may raise: the first exception leaves the loop. *)
Fixpoint for_each {A S} (body : S -> A -> result S) (l : list A) (s : S)
  : result S :=
  match l with
  | [] => Ok s
  | x :: l' => s' <- body s x ;; for_each body l' s'
  end.

(** ** Dictionaries from names to amounts *)

(** Amounts are exact rationals here: finite, and added, subtracted and
    divided without rounding.  [Rounded] and [Binary64], further down,
    have the rounding and the values that are not finite. *)
Definition dict : Type := list (string * Q).

Fixpoint dict_get (d : dict) (k : string) : option Q :=
  match d with
  | [] => None
  | (k', v) :: d' => if String.eqb k' k then Some v else dict_get d' k
  end.

(** [d[k] = v]: overwrite where the key is, append a new key at the end. *)
Fixpoint dict_set (d : dict) (k : string) (v : Q) : dict :=
  match d with
  | [] => [(k, v)]
  | (k', v') :: d' =>
      if String.eqb k' k then (k', v) :: d' else (k', v') :: dict_set d' k v
  end.

(** [d[k] += v] reads before it writes, so a missing key raises. *)
Definition dict_iadd (d : dict) (k : string) (v : Q) : result dict :=
  match dict_get d k with
  | Some x => Ok (dict_set d k (x + v)%Q)
  | None => Raise (KeyError k)
  end.

(** [d[k] -= v]. *)
Definition dict_isub (d : dict) (k : string) (v : Q) : result dict :=
  match dict_get d k with
  | Some x => Ok (dict_set d k (x - v)%Q)
  | None => Raise (KeyError k)
  end.

Definition keys (d : dict) : list string := map fst d.
Definition values (d : dict) : list Q := map snd d.

(** [sum(l)] on amounts. *)
Definition Qsum (l : list Q) : Q := fold_right Qplus 0%Q l.

(** Well-formed dictionary: one entry per key. *)
Definition dict_wf (d : dict) : Prop := NoDup (keys d).

(** [persons.add(p)] on a set kept in insertion order. *)
Fixpoint set_add (p : string) (persons : list string) : list string :=
  match persons with
  | [] => [p]
  | q :: rest => if String.eqb q p then persons else q :: set_add p rest
  end.

(** ** Rows *)

(** The [Amount] cell as [float()] sees it: a finite number, or something
    it rejects.  The [inf] and [nan] that [float()] accepts as well are
    cells of [Binary64]. *)
Inductive amount_cell : Type :=
| Numeric (q : Q)
| NonNumeric (raw : string).

Definition py_float (c : amount_cell) : result Q :=
  match c with
  | Numeric q => Ok q
  | NonNumeric _ => Raise ValueError
  end.

(** [try: amount = float(...) except: amount = 0]. *)
Definition amount_or_zero (c : amount_cell) : Q :=
  match py_float c with
  | Ok q => q
  | Raise _ => 0%Q
  end.

(** Expense sheet columns: Date, Payer, Amount, Participants, Split Type,
    Percentages, Notes. *)
Record expense_row : Type := mkExpense {
  eDate : string;
  ePayer : string;
  eAmount : amount_cell;
  eParticipants : string;
  eSplitType : string;
  ePercentages : string;
  eNotes : string
}.

(** Payment sheet columns: Date, Payer, Amount, Payee, Notes. *)
Record payment_row : Type := mkPayment {
  pDate : string;
  pPayer : string;
  pAmount : amount_cell;
  pPayee : string;
  pNotes : string
}.

(** The comprehension of lines 108 and 122: the pieces between commas,
    stripped, the empty ones dropped. *)
Definition parse_participants (participants : string) : list string :=
  filter truthy (map strip (split_comma participants)).

(** ** [compute_expense_balances] *)

(** Body of the first loop (lines 105-116). *)
Definition collect_persons (persons : list string) (row : expense_row)
  : list string :=
  let payer := strip (ePayer row) in
  let participant_list := parse_participants (eParticipants row) in
  let persons := if truthy payer then set_add payer persons else persons in
  fold_left (fun ps p => set_add p ps) participant_list persons.

(** [share = amount / len(participant_list) if participant_list else 0] *)
Definition share_of (amount : Q) (participant_list : list string) : Q :=
  match participant_list with
  | [] => 0%Q
  | _ :: _ => (amount / inject_Z (Z.of_nat (List.length participant_list)))%Q
  end.

(** The inner loop of lines 129-130. *)
Definition charge_shares (share : Q) (participant_list : list string)
  (nb : dict) : result dict :=
  for_each (fun nb p => dict_isub nb p share) participant_list nb.

(** Body of the second loop (lines 119-130). *)
Definition apply_expense (net_balance : dict) (row : expense_row)
  : result dict :=
  let payer := strip (ePayer row) in
  let participant_list := parse_participants (eParticipants row) in
  let amount := amount_or_zero (eAmount row) in
  let share := share_of amount participant_list in
  nb <- dict_iadd net_balance payer amount ;;
  charge_shares share participant_list nb.

Definition all_persons (expenses_df : list expense_row) : list string :=
  fold_left collect_persons expenses_df [].

Definition zero_balances (persons : list string) : dict :=
  fold_left (fun nb person => dict_set nb person 0%Q) persons [].

Definition compute_expense_balances (expenses_df : list expense_row)
  : result dict :=
  let persons := all_persons expenses_df in
  let net_balance := zero_balances persons in
  for_each apply_expense expenses_df net_balance.

(** ** [adjust_for_payments] *)

(** Body of the loop (lines 140-150). *)
Definition apply_payment (net_balance : dict) (row : payment_row)
  : result dict :=
  let amount := amount_or_zero (pAmount row) in
  let payer := strip (pPayer row) in
  let payee := strip (pPayee row) in
  nb <- (if truthy payer then dict_iadd net_balance payer amount
         else Ok net_balance) ;;
  if truthy payee then dict_isub nb payee amount else Ok nb.

Definition adjust_for_payments (net_balance : dict)
  (payments_df : list payment_row) : result dict :=
  for_each apply_payment payments_df net_balance.

(** The pipeline of lines 207-208. *)
Definition compute_balances (expenses_df : list expense_row)
  (payments_df : list payment_row) : result dict :=
  nb <- compute_expense_balances expenses_df ;;
  adjust_for_payments nb payments_df.

(** ** [settle_debts] *)

(** The threshold [1e-9] of lines 158, 159, 173 and 175: the literal
    denotes the binary64 number nearest to 10^-9, which is
    4835703278458517 / 2^82, a little above 10^-9. *)
Definition eps : Q := 4835703278458517 # 4835703278458516698824704.

Definition Qltb (a b : Q) : bool := negb (Qle_bool b a).

(** [min(a, b)]: the first argument unless the second is strictly smaller. *)
Definition py_min (a b : Q) : Q := if Qltb b a then b else a.

(** [abs(x) < 1e-9] *)
Definition settled (x : Q) : bool := Qltb (Qabs x) eps.

(** A tuple [(Debtor, Creditor, Amount)]. *)
Record transaction : Type := mkTx {
  debtor : string;
  creditor : string;
  amount : Q
}.

Definition item : Type := (string * Q)%type.

(** [list.sort(key=...)] is stable: an item stays in front of the later
    items it ties with.  [before x y] says that [x] may precede [y]. *)
Fixpoint insert_by (before : item -> item -> bool) (x : item) (l : list item)
  : list item :=
  match l with
  | [] => [x]
  | y :: l' => if before x y then x :: l else y :: insert_by before x l'
  end.

Definition sort_by (before : item -> item -> bool) (l : list item)
  : list item :=
  fold_right (insert_by before) [] l.

(** [key=lambda x: x[1]] *)
Definition ascending (x y : item) : bool := Qle_bool (snd x) (snd y).
(** [key=lambda x: x[1], reverse=True] *)
Definition descending (x y : item) : bool := Qle_bool (snd y) (snd x).

Definition is_creditor (x : item) : bool := Qltb eps (snd x).
Definition is_debtor (x : item) : bool := Qltb (snd x) (- eps)%Q.

(** [l[n] = x] for [n] in range (out of range Python raises; the loop
    condition keeps both cursors in range). *)
Fixpoint list_set {A} (l : list A) (n : nat) (x : A) : list A :=
  match l, n with
  | [], _ => []
  | _ :: l', O => x :: l'
  | y :: l', S n' => y :: list_set l' n' x
  end.

(** The objects [settle_debts] works on: the caller's dictionary, which it
    only reads, and its own lists and cursors. *)
Record frame : Type := mkFrame {
  fr_net_balance : dict;
  fr_creditors : list item;
  fr_debtors : list item;
  fr_transactions : list transaction;
  fr_i : nat;
  fr_j : nat
}.

(** Lines 158-163. *)
Definition enter (net_balance : dict) : frame :=
  let creditors := filter is_creditor net_balance in
  let debtors := filter is_debtor net_balance in
  let creditors := sort_by descending creditors in
  let debtors := sort_by ascending debtors in
  mkFrame net_balance creditors debtors [] 0 0.

(** [while i < len(debtors) and j < len(creditors)] *)
Definition loop_cond (fr : frame) : bool :=
  Nat.ltb (fr_i fr) (List.length (fr_debtors fr))
  && Nat.ltb (fr_j fr) (List.length (fr_creditors fr)).

(** Lines 165-176. *)
Definition loop_body (fr : frame) : frame :=
  match nth_error (fr_debtors fr) (fr_i fr),
        nth_error (fr_creditors fr) (fr_j fr) with
  | Some (debtor, d_amt), Some (creditor, c_amt) =>
      let settlement := py_min c_amt (- d_amt)%Q in
      let transactions :=
        fr_transactions fr ++ [mkTx debtor creditor settlement] in
      let d_amt := (d_amt + settlement)%Q in
      let c_amt := (c_amt - settlement)%Q in
      let debtors := list_set (fr_debtors fr) (fr_i fr) (debtor, d_amt) in
      let creditors := list_set (fr_creditors fr) (fr_j fr) (creditor, c_amt) in
      let i := if settled d_amt then S (fr_i fr) else fr_i fr in
      let j := if settled c_amt then S (fr_j fr) else fr_j fr in
      mkFrame (fr_net_balance fr) creditors debtors transactions i j
  | _, _ => fr
  end.

(** The loop, on fuel: [None] when the fuel runs out before the condition
    fails. *)
Fixpoint while_loop (fuel : nat) (fr : frame) : option frame :=
  if loop_cond fr then
    match fuel with
    | O => None
    | S fuel' => while_loop fuel' (loop_body fr)
    end
  else Some fr.

Definition settle_debts_frame (fuel : nat) (net_balance : dict)
  : option frame :=
  while_loop fuel (enter net_balance).

Definition settle_debts_fuel (fuel : nat) (net_balance : dict)
  : option (list transaction) :=
  option_map fr_transactions (settle_debts_frame fuel net_balance).

(** Fuel that suffices on finite amounts ([settle_debts_total]): every
    turn of the loop moves a cursor.  On infinite amounts the loop of the
    code may never return ([settle_debts_never_returns]). *)
Definition enough (net_balance : dict) : nat :=
  List.length (filter is_debtor net_balance)
  + List.length (filter is_creditor net_balance).

Definition settle_debts (net_balance : dict) : list transaction :=
  match settle_debts_fuel (enough net_balance) net_balance with
  | Some transactions => transactions
  | None => []
  end.

(** ** The specification's view of the same computations *)

(** What one expense record does to the balance of [p], in the words of the
    specification: the payer is credited the full amount, and every
    occurrence of [p] among the participants is charged one share. *)
Definition occurrences (p : string) (participant_list : list string) : Q :=
  inject_Z (Z.of_nat (count_occ string_dec participant_list p)).

Definition contribution (row : expense_row) (p : string) : Q :=
  let payer := strip (ePayer row) in
  let participant_list := parse_participants (eParticipants row) in
  let amount := amount_or_zero (eAmount row) in
  ((if String.eqb payer p then amount else 0)
   - occurrences p participant_list * share_of amount participant_list)%Q.

Definition contributions (rows : list expense_row) (p : string) : Q :=
  Qsum (map (fun row => contribution row p) rows).

(** Two expense rows that differ at most in Split Type and Percentages. *)
Definition same_but_split (r1 r2 : expense_row) : Prop :=
  eDate r1 = eDate r2 /\ ePayer r1 = ePayer r2 /\ eAmount r1 = eAmount r2
  /\ eParticipants r1 = eParticipants r2 /\ eNotes r1 = eNotes r2.

(** The two-cursor sweep as the specification words it: the heads of the two
    lists are the current debtor and creditor with their remaining amounts.
    Besides the transactions it returns what remains of each person's
    amount, in the order of the lists it was given. *)
Fixpoint sweep (fuel : nat) (debtors creditors : list item)
  : option (list transaction * (list item * list item)) :=
  match debtors, creditors with
  | (dn, d) :: ds, (cn, c) :: cs =>
      match fuel with
      | O => None
      | S fuel' =>
          let a := py_min c (- d)%Q in
          let d' := (d + a)%Q in
          let c' := (c - a)%Q in
          let ds1 := if settled d' then ds else (dn, d') :: ds in
          let cs1 := if settled c' then cs else (cn, c') :: cs in
          match sweep fuel' ds1 cs1 with
          | None => None
          | Some (txs, (rd, rc)) =>
              Some (mkTx dn cn a :: txs,
                    (if settled d' then (dn, d') :: rd else rd,
                     if settled c' then (cn, c') :: rc else rc))
          end
      end
  | _, _ => Some ([], (debtors, creditors))
  end.

Definition spec_debtors (balance : dict) : list item :=
  sort_by ascending (filter is_debtor balance).
Definition spec_creditors (balance : dict) : list item :=
  sort_by descending (filter is_creditor balance).

Definition plan_settlement (fuel : nat) (balance : dict)
  : option (list transaction) :=
  option_map fst (sweep fuel (spec_debtors balance) (spec_creditors balance)).

(** Replaying a plan: each transaction's amount is added to the debtor's
    balance and subtracted from the creditor's.  A name without an entry is
    left without one. *)
Definition dict_adjust (d : dict) (k : string) (f : Q -> Q) : dict :=
  match dict_get d k with
  | Some x => dict_set d k (f x)
  | None => d
  end.

Definition replay_one (balance : dict) (t : transaction) : dict :=
  let b := dict_adjust balance (debtor t) (fun x => x + amount t)%Q in
  dict_adjust b (creditor t) (fun x => x - amount t)%Q.

Definition replay (balance : dict) (txs : list transaction) : dict :=
  fold_left replay_one txs balance.

(** What a plan pays to ([+]) and takes from ([-]) a person. *)
Definition net_effect (txs : list transaction) (p : string) : Q :=
  Qsum (map (fun t => ((if String.eqb (debtor t) p then amount t else 0)
                       - (if String.eqb (creditor t) p then amount t else 0))%Q)
            txs).

(** ** Sample rows *)

Definition expense (payer : string) (amount : Q) (participants : string)
  : expense_row :=
  mkExpense "01/01/2025" payer (Numeric amount) participants "Equal" EmptyString EmptyString.

Definition payment (payer : string) (amount : Q) (payee : string)
  : payment_row :=
  mkPayment "01/02/2025" payer (Numeric amount) payee EmptyString.

(** ** Notions the statements use *)

(** [q] is named by the row, as its payer or as one of its participants. *)
Definition mentions (row : expense_row) (q : string) : Prop :=
  (truthy (strip (ePayer row)) = true /\ q = strip (ePayer row))
  \/ In q (parse_participants (eParticipants row)).

Definition names (l : list item) : list string := map fst l.

(** Debts are negative and credits positive, and stay so. *)
Definition signed (ds cs : list item) : Prop :=
  Forall (fun x => (snd x < 0)%Q) ds /\ Forall (fun x => (0 < snd x)%Q) cs.

(** The total of a list of items. *)
Definition total (l : list item) : Q := Qsum (map snd l).

Definition all_settled (l : list item) : Prop :=
  Forall (fun x => settled (snd x) = true) l.

(** Names are told apart: no name twice among the debtors, among the
    creditors, or on both sides. *)
Definition separate (ds cs : list item) : Prop :=
  NoDup (names ds) /\ NoDup (names cs)
  /\ forall p, In p (names ds) -> ~ In p (names cs).

(** What is left of a person's amount is that amount plus the net effect
    of the plan. *)
Definition left_over (l r : list item) (txs : list transaction) : Prop :=
  forall p x, In (p, x) l ->
    exists y, In (p, y) r /\ (y == x + net_effect txs p)%Q.

Definition Qlen {A} (l : list A) : Q := inject_Z (Z.of_nat (List.length l)).

(** Amounts in lowest terms, to compare computed mappings and plans with
    expected ones. *)
Definition reduced (d : dict) : dict :=
  map (fun kv => (fst kv, Qred (snd kv))) d.

Definition reduced_plan (txs : list transaction) : list transaction :=
  map (fun t => mkTx (debtor t) (creditor t) (Qred (amount t))) txs.

(** ** Sample inputs *)

Definition no_participants : list expense_row :=
  [expense "Alice" 90 EmptyString].

Definition dinner : list expense_row :=
  [expense "Alice" 90 "Alice, Bob, Carol"].
Definition bob_pays_back : list payment_row :=
  [payment "Bob" 30 "Alice"].

Definition blank_payer : list expense_row :=
  [expense EmptyString 10 "Bob"].

(** A blank payer and no participants. *)
Definition nobody_pays : list expense_row :=
  [expense EmptyString 10 EmptyString].

(** U+00A0, the no-break space, in UTF-8. *)
Definition no_break_space : string := String "194" (String "160" EmptyString).

Definition no_break_space_pays : list expense_row :=
  [expense no_break_space 10 "Bob"].

Definition dave_pays_alice : list payment_row := [payment "Dave" 30 "Alice"].

Definition lunch : list expense_row := [expense "Alice" 90 "Alice, Bob"].
Definition carol_pays_alice : list payment_row := [payment "Carol" 30 "Alice"].

Definition custom_split : list expense_row :=
  [mkExpense "01/01/2025" "Alice" (Numeric 100) "Alice, Bob" "Custom"
     "{Alice: 70, Bob: 30}" "hotel"].
Definition equal_split : list expense_row :=
  [mkExpense "01/01/2025" "Alice" (Numeric 100) "Alice, Bob" "Equal"
     EmptyString "hotel"].

Definition near_miss : dict :=
  [("Ann", 16%Q); ("Ben", 16%Q); ("Cy", (1 # 536870912)%Q);
   ("Dee", (-17179869185 # 1073741824)%Q);
   ("Eve", (-17179869185 # 1073741824)%Q)].

Definition after_dinner : dict :=
  [("Alice", 60%Q); ("Bob", (-30)%Q); ("Carol", (-30)%Q)].

Definition three_owe_two : dict :=
  [("Ann", 50%Q); ("Ben", 40%Q); ("Cy", (-30)%Q); ("Dee", (-30)%Q);
   ("Eve", (-30)%Q)].

(** ** The rest of the program: forms, rows for the sheet *)

Fixpoint no_comma (s : string) : bool :=
  match s with
  | EmptyString => true
  | String c r => negb (Ascii.eqb c ","%char) && no_comma r
  end.

(** A name as the engine keeps it: not empty, nothing to strip. *)
Definition tidy (s : string) : Prop := truthy s = true /\ strip s = s.

(** The text starts (ends) with a whitespace character. *)
Definition starts_with_space (s : string) : bool :=
  match drop_any whitespace (list_ascii_of_string s) with
  | Some _ => true
  | None => false
  end.

Definition ends_with_space (s : string) : bool :=
  match drop_any (map (@rev ascii) whitespace)
          (rev (list_ascii_of_string s)) with
  | Some _ => true
  | None => false
  end.

(** A text made of whitespace characters only. *)
Inductive blank : string -> Prop :=
| blank_empty : blank EmptyString
| blank_more (w : list ascii) (s : string) :
    In w whitespace -> blank s -> blank (string_of_list_ascii w ++ s).

(** What [strip_front] removes is a sequence of characters of [chars]. *)
Inductive made_of (chars : list (list ascii)) : list ascii -> Prop :=
| made_nil : made_of chars []
| made_cons (w l : list ascii) :
    In w chars -> made_of chars l -> made_of chars (w ++ l).

(** The list-level strips. *)
Definition lstrip_l (l : list ascii) : list ascii :=
  strip_front whitespace (List.length l) l.
Definition rstrip_l (l : list ascii) : list ascii :=
  rev (strip_front (map (@rev ascii) whitespace) (List.length (rev l)) (rev l)).

(** What one payment record does to the balance of [p] (lines 147-150). *)
Definition payment_effect (row : payment_row) (p : string) : Q :=
  let amount := amount_or_zero (pAmount row) in
  let payer := strip (pPayer row) in
  let payee := strip (pPayee row) in
  ((if truthy payer && String.eqb payer p then amount else 0)
   - (if truthy payee && String.eqb payee p then amount else 0))%Q.

Definition payment_effects (rows : list payment_row) (p : string) : Q :=
  Qsum (map (fun row => payment_effect row p) rows).

(** The names a payment row uses have an entry in the mapping. *)
Definition known (nb : dict) (row : payment_row) : Prop :=
  (truthy (strip (pPayer row)) = true -> In (strip (pPayer row)) (keys nb))
  /\ (truthy (strip (pPayee row)) = true -> In (strip (pPayee row)) (keys nb)).

Definition pair_of (t : transaction) : string * string :=
  (debtor t, creditor t).

(** The checks of lines 241-249, with the message they leave in [exp_error]
    (empty when the form is accepted). *)
Definition expense_error (exp_payer : string) (exp_amount : Q)
  (exp_part_list : list string) (exp_split_type : string)
  (exp_percentages : dict) : string :=
  if negb (truthy exp_payer) then "Please enter the payer's name."
  else if Qle_bool exp_amount 0 then "Amount must be greater than 0."
  else if match exp_part_list with [] => true | _ :: _ => false end
       then "Please enter at least one participant."
  else if String.eqb exp_split_type "Custom"
          && Qltb (1 # 100) (Qabs (Qsum (values exp_percentages) - 100))
       then "For custom splits, the total percentage must equal 100%."
  else EmptyString.

(** The checks of lines 284-290. *)
Definition payment_error (pay_payer pay_payee : string) (pay_amount : Q)
  : string :=
  if negb (truthy pay_payer) then "Please enter the payer's name."
  else if negb (truthy pay_payee) then "Please enter the payee's name."
  else if Qle_bool pay_amount 0 then "Amount must be greater than 0."
  else EmptyString.

(** Values a record for the sheet can hold. *)
Inductive pyval : Type :=
| PNone
| PStr (s : string)
| PNum (q : Q)
| PDict (d : dict).

Definition record : Type := list (string * pyval).

(** [r.get(k, default)] *)
Fixpoint record_get (r : record) (k : string) (default : pyval) : pyval :=
  match r with
  | [] => default
  | (k', v) :: r' => if String.eqb k' k then v else record_get r' k default
  end.

Definition expense_columns : list string :=
  ["Date"; "Payer"; "Amount"; "Participants"; "Split Type"; "Percentages";
   "Notes"].

Definition payment_columns : list string :=
  ["Date"; "Payer"; "Amount"; "Payee"; "Notes"].

(** Lines 55-65 of [append_to_google_sheet]: the row handed to
    [sheet.append_row].  [json_dumps] stands for [json.dumps]. *)
Definition sheet_cell (json_dumps : dict -> string) (new_data_row : record)
  (col : string) : pyval :=
  let value := record_get new_data_row col (PStr EmptyString) in
  let value :=
    match value with
    | PDict d => if String.eqb col "Percentages" then PStr (json_dumps d)
                 else value
    | _ => value
    end in
  match value with
  | PNone => PStr EmptyString
  | _ => value
  end.

Definition sheet_row (json_dumps : dict -> string) (worksheet_index : Z)
  (new_data_row : record) : list pyval :=
  let columns := if Z.eqb worksheet_index 0 then expense_columns
                 else payment_columns in
  map (sheet_cell json_dumps new_data_row) columns.

Definition form_payment_row (pay_date pay_payer : string) (pay_amount : Q)
  (pay_payee pay_notes : string) : payment_row :=
  mkPayment pay_date pay_payer (Numeric pay_amount) pay_payee pay_notes.

(** The plan recorded as payments: each debtor pays the creditor the
    amount, through the payment form. *)
Definition pay_plan (pay_date pay_notes : string) (txs : list transaction)
  : list payment_row :=
  map (fun t => form_payment_row pay_date (debtor t) (amount t) (creditor t)
                  pay_notes) txs.

(** A person of the expense rows. *)
Definition person_of (expenses : list expense_row) (p : string) : Prop :=
  exists row, In row expenses /\ mentions row p.

Definition snack : list expense_row := [expense "Bob" 30 "Bob, Alice"].

(** The balances after the dinner, the snack and Bob's payment. *)
Definition evening : dict :=
  Eval vm_compute in
    match compute_balances (dinner ++ snack) bob_pays_back with
    | Ok nb => nb
    | Raise _ => []
    end.

(** The balances after the dinner. *)
Definition dinner_balances : dict :=
  Eval vm_compute in
    match compute_expense_balances dinner with
    | Ok nb => nb
    | Raise _ => []
    end.

(** ** The settlement in the words of the specification *)

(** The threshold the specification writes [1e-9]. *)
Definition epsilon : Q := 4835703278458517 # 4835703278458516698824704.

(** Creditors have a balance above [1e-9], debtors one below [-1e-9]. *)
Definition owed_money (x : item) : bool :=
  if Qlt_le_dec epsilon (snd x) then true else false.
Definition owes_money (x : item) : bool :=
  if Qlt_le_dec (snd x) (- epsilon) then true else false.

(** The two-cursor sweep: the heads of the two lists are the current
    debtor and creditor with what remains of their amounts.  Each step
    emits [(debtor, creditor, min(c, -d))], reduces both remaining amounts
    by that amount and moves on from each one that is then within [1e-9]
    of 0; the sweep ends when either list is exhausted. *)
Fixpoint two_cursor_sweep (fuel : nat) (debtors creditors : list item)
  : option (list transaction) :=
  match debtors, creditors with
  | (dn, d) :: ds, (cn, c) :: cs =>
      match fuel with
      | O => None
      | S fuel' =>
          let a := Qmin c (- d) in
          let d' := (d + a)%Q in
          let c' := (c - a)%Q in
          option_map (cons (mkTx dn cn a))
            (two_cursor_sweep fuel'
               (if Qlt_le_dec (Qabs d') epsilon then ds else (dn, d') :: ds)
               (if Qlt_le_dec (Qabs c') epsilon then cs else (cn, c') :: cs))
      end
  | _, _ => Some []
  end.

(** ** The balance functions under rounding *)

(** A binary64 operation returns the exact result rounded to a binary64
    number.  [Rounded] is the text of the balance functions with every
    addition, subtraction and division followed by a rounding [fl] that is
    left open.  With the identity for [fl] these are the functions above;
    with the rounding of binary64 they are the functions of the code as
    long as no result overflows. *)
Module Rounded.
Section Engine.
Variable fl : Q -> Q.

Definition dict_iadd (d : dict) (k : string) (v : Q) : result dict :=
  match dict_get d k with
  | Some x => Ok (dict_set d k (fl (x + v)%Q))
  | None => Raise (KeyError k)
  end.

Definition dict_isub (d : dict) (k : string) (v : Q) : result dict :=
  match dict_get d k with
  | Some x => Ok (dict_set d k (fl (x - v)%Q))
  | None => Raise (KeyError k)
  end.

Definition share_of (amount : Q) (participant_list : list string) : Q :=
  match participant_list with
  | [] => 0%Q
  | _ :: _ =>
      fl (amount / inject_Z (Z.of_nat (List.length participant_list)))%Q
  end.

Definition charge_shares (share : Q) (participant_list : list string)
  (nb : dict) : result dict :=
  for_each (fun nb p => dict_isub nb p share) participant_list nb.

Definition apply_expense (net_balance : dict) (row : expense_row)
  : result dict :=
  let payer := strip (ePayer row) in
  let participant_list := parse_participants (eParticipants row) in
  let amount := amount_or_zero (eAmount row) in
  let share := share_of amount participant_list in
  nb <- dict_iadd net_balance payer amount ;;
  charge_shares share participant_list nb.

Definition compute_expense_balances (expenses_df : list expense_row)
  : result dict :=
  let persons := all_persons expenses_df in
  let net_balance := zero_balances persons in
  for_each apply_expense expenses_df net_balance.

Definition apply_payment (net_balance : dict) (row : payment_row)
  : result dict :=
  let amount := amount_or_zero (pAmount row) in
  let payer := strip (pPayer row) in
  let payee := strip (pPayee row) in
  nb <- (if truthy payer then dict_iadd net_balance payer amount
         else Ok net_balance) ;;
  if truthy payee then dict_isub nb payee amount else Ok nb.

Definition adjust_for_payments (net_balance : dict)
  (payments_df : list payment_row) : result dict :=
  for_each apply_payment payments_df net_balance.

Definition compute_balances (expenses_df : list expense_row)
  (payments_df : list payment_row) : result dict :=
  nb <- compute_expense_balances expenses_df ;;
  adjust_for_payments nb payments_df.

End Engine.
End Rounded.

(** What the records do to the balance of one person [p], operation by
    operation, in the words of the specification.  An expense record adds
    its amount when [p] is the payer, then subtracts the share
    [amount / |participants|] once for each time [p] is listed; a payment
    record adds its amount when [p] pays and subtracts it when [p] is
    paid.  A non-numeric amount counts as 0. *)
Definition amount_of (c : amount_cell) : Q :=
  match c with
  | Numeric q => q
  | NonNumeric _ => 0%Q
  end.

Definition expense_step (fl : Q -> Q) (p : string) (balance : Q)
  (row : expense_row) : Q :=
  let payer := strip (ePayer row) in
  let participants := parse_participants (eParticipants row) in
  let amount := amount_of (eAmount row) in
  let share :=
    match participants with
    | [] => 0%Q
    | _ :: _ => fl (amount / inject_Z (Z.of_nat (List.length participants)))%Q
    end in
  fold_left (fun b q => if String.eqb q p then fl (b - share)%Q else b)
    participants
    (if String.eqb payer p then fl (balance + amount)%Q else balance).

Definition payment_step (fl : Q -> Q) (p : string) (balance : Q)
  (row : payment_row) : Q :=
  let amount := amount_of (pAmount row) in
  let payer := strip (pPayer row) in
  let payee := strip (pPayee row) in
  let balance :=
    if truthy payer && String.eqb payer p then fl (balance + amount)%Q
    else balance in
  if truthy payee && String.eqb payee p then fl (balance - amount)%Q
  else balance.

Definition ledger (fl : Q -> Q) (expenses : list expense_row)
  (payments : list payment_row) (p : string) : Q :=
  fold_left (payment_step fl p) payments
    (fold_left (expense_step fl p) expenses 0%Q).

(** The rounding of binary64 arithmetic, as far as the error analysis
    needs it: a result of magnitude at most 2^1023 is returned with a
    relative error of at most 2^-53, or, below the normal range, with an
    absolute error of at most 2^-1075. *)
Definition unit_roundoff : Q := 1 # 9007199254740992.
Definition tiny : Q := Eval vm_compute in (1 # 2 ^ 1075)%Q.
Definition huge : Q := Eval vm_compute in inject_Z (2 ^ 1023).

Definition rounds (fl : Q -> Q) : Prop :=
  forall x, (Qabs x <= huge)%Q ->
    (Qabs (fl x - x) <= unit_roundoff * Qabs x + tiny)%Q.

(** A rounding that is not the identity: to the nearest multiple of
    2^-1074, the spacing of the smallest binary64 numbers. *)
Definition grid : Q := Eval vm_compute in inject_Z (2 ^ 1074).
Definition to_grid (x : Q) : Q :=
  (inject_Z (Qfloor (x * grid + (1 # 2))) / grid)%Q.

(** The number of additions and subtractions the records cause, and the
    total of the absolute amounts. *)
Definition updates (expenses : list expense_row)
  (payments : list payment_row) : Q :=
  (Qsum (map (fun row =>
                1 + Qlen (parse_participants (eParticipants row)))
             expenses)
   + 2 * Qlen payments)%Q.

Definition turnover (expenses : list expense_row)
  (payments : list payment_row) : Q :=
  (Qsum (map (fun row => Qabs (amount_or_zero (eAmount row))) expenses)
   + Qsum (map (fun row => Qabs (amount_or_zero (pAmount row))) payments))%Q.

(** The sum of the magnitudes of the balances. *)
Definition magnitude (d : dict) : Q := Qsum (map Qabs (values d)).

Definition hundred_by_three : list expense_row :=
  [expense "Alice" 100 "Alice, Bob, Carol"].

(** What one operation may add to the error of the sum of the balances
    ([slack]), what an expense record and a payment record may add to it
    ([drift]) and to the sum of the magnitudes of the balances
    ([growth]). *)
Definition slack (bound : Q) : Q := (unit_roundoff * bound + tiny)%Q.

Definition drift_of_expense (bound : Q) (row : expense_row) : Q :=
  (unit_roundoff * Qabs (amount_or_zero (eAmount row))
   + (1 + Qlen (parse_participants (eParticipants row)))
     * (slack bound + tiny))%Q.

Definition growth_of_expense (bound : Q) (row : expense_row) : Q :=
  (3 * Qabs (amount_or_zero (eAmount row))
   + (1 + Qlen (parse_participants (eParticipants row)))
     * (slack bound + tiny))%Q.

Definition growth_of_payment (bound : Q) (row : payment_row) : Q :=
  (2 * Qabs (amount_or_zero (pAmount row)) + 2 * slack bound)%Q.

Definition a_third_each : dict :=
  Eval vm_compute in
    match Rounded.compute_balances to_grid hundred_by_three [] with
    | Ok nb => nb
    | Raise _ => []
    end.

(** ** The same functions on binary64 numbers *)

(** The functions once more, with the amounts as the code has them: IEEE
    754 binary64 numbers, with their rounding, their infinities and NaN.
    The text is the one of the definitions above, the operations are the
    ones of the processor. *)
Module Binary64.
Import Floats.

Definition dict : Type := list (string * float).

Fixpoint dict_get (d : dict) (k : string) : option float :=
  match d with
  | [] => None
  | (k', v) :: d' => if String.eqb k' k then Some v else dict_get d' k
  end.

Fixpoint dict_set (d : dict) (k : string) (v : float) : dict :=
  match d with
  | [] => [(k, v)]
  | (k', v') :: d' =>
      if String.eqb k' k then (k', v) :: d' else (k', v') :: dict_set d' k v
  end.

Definition dict_iadd (d : dict) (k : string) (v : float) : result dict :=
  match dict_get d k with
  | Some x => Ok (dict_set d k (x + v)%float)
  | None => Raise (KeyError k)
  end.

Definition dict_isub (d : dict) (k : string) (v : float) : result dict :=
  match dict_get d k with
  | Some x => Ok (dict_set d k (x - v)%float)
  | None => Raise (KeyError k)
  end.

(** The [Amount] cell: [float()] also accepts [inf], [nan] and numbers too
    large for a binary64, which it reads as infinite. *)
Inductive amount_cell : Type :=
| Numeric (x : float)
| NonNumeric (raw : string).

Definition amount_or_zero (c : amount_cell) : float :=
  match c with
  | Numeric x => x
  | NonNumeric _ => 0%float
  end.

Record expense_row : Type := mkExpense {
  eDate : string;
  ePayer : string;
  eAmount : amount_cell;
  eParticipants : string;
  eSplitType : string;
  ePercentages : string;
  eNotes : string
}.

Record payment_row : Type := mkPayment {
  pDate : string;
  pPayer : string;
  pAmount : amount_cell;
  pPayee : string;
  pNotes : string
}.

Definition collect_persons (persons : list string) (row : expense_row)
  : list string :=
  let payer := strip (ePayer row) in
  let participant_list := parse_participants (eParticipants row) in
  let persons := if truthy payer then set_add payer persons else persons in
  fold_left (fun ps p => set_add p ps) participant_list persons.

(** [len(participant_list)] as a binary64 number; exact below 2^53. *)
Fixpoint float_of_nat (n : nat) : float :=
  match n with
  | O => 0%float
  | S n' => (float_of_nat n' + 1)%float
  end.

Definition share_of (amount : float) (participant_list : list string)
  : float :=
  match participant_list with
  | [] => 0%float
  | _ :: _ => (amount / float_of_nat (List.length participant_list))%float
  end.

Definition apply_expense (net_balance : dict) (row : expense_row)
  : result dict :=
  let payer := strip (ePayer row) in
  let participant_list := parse_participants (eParticipants row) in
  let amount := amount_or_zero (eAmount row) in
  let share := share_of amount participant_list in
  nb <- dict_iadd net_balance payer amount ;;
  for_each (fun nb p => dict_isub nb p share) participant_list nb.

Definition compute_expense_balances (expenses_df : list expense_row)
  : result dict :=
  let persons := fold_left collect_persons expenses_df [] in
  let net_balance :=
    fold_left (fun nb person => dict_set nb person 0%float) persons [] in
  for_each apply_expense expenses_df net_balance.

Definition apply_payment (net_balance : dict) (row : payment_row)
  : result dict :=
  let amount := amount_or_zero (pAmount row) in
  let payer := strip (pPayer row) in
  let payee := strip (pPayee row) in
  nb <- (if truthy payer then dict_iadd net_balance payer amount
         else Ok net_balance) ;;
  if truthy payee then dict_isub nb payee amount else Ok nb.

Definition adjust_for_payments (net_balance : dict)
  (payments_df : list payment_row) : result dict :=
  for_each apply_payment payments_df net_balance.

Definition compute_balances (expenses_df : list expense_row)
  (payments_df : list payment_row) : result dict :=
  nb <- compute_expense_balances expenses_df ;;
  adjust_for_payments nb payments_df.

(** The literal [1e-9]: the binary64 number 0x1.12e0be826d695p-30. *)
Definition eps : float := 0x1.12e0be826d695p-30%float.

(** [min(a, b)] *)
Definition py_min (a b : float) : float := if ltb b a then b else a.

(** [abs(x) < 1e-9]; false when [x] is NaN. *)
Definition settled (x : float) : bool := ltb (abs x) eps.

Record transaction : Type := mkTx {
  debtor : string;
  creditor : string;
  amount : float
}.

Definition item : Type := (string * float)%type.

Fixpoint insert_by (before : item -> item -> bool) (x : item) (l : list item)
  : list item :=
  match l with
  | [] => [x]
  | y :: l' => if before x y then x :: l else y :: insert_by before x l'
  end.

Definition sort_by (before : item -> item -> bool) (l : list item)
  : list item :=
  fold_right (insert_by before) [] l.

Definition ascending (x y : item) : bool := leb (snd x) (snd y).
Definition descending (x y : item) : bool := leb (snd y) (snd x).

Definition is_creditor (x : item) : bool := ltb eps (snd x).
Definition is_debtor (x : item) : bool := ltb (snd x) (- eps)%float.

Record frame : Type := mkFrame {
  fr_creditors : list item;
  fr_debtors : list item;
  fr_transactions : list transaction;
  fr_i : nat;
  fr_j : nat
}.

Definition enter (net_balance : dict) : frame :=
  let creditors := filter is_creditor net_balance in
  let debtors := filter is_debtor net_balance in
  let creditors := sort_by descending creditors in
  let debtors := sort_by ascending debtors in
  mkFrame creditors debtors [] 0 0.

Definition loop_cond (fr : frame) : bool :=
  Nat.ltb (fr_i fr) (List.length (fr_debtors fr))
  && Nat.ltb (fr_j fr) (List.length (fr_creditors fr)).

Definition loop_body (fr : frame) : frame :=
  match nth_error (fr_debtors fr) (fr_i fr),
        nth_error (fr_creditors fr) (fr_j fr) with
  | Some (debtor, d_amt), Some (creditor, c_amt) =>
      let settlement := py_min c_amt (- d_amt)%float in
      let transactions :=
        fr_transactions fr ++ [mkTx debtor creditor settlement] in
      let d_amt := (d_amt + settlement)%float in
      let c_amt := (c_amt - settlement)%float in
      let debtors := list_set (fr_debtors fr) (fr_i fr) (debtor, d_amt) in
      let creditors := list_set (fr_creditors fr) (fr_j fr) (creditor, c_amt) in
      let i := if settled d_amt then S (fr_i fr) else fr_i fr in
      let j := if settled c_amt then S (fr_j fr) else fr_j fr in
      mkFrame creditors debtors transactions i j
  | _, _ => fr
  end.

Fixpoint while_loop (fuel : nat) (fr : frame) : option frame :=
  if loop_cond fr then
    match fuel with
    | O => None
    | S fuel' => while_loop fuel' (loop_body fr)
    end
  else Some fr.

(** [settle_debts] on fuel: [None] when the loop is still running when the
    fuel is used up. *)
Definition settle_debts_fuel (fuel : nat) (net_balance : dict)
  : option (list transaction) :=
  option_map fr_transactions (while_loop fuel (enter net_balance)).

(** The value of a finite binary64 number. *)
Definition to_Q (x : float) : option Q :=
  match Prim2SF x with
  | S754_zero _ => Some 0%Q
  | S754_finite s m e =>
      let v := (inject_Z (Zpos m)
                * (if Z.ltb e 0 then / inject_Z (2 ^ (- e))
                   else inject_Z (2 ^ e)))%Q in
      Some (if s then (- v)%Q else v)
  | S754_infinity _ => None
  | S754_nan => None
  end.

Definition expense (payer : string) (amount : float) (participants : string)
  : expense_row :=
  mkExpense "01/01/2025" payer (Numeric amount) participants "Equal"
    EmptyString EmptyString.

(** Two expenses of 1e308 that Alice pays for Bob. *)
Definition two_huge_expenses : list expense_row :=
  [expense "Alice" 0x1.1ccf385ebc8a0p+1023%float "Bob";
   expense "Alice" 0x1.1ccf385ebc8a0p+1023%float "Bob"].

Definition infinite_balances : dict :=
  [("Alice", infinity); ("Bob", neg_infinity)].

(** The sum of the balances as a rational number, for finite balances. *)
Definition exact_sum (d : dict) : Q :=
  Qsum (map (fun kv => match to_Q (snd kv) with
                       | Some q => q
                       | None => 0%Q
                       end) d).

(** The dinner of the first scenario, the balances after it and the
    plan. *)
Definition dinner : list expense_row :=
  [expense "Alice" 90%float "Alice, Bob, Carol"].

Definition after_dinner : dict :=
  [("Alice", 60%float); ("Bob", (-30)%float); ("Carol", (-30)%float)].

Definition dinner_plan : list transaction :=
  [mkTx "Bob" "Alice" 30%float; mkTx "Carol" "Alice" 30%float].

(** 1e11 shared by seven. *)
Definition a_fortune_by_seven : list expense_row :=
  [expense "Alice" 100000000000%float
     "Alice, Bob, Carol, Dave, Eve, Frank, Grace"].

Definition a_seventh_each : dict :=
  Eval vm_compute in
    match compute_balances a_fortune_by_seven [] with
    | Ok nb => nb
    | Raise _ => []
    end.

(** Alice pays 0.1, 0.2 and 0.3 for Bob, in this order and in the other. *)
Definition small_first : list expense_row :=
  [expense "Alice" 0x1.999999999999ap-4%float "Bob";
   expense "Alice" 0x1.999999999999ap-3%float "Bob";
   expense "Alice" 0x1.3333333333333p-2%float "Bob"].

Definition small_last : list expense_row :=
  [expense "Alice" 0x1.3333333333333p-2%float "Bob";
   expense "Alice" 0x1.999999999999ap-3%float "Bob";
   expense "Alice" 0x1.999999999999ap-4%float "Bob"].

(** 0.6000000000000001 and 0.6 *)
Definition sixty_cents_and_a_bit : float := 0x1.3333333333334p-1%float.
Definition sixty_cents : float := 0x1.3333333333333p-1%float.

(** The frame of the loop on [infinite_balances] from its second turn on:
    both remaining amounts are NaN. *)
Definition stuck (transactions : list transaction) : frame :=
  mkFrame [("Alice", nan)] [("Bob", nan)] transactions 0 0.

End Binary64.

(** * Dictionaries *)

Lemma dict_get_keys (d : dict) (k : string) :
  dict_get d k <> None <-> In k (keys d).
Proof.
  induction d as [|[k' v] d IH]; simpl.
  - split; [congruence | tauto].
  - destruct (String.eqb_spec k' k) as [->|Hne].
    + split; [auto | discriminate].
    + rewrite IH. split; [auto | intros [H|H]; [contradiction | exact H]].
Qed.

Lemma dict_get_some_keys (d : dict) (k : string) (v : Q) :
  dict_get d k = Some v -> In k (keys d).
Proof. intros H. apply dict_get_keys. congruence. Qed.

Lemma keys_dict_get (d : dict) (k : string) :
  In k (keys d) -> exists v, dict_get d k = Some v.
Proof.
  intros H. apply dict_get_keys in H.
  destruct (dict_get d k) as [v|]; [eauto | congruence].
Qed.

Lemma dict_get_set_same (d : dict) (k : string) (v : Q) :
  dict_get (dict_set d k v) k = Some v.
Proof.
  induction d as [|[k' v'] d IH]; simpl.
  - now rewrite String.eqb_refl.
  - destruct (String.eqb_spec k' k) as [->|Hne]; simpl.
    + now rewrite String.eqb_refl.
    + destruct (String.eqb_spec k' k); [contradiction | exact IH].
Qed.

Lemma dict_get_set_other (d : dict) (k k' : string) (v : Q) :
  k <> k' -> dict_get (dict_set d k v) k' = dict_get d k'.
Proof.
  intros Hne. induction d as [|[k0 v0] d IH]; simpl.
  - destruct (String.eqb_spec k k'); [contradiction | reflexivity].
  - destruct (String.eqb_spec k0 k) as [->|Hk]; simpl.
    + destruct (String.eqb_spec k k'); [contradiction | reflexivity].
    + now rewrite IH.
Qed.

Lemma keys_set_present (d : dict) (k : string) (v x : Q) :
  dict_get d k = Some x -> keys (dict_set d k v) = keys d.
Proof.
  induction d as [|[k' v'] d IH]; simpl; [discriminate|].
  destruct (String.eqb_spec k' k) as [->|Hne]; simpl; intros H.
  - reflexivity.
  - f_equal. now apply IH.
Qed.

Lemma keys_set_In (d : dict) (k k' : string) (v : Q) :
  In k' (keys (dict_set d k v)) <-> k' = k \/ In k' (keys d).
Proof.
  induction d as [|[k0 v0] d IH]; simpl.
  - intuition.
  - destruct (String.eqb_spec k0 k) as [->|Hne]; simpl.
    + intuition.
    + rewrite IH. intuition.
Qed.

Lemma total_set (d : dict) (k : string) (v x : Q) :
  dict_get d k = Some x ->
  (Qsum (values (dict_set d k v)) == Qsum (values d) - x + v)%Q.
Proof.
  induction d as [|[k' v'] d IH]; simpl; [discriminate|].
  destruct (String.eqb_spec k' k) as [->|Hne]; simpl; intros H.
  - injection H as ->. ring.
  - rewrite (IH H). ring.
Qed.

(** * Balances from expense records *)

Lemma set_add_In (p q : string) (l : list string) :
  In q (set_add p l) <-> q = p \/ In q l.
Proof.
  induction l as [|x l IH]; simpl.
  - intuition.
  - destruct (String.eqb_spec x p) as [->|Hne]; simpl.
    + intuition.
    + rewrite IH. intuition.
Qed.

Lemma add_all_In (q : string) (l acc : list string) :
  In q (fold_left (fun ps p => set_add p ps) l acc) <-> In q l \/ In q acc.
Proof.
  revert acc. induction l as [|x l IH]; intros acc; simpl.
  - intuition.
  - rewrite IH, set_add_In. intuition.
Qed.

Lemma collect_persons_In (q : string) (ps : list string) (row : expense_row) :
  In q (collect_persons ps row) <-> mentions row q \/ In q ps.
Proof.
  unfold collect_persons, mentions. rewrite add_all_In.
  destruct (truthy (strip (ePayer row))).
  - rewrite set_add_In. intuition.
  - intuition. discriminate.
Qed.

Lemma collect_all_In (q : string) (rows : list expense_row) :
  forall acc,
    In q (fold_left collect_persons rows acc) <->
    In q acc \/ exists row, In row rows /\ mentions row q.
Proof.
  induction rows as [|r rows IH]; intros acc; simpl.
  - split; [auto | intros [H|[row [Hin _]]]; [exact H | destruct Hin]].
  - rewrite IH, collect_persons_In. split.
    + intros [[H|H]|[row [Hin H]]]; eauto.
    + intros [H|[row [[->|Hin] H]]]; eauto.
Qed.

Lemma all_persons_In (q : string) (rows : list expense_row) :
  In q (all_persons rows) <-> exists row, In row rows /\ mentions row q.
Proof.
  unfold all_persons. rewrite collect_all_In. simpl. intuition.
Qed.

Lemma zero_fold_keys (p : string) (ps : list string) :
  forall acc,
    In p (keys (fold_left (fun nb person => dict_set nb person 0%Q) ps acc))
    <-> In p ps \/ In p (keys acc).
Proof.
  induction ps as [|x ps IH]; intros acc; simpl.
  - intuition.
  - rewrite IH, keys_set_In. intuition.
Qed.

Lemma zero_fold_get (ps : list string) :
  forall acc,
    (forall k v, dict_get acc k = Some v -> v = 0%Q) ->
    forall k v,
      dict_get (fold_left (fun nb person => dict_set nb person 0%Q) ps acc) k
      = Some v -> v = 0%Q.
Proof.
  induction ps as [|x ps IH]; intros acc Hacc k v; simpl.
  - apply Hacc.
  - apply IH. intros k' v'.
    destruct (string_dec x k') as [->|Hne].
    + rewrite dict_get_set_same. congruence.
    + rewrite dict_get_set_other by exact Hne. apply Hacc.
Qed.

Lemma zero_balances_keys (p : string) (ps : list string) :
  In p (keys (zero_balances ps)) <-> In p ps.
Proof. unfold zero_balances. rewrite zero_fold_keys. simpl. intuition. Qed.

Lemma zero_balances_get (ps : list string) (k : string) (v : Q) :
  dict_get (zero_balances ps) k = Some v -> v = 0%Q.
Proof. apply zero_fold_get. simpl. discriminate. Qed.

Lemma zero_balances_total (ps : list string) :
  (Qsum (values (zero_balances ps)) == 0)%Q.
Proof.
  assert (Hset : forall (d : dict) k,
             Forall (fun x => snd x = 0%Q) d ->
             Forall (fun x => snd x = 0%Q) (dict_set d k 0%Q)).
  { induction d as [|[k' v'] d IH]; simpl; intros k Hd.
    - repeat constructor.
    - inversion Hd; subst.
      destruct (String.eqb k' k); constructor; auto. }
  assert (Hfold : forall ps acc,
             Forall (fun x => snd x = 0%Q) acc ->
             Forall (fun x => snd x = 0%Q)
               (fold_left (fun nb person => dict_set nb person 0%Q) ps acc)).
  { induction ps0 as [|x ps0 IH]; intros acc Hacc; simpl; auto. }
  specialize (Hfold ps [] (Forall_nil _)). fold (zero_balances ps) in Hfold.
  induction Hfold as [|[k v] d Hv _ IH]; simpl in *.
  - reflexivity.
  - rewrite IH, Hv. ring.
Qed.

Lemma occurrences_nil (p : string) : (occurrences p [] == 0)%Q.
Proof. reflexivity. Qed.

Lemma occurrences_cons_same (p : string) (l : list string) :
  (occurrences p (p :: l) == 1 + occurrences p l)%Q.
Proof.
  unfold occurrences. rewrite count_occ_cons_eq by reflexivity.
  rewrite Nat2Z.inj_succ. unfold Z.succ. rewrite inject_Z_plus. ring.
Qed.

Lemma occurrences_cons_other (p q : string) (l : list string) :
  q <> p -> occurrences p (q :: l) = occurrences p l.
Proof.
  intros H. unfold occurrences. now rewrite count_occ_cons_neq.
Qed.

Lemma charge_shares_ok (share : Q) :
  forall (plist : list string) (nb : dict),
    (forall p, In p plist -> In p (keys nb)) ->
    exists nb',
      charge_shares share plist nb = Ok nb'
      /\ keys nb' = keys nb
      /\ forall p v, dict_get nb p = Some v ->
           exists v', dict_get nb' p = Some v'
                      /\ (v' == v - occurrences p plist * share)%Q.
Proof.
  unfold charge_shares.
  induction plist as [|a plist IH]; intros nb Hin; simpl.
  - exists nb. repeat split. intros p v Hp. exists v. split; [exact Hp|].
    rewrite occurrences_nil. ring.
  - destruct (keys_dict_get nb a (Hin a (or_introl eq_refl))) as [x Hx].
    unfold dict_isub at 1. rewrite Hx. simpl.
    destruct (IH (dict_set nb a (x - share)%Q)) as [nb' [Hrun [Hkeys Hget]]].
    { intros p Hp. rewrite (keys_set_present _ _ _ _ Hx). apply Hin. now right. }
    exists nb'. split; [exact Hrun|]. split.
    { rewrite Hkeys. eapply keys_set_present; eassumption. }
    intros p v Hp. destruct (string_dec a p) as [->|Hne].
    + destruct (Hget p (x - share)%Q (dict_get_set_same _ _ _)) as [v' [Hv' Heq]].
      exists v'. split; [exact Hv'|].
      rewrite Heq, occurrences_cons_same.
      assert (v = x) by congruence. subst v. ring.
    + destruct (Hget p v) as [v' [Hv' Heq]].
      { now rewrite dict_get_set_other. }
      exists v'. split; [exact Hv'|].
      now rewrite Heq, (occurrences_cons_other p a plist Hne).
Qed.

Lemma apply_expense_ok (nb : dict) (row : expense_row) :
  In (strip (ePayer row)) (keys nb) ->
  (forall p, In p (parse_participants (eParticipants row)) -> In p (keys nb)) ->
  exists nb',
    apply_expense nb row = Ok nb'
    /\ keys nb' = keys nb
    /\ forall p v, dict_get nb p = Some v ->
         exists v', dict_get nb' p = Some v'
                    /\ (v' == v + contribution row p)%Q.
Proof.
  intros Hpayer Hparts. unfold apply_expense, contribution.
  set (payer := strip (ePayer row)) in *.
  set (plist := parse_participants (eParticipants row)) in *.
  set (amt := amount_or_zero (eAmount row)).
  destruct (keys_dict_get nb payer Hpayer) as [x Hx].
  unfold dict_iadd. rewrite Hx. simpl.
  destruct (charge_shares_ok (share_of amt plist) plist
              (dict_set nb payer (x + amt)%Q)) as [nb' [Hrun [Hkeys Hget]]].
  { intros p Hp. rewrite (keys_set_present _ _ _ _ Hx). now apply Hparts. }
  exists nb'. split; [exact Hrun|]. split.
  { rewrite Hkeys. eapply keys_set_present; eassumption. }
  intros p v Hp. destruct (String.eqb_spec payer p) as [<-|Hne].
  - destruct (Hget payer (x + amt)%Q (dict_get_set_same _ _ _))
      as [v' [Hv' Heq]].
    exists v'. split; [exact Hv'|]. rewrite Heq.
    assert (v = x) by congruence. subst v. ring.
  - destruct (Hget p v) as [v' [Hv' Heq]].
    { now rewrite dict_get_set_other. }
    exists v'. split; [exact Hv'|]. rewrite Heq. ring.
Qed.

Lemma expenses_ok :
  forall (rows : list expense_row) (nb : dict),
    (forall row q, In row rows ->
       q = strip (ePayer row) \/ In q (parse_participants (eParticipants row)) ->
       In q (keys nb)) ->
    exists nb',
      for_each apply_expense rows nb = Ok nb'
      /\ keys nb' = keys nb
      /\ forall p v, dict_get nb p = Some v ->
           exists v', dict_get nb' p = Some v'
                      /\ (v' == v + contributions rows p)%Q.
Proof.
  induction rows as [|r rows IH]; intros nb Hin; simpl.
  - exists nb. repeat split. intros p v Hp. exists v. split; [exact Hp|].
    unfold contributions. simpl. ring.
  - destruct (apply_expense_ok nb r) as [nb1 [Hrun1 [Hkeys1 Hget1]]].
    { apply (Hin r (strip (ePayer r))); [now left | now left]. }
    { intros p Hp. apply (Hin r p); [now left | now right]. }
    rewrite Hrun1. simpl.
    destruct (IH nb1) as [nb' [Hrun [Hkeys Hget]]].
    { intros row q Hrow Hq. rewrite Hkeys1. apply (Hin row q); [now right | exact Hq]. }
    exists nb'. split; [exact Hrun|]. split; [congruence|].
    intros p v Hp.
    destruct (Hget1 p v Hp) as [v1 [Hv1 Heq1]].
    destruct (Hget p v1 Hv1) as [v' [Hv' Heq]].
    exists v'. split; [exact Hv'|]. rewrite Heq, Heq1.
    unfold contributions. simpl. ring.
Qed.

(** * Settlement: lists, cursors and the sweep *)

Lemma skipn_nth_error {A} (l : list A) (n : nat) (x : A) :
  nth_error l n = Some x -> skipn n l = x :: skipn (S n) l.
Proof.
  revert n. induction l as [|y l IH]; intros [|n]; simpl; try discriminate.
  - intros H. now injection H as ->.
  - intros H. rewrite (IH n H). reflexivity.
Qed.

Lemma skipn_list_set_here {A} (l : list A) (n : nat) (x y : A) :
  nth_error l n = Some y -> skipn n (list_set l n x) = x :: skipn (S n) l.
Proof.
  revert n. induction l as [|z l IH]; intros [|n]; simpl; try discriminate.
  - reflexivity.
  - intros H. rewrite (IH n H). reflexivity.
Qed.

Lemma skipn_list_set_after {A} (l : list A) (n : nat) (x : A) :
  skipn (S n) (list_set l n x) = skipn (S n) l.
Proof.
  revert n. induction l as [|z l IH]; intros [|n]; simpl; try reflexivity.
  apply (IH n).
Qed.

Lemma Qltb_lt (a b : Q) : Qltb a b = true <-> (a < b)%Q.
Proof.
  unfold Qltb. rewrite negb_true_iff, <- not_true_iff_false, Qle_bool_iff.
  split; [apply Qnot_le_lt | apply Qlt_not_le].
Qed.

Lemma Qltb_ge (a b : Q) : Qltb a b = false <-> (b <= a)%Q.
Proof.
  unfold Qltb. rewrite negb_false_iff, Qle_bool_iff. reflexivity.
Qed.

Lemma settled_true (x : Q) : settled x = true <-> (- eps < x < eps)%Q.
Proof. unfold settled. rewrite Qltb_lt. apply Qabs_Qlt_condition. Qed.

Lemma settled_false (x : Q) :
  settled x = false <-> (x <= - eps \/ eps <= x)%Q.
Proof.
  rewrite <- not_true_iff_false, settled_true. split.
  - intros H. destruct (Qlt_le_dec (- eps) x) as [H1|H1]; [|now left].
    destruct (Qlt_le_dec x eps) as [H2|H2]; [|now right].
    exfalso. apply H. split; assumption.
  - intros [H|H] [H1 H2]; lra.
Qed.

Lemma eps_pos : (0 < eps)%Q.
Proof. reflexivity. Qed.

Lemma py_min_cases (a b : Q) :
  (py_min a b = a /\ (a <= b)%Q) \/ (py_min a b = b /\ (b < a)%Q).
Proof.
  unfold py_min. destruct (Qltb b a) eqn:H.
  - right. split; [reflexivity | now apply Qltb_lt].
  - left. split; [reflexivity | now apply Qltb_ge].
Qed.

(** Every turn settles the debtor, the creditor or both. *)
Lemma one_side_settled (c d : Q) :
  settled (d + py_min c (- d)) = true \/ settled (c - py_min c (- d)) = true.
Proof.
  pose proof eps_pos.
  destruct (py_min_cases c (- d)) as [[-> _]|[-> _]].
  - right. apply settled_true. split; lra.
  - left. apply settled_true. split; lra.
Qed.

Lemma loop_cond_true (fr : frame) :
  loop_cond fr = true ->
  exists x y, nth_error (fr_debtors fr) (fr_i fr) = Some x
              /\ nth_error (fr_creditors fr) (fr_j fr) = Some y.
Proof.
  unfold loop_cond. rewrite andb_true_iff, !Nat.ltb_lt. intros [Hi Hj].
  apply nth_error_Some in Hi. apply nth_error_Some in Hj.
  destruct (nth_error (fr_debtors fr) (fr_i fr)) as [x|]; [|congruence].
  destruct (nth_error (fr_creditors fr) (fr_j fr)) as [y|]; [|congruence].
  eauto.
Qed.

Lemma loop_cond_false (fr : frame) :
  loop_cond fr = false ->
  skipn (fr_i fr) (fr_debtors fr) = []
  \/ skipn (fr_j fr) (fr_creditors fr) = [].
Proof.
  unfold loop_cond. rewrite andb_false_iff, !Nat.ltb_ge.
  intros [H|H]; [left | right]; now apply skipn_all2.
Qed.

Lemma sweep_exhausted (fuel : nat) (ds cs : list item) :
  ds = [] \/ cs = [] -> sweep fuel ds cs = Some ([], (ds, cs)).
Proof.
  intros [->| ->]; destruct fuel; simpl; try reflexivity;
    destruct ds as [|[dn d] ds]; reflexivity.
Qed.

(** The loop of the code, started anywhere, emits what the sweep emits on
    the parts of the two lists from the cursors on. *)
Lemma while_loop_sweep :
  forall (fuel : nat) (fr : frame),
    option_map fr_transactions (while_loop fuel fr)
    = option_map (fun r => fr_transactions fr ++ fst r)
        (sweep fuel (skipn (fr_i fr) (fr_debtors fr))
                    (skipn (fr_j fr) (fr_creditors fr))).
Proof.
  induction fuel as [|fuel IH]; intros fr.
  - simpl while_loop. destruct (loop_cond fr) eqn:Hc.
    + destruct (loop_cond_true fr Hc) as [[dn d] [[cn c] [Hd Hcr]]].
      rewrite (skipn_nth_error _ _ _ Hd), (skipn_nth_error _ _ _ Hcr).
      reflexivity.
    + rewrite sweep_exhausted by now apply loop_cond_false.
      simpl. now rewrite app_nil_r.
  - simpl while_loop. destruct (loop_cond fr) eqn:Hc.
    + destruct (loop_cond_true fr Hc) as [[dn d] [[cn c] [Hd Hcr]]].
      rewrite IH. unfold loop_body. rewrite Hd, Hcr.
      rewrite (skipn_nth_error _ _ _ Hd), (skipn_nth_error _ _ _ Hcr).
      cbn [fr_i fr_j fr_debtors fr_creditors fr_transactions sweep].
      set (a := py_min c (- d)).
      assert (Hds : skipn (if settled (d + a) then S (fr_i fr) else fr_i fr)
                      (list_set (fr_debtors fr) (fr_i fr) (dn, (d + a)%Q))
                    = if settled (d + a) then skipn (S (fr_i fr)) (fr_debtors fr)
                      else (dn, (d + a)%Q) :: skipn (S (fr_i fr)) (fr_debtors fr)).
      { destruct (settled (d + a)).
        - apply skipn_list_set_after.
        - eapply skipn_list_set_here; eassumption. }
      assert (Hcs : skipn (if settled (c - a) then S (fr_j fr) else fr_j fr)
                      (list_set (fr_creditors fr) (fr_j fr) (cn, (c - a)%Q))
                    = if settled (c - a) then skipn (S (fr_j fr)) (fr_creditors fr)
                      else (cn, (c - a)%Q) :: skipn (S (fr_j fr)) (fr_creditors fr)).
      { destruct (settled (c - a)).
        - apply skipn_list_set_after.
        - eapply skipn_list_set_here; eassumption. }
      rewrite Hds, Hcs.
      destruct (sweep fuel _ _) as [[txs [rd rc]]|]; simpl; [|reflexivity].
      now rewrite <- app_assoc.
    + rewrite sweep_exhausted by now apply loop_cond_false.
      simpl. now rewrite app_nil_r.
Qed.

Lemma settle_debts_fuel_plan (fuel : nat) (nb : dict) :
  settle_debts_fuel fuel nb = plan_settlement fuel nb.
Proof.
  unfold settle_debts_fuel, settle_debts_frame, plan_settlement.
  rewrite while_loop_sweep. simpl.
  fold (spec_debtors nb). fold (spec_creditors nb).
  now destruct (sweep fuel _ _) as [[txs [rd rc]]|].
Qed.

(** Reasoning by cases on a sweep that returned. *)
Lemma sweep_cases
  (P : list item -> list item -> list transaction -> list item -> list item
       -> Prop) :
  (forall ds cs, ds = [] \/ cs = [] -> P ds cs [] ds cs) ->
  (forall dn d ds cn c cs txs rd rc,
      let a := py_min c (- d)%Q in
      let d' := (d + a)%Q in
      let c' := (c - a)%Q in
      P (if settled d' then ds else (dn, d') :: ds)
        (if settled c' then cs else (cn, c') :: cs) txs rd rc ->
      P ((dn, d) :: ds) ((cn, c) :: cs) (mkTx dn cn a :: txs)
        (if settled d' then (dn, d') :: rd else rd)
        (if settled c' then (cn, c') :: rc else rc)) ->
  forall fuel ds cs txs rd rc,
    sweep fuel ds cs = Some (txs, (rd, rc)) -> P ds cs txs rd rc.
Proof.
  intros Hbase Hstep. induction fuel as [|fuel IH]; intros ds cs txs rd rc H.
  - destruct ds as [|[dn d] ds]; [|destruct cs as [|[cn c] cs]];
      simpl in H; try discriminate; injection H as <- <- <-;
      apply Hbase; auto.
  - destruct ds as [|[dn d] ds]; [|destruct cs as [|[cn c] cs]];
      simpl in H; try (injection H as <- <- <-; apply Hbase; auto; fail).
    destruct (sweep fuel _ _) as [[txs' [rd' rc']]|] eqn:Hrec;
      [|discriminate].
    injection H as <- <- <-. apply Hstep. now apply IH.
Qed.

Lemma sweep_terminates :
  forall (fuel : nat) (ds cs : list item),
    List.length ds + List.length cs <= fuel ->
    exists r, sweep fuel ds cs = Some r.
Proof.
  induction fuel as [|fuel IH]; intros ds cs Hlen.
  - destruct ds; [|simpl in Hlen; lia].
    eexists. apply sweep_exhausted. now left.
  - destruct ds as [|[dn d] ds]; [|destruct cs as [|[cn c] cs]];
      try (eexists; apply sweep_exhausted; auto; fail).
    simpl in Hlen. simpl.
    destruct (IH (if settled (d + py_min c (- d)) then ds
                  else (dn, (d + py_min c (- d))%Q) :: ds)
                 (if settled (c - py_min c (- d)) then cs
                  else (cn, (c - py_min c (- d))%Q) :: cs))
      as [[txs [rd rc]] Hr].
    { destruct (one_side_settled c d) as [H|H]; rewrite H;
        [destruct (settled (c - py_min c (- d)))
        |destruct (settled (d + py_min c (- d)))]; simpl; lia. }
    rewrite Hr. eauto.
Qed.

Lemma sweep_more_fuel :
  forall (fuel fuel' : nat) (ds cs : list item) r,
    sweep fuel ds cs = Some r -> fuel <= fuel' -> sweep fuel' ds cs = Some r.
Proof.
  induction fuel as [|fuel IH]; intros fuel' ds cs r H Hle.
  - destruct ds as [|[dn d] ds]; [|destruct cs as [|[cn c] cs]];
      simpl in H; try discriminate; injection H as <-;
      apply sweep_exhausted; auto.
  - destruct fuel' as [|fuel']; [lia|].
    destruct ds as [|[dn d] ds]; [|destruct cs as [|[cn c] cs]];
      simpl in H |- *; try exact H.
    destruct (sweep fuel _ _) as [r'|] eqn:Hrec; [|discriminate].
    rewrite (IH fuel' _ _ r' Hrec) by lia. exact H.
Qed.

Lemma sweep_count (fuel : nat) (ds cs : list item) txs rd rc :
  sweep fuel ds cs = Some (txs, (rd, rc)) ->
  List.length txs <= List.length ds + List.length cs - 1.
Proof.
  apply (sweep_cases (fun ds cs txs _ _ =>
           List.length txs <= List.length ds + List.length cs - 1)).
  - intros. simpl. lia.
  - intros dn d ds0 cn c cs0 txs0 _ _ a d' c' IH. simpl.
    destruct (one_side_settled c d) as [H|H]; fold a in H;
      [fold d' in H | fold c' in H]; rewrite H in IH;
      [destruct (settled c') | destruct (settled d')]; simpl in IH; lia.
Qed.

Lemma sweep_tx_names (fuel : nat) (ds cs : list item) txs rd rc :
  sweep fuel ds cs = Some (txs, (rd, rc)) ->
  Forall (fun t => In (debtor t) (names ds) /\ In (creditor t) (names cs)) txs.
Proof.
  apply (sweep_cases (fun ds cs txs _ _ =>
           Forall (fun t => In (debtor t) (names ds)
                            /\ In (creditor t) (names cs)) txs)).
  - constructor.
  - intros dn d ds0 cn c cs0 txs0 _ _ a d' c' IH. constructor.
    + simpl. auto.
    + eapply Forall_impl; [|exact IH]. intros t [Hd Hc].
      destruct (settled d'), (settled c'); simpl in *; tauto.
Qed.

Lemma step_signs (c d : Q) :
  (d < 0)%Q -> (0 < c)%Q ->
  (0 < py_min c (- d))%Q
  /\ (d + py_min c (- d) <= 0)%Q /\ (0 <= c - py_min c (- d))%Q.
Proof.
  intros Hd Hc. destruct (py_min_cases c (- d)) as [[-> H]|[-> H]];
    repeat split; lra.
Qed.

Lemma signed_step dn d ds cn c cs :
  signed ((dn, d) :: ds) ((cn, c) :: cs) ->
  signed (if settled (d + py_min c (- d)) then ds
          else (dn, (d + py_min c (- d))%Q) :: ds)
         (if settled (c - py_min c (- d)) then cs
          else (cn, (c - py_min c (- d))%Q) :: cs).
Proof.
  intros [Hd Hc]. inversion Hd as [|? ? Hd0 Hds]; subst.
  inversion Hc as [|? ? Hc0 Hcs]; subst. simpl in Hd0, Hc0.
  destruct (step_signs c d Hd0 Hc0) as [_ [H1 H2]].
  pose proof eps_pos. split.
  - destruct (settled _) eqn:Hs; [exact Hds|]. constructor; [|exact Hds].
    simpl. apply settled_false in Hs. lra.
  - destruct (settled (c - _)) eqn:Hs; [exact Hcs|]. constructor; [|exact Hcs].
    simpl. apply settled_false in Hs. lra.
Qed.

Lemma sweep_signs (fuel : nat) (ds cs : list item) txs rd rc :
  sweep fuel ds cs = Some (txs, (rd, rc)) ->
  signed ds cs ->
  Forall (fun t => (0 < amount t)%Q) txs
  /\ Forall (fun x => (snd x <= 0)%Q) rd
  /\ Forall (fun x => (0 <= snd x)%Q) rc.
Proof.
  apply (sweep_cases (fun ds cs txs rd rc =>
           signed ds cs ->
           Forall (fun t => (0 < amount t)%Q) txs
           /\ Forall (fun x => (snd x <= 0)%Q) rd
           /\ Forall (fun x => (0 <= snd x)%Q) rc)).
  - intros ds0 cs0 _ [Hd Hc]. repeat split.
    + constructor.
    + eapply Forall_impl; [|exact Hd]. intros x Hx. simpl in Hx. lra.
    + eapply Forall_impl; [|exact Hc]. intros x Hx. simpl in Hx. lra.
  - intros dn d ds0 cn c cs0 txs0 rd0 rc0 a d' c' IH Hs.
    destruct (IH (signed_step _ _ _ _ _ _ Hs)) as [Ht [Hrd Hrc]].
    destruct Hs as [Hd Hc]. inversion Hd; subst. inversion Hc; subst.
    simpl in *.
    destruct (step_signs c d) as [Ha [Hd' Hc']]; try assumption.
    repeat split.
    + constructor; assumption.
    + destruct (settled d'); [constructor|]; assumption.
    + destruct (settled c'); [constructor|]; assumption.
Qed.

(** When the sweep stops, one of the two sides is settled, person by
    person. *)
Lemma sweep_exhausts (fuel : nat) (ds cs : list item) txs rd rc :
  sweep fuel ds cs = Some (txs, (rd, rc)) ->
  all_settled rd \/ all_settled rc.
Proof.
  apply (sweep_cases (fun _ _ _ rd rc => all_settled rd \/ all_settled rc)).
  - intros ds0 cs0 [->| ->]; [left | right]; constructor.
  - intros dn d ds0 cn c cs0 _ rd0 rc0 a d' c' [IH|IH]; [left | right].
    + destruct (settled d') eqn:Hs; [constructor|]; assumption.
    + destruct (settled c') eqn:Hs; [constructor|]; assumption.
Qed.

Lemma separate_step dn d d' ds cn c c' cs (bd bc : bool) :
  separate ((dn, d) :: ds) ((cn, c) :: cs) ->
  separate (if bd then ds else (dn, d') :: ds)
           (if bc then cs else (cn, c') :: cs).
Proof.
  intros [Hd [Hc Hdc]]. simpl in *.
  inversion Hd; subst. inversion Hc; subst.
  destruct bd, bc; repeat split; simpl; try assumption;
    try (constructor; assumption);
    intros p Hp Hq; apply (Hdc p); simpl; tauto.
Qed.

Lemma net_effect_cons (t : transaction) (txs : list transaction) (p : string) :
  net_effect (t :: txs) p
  = ((if String.eqb (debtor t) p then amount t else 0)
     - (if String.eqb (creditor t) p then amount t else 0)
     + net_effect txs p)%Q.
Proof. reflexivity. Qed.

Lemma net_effect_absent (A B : list string) (txs : list transaction)
  (p : string) :
  Forall (fun t => In (debtor t) A /\ In (creditor t) B) txs ->
  ~ In p A -> ~ In p B -> (net_effect txs p == 0)%Q.
Proof.
  intros H HA HB. induction H as [|t txs [Hd Hc] _ IH].
  - reflexivity.
  - rewrite net_effect_cons, IH.
    destruct (String.eqb_spec (debtor t) p) as [<-|_]; [contradiction|].
    destruct (String.eqb_spec (creditor t) p) as [<-|_]; [contradiction|].
    ring.
Qed.

Lemma in_names (p : string) (x : Q) (l : list item) :
  In (p, x) l -> In p (names l).
Proof. intros H. apply (in_map fst) in H. exact H. Qed.

Lemma net_effect_head_other (dn cn p : string) (a : Q)
  (txs : list transaction) :
  dn <> p -> cn <> p ->
  (net_effect (mkTx dn cn a :: txs) p == net_effect txs p)%Q.
Proof.
  intros Hd Hc. rewrite net_effect_cons. simpl.
  destruct (String.eqb_spec dn p); [contradiction|].
  destruct (String.eqb_spec cn p); [contradiction|]. ring.
Qed.

Lemma net_effect_head_debtor (dn cn : string) (a : Q)
  (txs : list transaction) :
  dn <> cn ->
  (net_effect (mkTx dn cn a :: txs) dn == a + net_effect txs dn)%Q.
Proof.
  intros Hne. rewrite net_effect_cons. simpl. rewrite String.eqb_refl.
  destruct (String.eqb_spec cn dn); [congruence|]. ring.
Qed.

Lemma net_effect_head_creditor (dn cn : string) (a : Q)
  (txs : list transaction) :
  dn <> cn ->
  (net_effect (mkTx dn cn a :: txs) cn == net_effect txs cn - a)%Q.
Proof.
  intros Hne. rewrite net_effect_cons. simpl. rewrite String.eqb_refl.
  destruct (String.eqb_spec dn cn); [congruence|]. ring.
Qed.

Lemma sweep_left_over (fuel : nat) (ds cs : list item) txs rd rc :
  sweep fuel ds cs = Some (txs, (rd, rc)) ->
  separate ds cs ->
  left_over ds rd txs /\ left_over cs rc txs.
Proof.
  intros Hrun.
  enough (H : Forall (fun t => In (debtor t) (names ds)
                               /\ In (creditor t) (names cs)) txs
              /\ (separate ds cs ->
                  left_over ds rd txs /\ left_over cs rc txs)) by apply H.
  revert Hrun.
  apply (sweep_cases (fun ds cs txs rd rc =>
           Forall (fun t => In (debtor t) (names ds)
                            /\ In (creditor t) (names cs)) txs
           /\ (separate ds cs ->
               left_over ds rd txs /\ left_over cs rc txs))).
  - intros ds0 cs0 _. split; [constructor|]. intros _.
    split; intros p x Hin; exists x;
      (split; [exact Hin | unfold net_effect; simpl; ring]).
  - intros dn d ds0 cn c cs0 txs0 rd0 rc0 a d' c' [Hnames IH].
    split.
    { constructor; [simpl; auto|].
      eapply Forall_impl; [|exact Hnames]. intros t [Hd Hc].
      destruct (settled d'), (settled c'); simpl in *; tauto. }
    intros Hsep.
    destruct (IH (separate_step dn d d' ds0 cn c c' cs0 _ _ Hsep))
      as [IHd IHc].
    destruct Hsep as [Hnd [Hnc Hdc]]. simpl in Hnd, Hnc, Hdc.
    inversion Hnd as [|? ? Hdn _]; subst.
    inversion Hnc as [|? ? Hcn _]; subst.
    assert (Hne : dn <> cn).
    { intros ->. apply (Hdc cn); simpl; auto. }
    assert (Hdn_cs : ~ In dn (names cs0)).
    { intros H. apply (Hdc dn); simpl; auto. }
    assert (Hcn_ds : ~ In cn (names ds0)).
    { intros H. apply (Hdc cn); simpl; auto. }
    split.
    + intros p x [Heq|Hin].
      * injection Heq as <- <-.
        destruct (settled d') eqn:Hs.
        -- exists d'. split; [now left|].
           rewrite net_effect_head_debtor by exact Hne.
           rewrite (net_effect_absent _ _ _ dn Hnames); [subst d'; ring|..].
           ++ exact Hdn.
           ++ destruct (settled c'); simpl; intuition congruence.
        -- destruct (IHd dn d') as [y [Hy Heq]]; [now left|].
           exists y. split; [exact Hy|].
           rewrite Heq, net_effect_head_debtor by exact Hne. subst d'. ring.
      * assert (Hp : In p (names ds0)) by (eapply in_names; eassumption).
        destruct (IHd p x) as [y [Hy Heq]].
        { destruct (settled d'); simpl; auto. }
        exists y. split.
        { destruct (settled d'); simpl; auto. }
        rewrite Heq, net_effect_head_other; [reflexivity|..]; congruence.
    + intros p x [Heq|Hin].
      * injection Heq as <- <-.
        destruct (settled c') eqn:Hs.
        -- exists c'. split; [now left|].
           rewrite net_effect_head_creditor by exact Hne.
           rewrite (net_effect_absent _ _ _ cn Hnames); [subst c'; ring|..].
           ++ destruct (settled d'); simpl; intuition congruence.
           ++ exact Hcn.
        -- destruct (IHc cn c') as [y [Hy Heq]]; [now left|].
           exists y. split; [exact Hy|].
           rewrite Heq, net_effect_head_creditor by exact Hne. subst c'. ring.
      * assert (Hp : In p (names cs0)) by (eapply in_names; eassumption).
        destruct (IHc p x) as [y [Hy Heq]].
        { destruct (settled c'); simpl; auto. }
        exists y. split.
        { destruct (settled c'); simpl; auto. }
        rewrite Heq, net_effect_head_other; [reflexivity|..].
        -- intros ->. apply (Hdc p); simpl; auto.
        -- congruence.
Qed.

(** * Sorting *)

Lemma insert_by_perm (before : item -> item -> bool) (x : item) :
  forall l, Permutation (insert_by before x l) (x :: l).
Proof.
  induction l as [|y l IH]; simpl.
  - reflexivity.
  - destruct (before x y); [reflexivity|].
    rewrite IH. apply perm_swap.
Qed.

Lemma sort_by_perm (before : item -> item -> bool) :
  forall l, Permutation (sort_by before l) l.
Proof.
  induction l as [|x l IH]; simpl.
  - reflexivity.
  - rewrite insert_by_perm. now constructor.
Qed.

Section Sorted.
Variable before : item -> item -> bool.
Hypothesis before_total : forall x y, before x y = false -> before y x = true.
Hypothesis before_trans :
  forall x y z, before x y = true -> before y z = true -> before x z = true.

Lemma insert_by_sorted (x : item) :
  forall l,
    StronglySorted (fun a b => before a b = true) l ->
    StronglySorted (fun a b => before a b = true) (insert_by before x l).
Proof.
  induction l as [|y l IH]; simpl; intros Hl.
  - repeat constructor.
  - inversion Hl as [|? ? Hs Hall]; subst.
    destruct (before x y) eqn:Hxy.
    + constructor; [exact Hl|]. constructor; [exact Hxy|].
      eapply Forall_impl; [|exact Hall]. intros z Hz.
      eapply before_trans; eassumption.
    + constructor; [now apply IH|].
      eapply Permutation_Forall.
      * symmetry. apply insert_by_perm.
      * constructor; [now apply before_total | exact Hall].
Qed.

Lemma sort_by_sorted :
  forall l, StronglySorted (fun a b => before a b = true) (sort_by before l).
Proof.
  induction l as [|x l IH]; simpl.
  - constructor.
  - now apply insert_by_sorted.
Qed.
End Sorted.

Lemma StronglySorted_weaken {A} (R R' : A -> A -> Prop) (l : list A) :
  (forall x y, R x y -> R' x y) -> StronglySorted R l -> StronglySorted R' l.
Proof.
  intros Himp. induction 1 as [|x l _ IH Hall]; constructor.
  - exact IH.
  - eapply Forall_impl; [|exact Hall]. intros y. apply Himp.
Qed.

Lemma ascending_sorted (l : list item) :
  StronglySorted (fun x y => (snd x <= snd y)%Q) (sort_by ascending l).
Proof.
  eapply StronglySorted_weaken;
    [|apply (sort_by_sorted ascending)].
  - intros x y H. now apply Qle_bool_iff.
  - intros x y H. unfold ascending in *. apply Qle_bool_iff.
    apply not_true_iff_false in H. rewrite Qle_bool_iff in H.
    apply Qlt_le_weak. now apply Qnot_le_lt.
  - intros x y z. unfold ascending. rewrite !Qle_bool_iff. apply Qle_trans.
Qed.

Lemma descending_sorted (l : list item) :
  StronglySorted (fun x y => (snd y <= snd x)%Q) (sort_by descending l).
Proof.
  eapply StronglySorted_weaken;
    [|apply (sort_by_sorted descending)].
  - intros x y H. now apply Qle_bool_iff.
  - intros x y H. unfold descending in *. apply Qle_bool_iff.
    apply not_true_iff_false in H. rewrite Qle_bool_iff in H.
    apply Qlt_le_weak. now apply Qnot_le_lt.
  - intros x y z. unfold descending. rewrite !Qle_bool_iff.
    intros H1 H2. eapply Qle_trans; eassumption.
Qed.

(** * Debtors, creditors and the rest *)

Lemma is_debtor_lt (x : item) : is_debtor x = true <-> (snd x < - eps)%Q.
Proof. apply Qltb_lt. Qed.

Lemma is_creditor_lt (x : item) : is_creditor x = true <-> (eps < snd x)%Q.
Proof. apply Qltb_lt. Qed.

Lemma Qlen_cons {A} (x : A) (l : list A) : (Qlen (x :: l) == 1 + Qlen l)%Q.
Proof.
  unfold Qlen. simpl List.length. rewrite Nat2Z.inj_succ. unfold Z.succ.
  rewrite inject_Z_plus. ring.
Qed.

Lemma Qlen_nonneg {A} (l : list A) : (0 <= Qlen l)%Q.
Proof.
  unfold Qlen. change 0%Q with (inject_Z 0). rewrite <- Zle_Qle. lia.
Qed.

Lemma dict_get_In (d : dict) (p : string) (v : Q) :
  dict_get d p = Some v -> In (p, v) d.
Proof.
  induction d as [|[k x] d IH]; simpl; [discriminate|].
  destruct (String.eqb_spec k p) as [->|Hne].
  - intros H. injection H as ->. now left.
  - intros H. right. now apply IH.
Qed.

Lemma In_dict_get (d : dict) (p : string) (v : Q) :
  dict_wf d -> In (p, v) d -> dict_get d p = Some v.
Proof.
  unfold dict_wf, keys. induction d as [|[k x] d IH]; simpl; [contradiction|].
  intros Hnd [Heq|Hin]; inversion Hnd as [|? ? Hk Hnd']; subst.
  - injection Heq as -> ->. now rewrite String.eqb_refl.
  - destruct (String.eqb_spec k p) as [->|Hne]; [|now apply IH].
    exfalso. apply Hk. apply (in_map fst) in Hin. exact Hin.
Qed.

Lemma NoDup_names_filter (f : item -> bool) (l : list item) :
  NoDup (names l) -> NoDup (names (filter f l)).
Proof.
  unfold names. induction l as [|x l IH]; simpl; intros H.
  - constructor.
  - inversion H as [|? ? Hx Hl]; subst.
    destruct (f x); simpl; [|now apply IH].
    constructor; [|now apply IH].
    intros Hin. apply Hx. apply in_map_iff in Hin.
    destruct Hin as [y [Hy Hin]]. apply filter_In in Hin.
    rewrite <- Hy. apply in_map. tauto.
Qed.

Lemma spec_debtors_In (nb : dict) (x : item) :
  In x (spec_debtors nb) <-> In x nb /\ (snd x < - eps)%Q.
Proof.
  unfold spec_debtors. rewrite <- is_debtor_lt, <- filter_In.
  split; apply Permutation_in;
    [|symmetry]; apply sort_by_perm.
Qed.

Lemma spec_creditors_In (nb : dict) (x : item) :
  In x (spec_creditors nb) <-> In x nb /\ (eps < snd x)%Q.
Proof.
  unfold spec_creditors. rewrite <- is_creditor_lt, <- filter_In.
  split; apply Permutation_in;
    [|symmetry]; apply sort_by_perm.
Qed.

Lemma spec_lists_signed (nb : dict) :
  signed (spec_debtors nb) (spec_creditors nb).
Proof.
  pose proof eps_pos.
  split; apply Forall_forall; intros x Hx.
  - apply spec_debtors_In in Hx. lra.
  - apply spec_creditors_In in Hx. lra.
Qed.

Lemma names_In (p : string) (l : list item) :
  In p (names l) -> exists x, In (p, x) l.
Proof.
  unfold names. rewrite in_map_iff. intros [[q x] [Hq Hin]].
  simpl in Hq. subst q. eauto.
Qed.

Lemma spec_lists_separate (nb : dict) :
  dict_wf nb -> separate (spec_debtors nb) (spec_creditors nb).
Proof.
  intros Hwf. repeat split.
  - eapply Permutation_NoDup.
    + symmetry. apply Permutation_map. apply sort_by_perm.
    + now apply NoDup_names_filter.
  - eapply Permutation_NoDup.
    + symmetry. apply Permutation_map. apply sort_by_perm.
    + now apply NoDup_names_filter.
  - intros p Hd Hc.
    apply names_In in Hd. destruct Hd as [x Hx].
    apply names_In in Hc. destruct Hc as [y Hy].
    apply spec_debtors_In in Hx. apply spec_creditors_In in Hy.
    simpl in Hx, Hy. destruct Hx as [Hx Hlt]. destruct Hy as [Hy Hgt].
    apply (In_dict_get _ _ _ Hwf) in Hx. apply (In_dict_get _ _ _ Hwf) in Hy.
    assert (x = y) by congruence. subst y. pose proof eps_pos. lra.
Qed.

Lemma spec_lists_length (nb : dict) :
  List.length (spec_debtors nb) + List.length (spec_creditors nb) = enough nb.
Proof.
  unfold enough, spec_debtors, spec_creditors.
  now rewrite !(Permutation_length (sort_by_perm _ _)).
Qed.

(** The loop returns on [enough] fuel, with the plan [settle_debts]. *)
Lemma settle_debts_run (nb : dict) :
  exists rd rc,
    sweep (enough nb) (spec_debtors nb) (spec_creditors nb)
    = Some (settle_debts nb, (rd, rc)).
Proof.
  destruct (sweep_terminates (enough nb) (spec_debtors nb) (spec_creditors nb))
    as [[txs [rd rc]] Hrun].
  { now rewrite spec_lists_length. }
  exists rd, rc. unfold settle_debts.
  rewrite settle_debts_fuel_plan. unfold plan_settlement.
  rewrite Hrun. reflexivity.
Qed.

Lemma settle_debts_enough (nb : dict) (fuel : nat) :
  enough nb <= fuel -> settle_debts_fuel fuel nb = Some (settle_debts nb).
Proof.
  intros Hle. destruct (settle_debts_run nb) as [rd [rc Hrun]].
  rewrite settle_debts_fuel_plan. unfold plan_settlement.
  now rewrite (sweep_more_fuel _ _ _ _ _ Hrun Hle).
Qed.

(** * Replaying a plan *)

Lemma dict_adjust_get (d : dict) (k p : string) (f : Q -> Q) :
  dict_get (dict_adjust d k f) p
  = if String.eqb k p then option_map f (dict_get d p) else dict_get d p.
Proof.
  unfold dict_adjust. destruct (String.eqb_spec k p) as [->|Hne].
  - destruct (dict_get d p) as [x|] eqn:Hx; simpl.
    + apply dict_get_set_same.
    + exact Hx.
  - destruct (dict_get d k) as [x|]; [|reflexivity].
    now apply dict_get_set_other.
Qed.

Lemma replay_get :
  forall (txs : list transaction) (nb : dict) (p : string) (v : Q),
    dict_get nb p = Some v ->
    exists v', dict_get (replay nb txs) p = Some v'
               /\ (v' == v + net_effect txs p)%Q.
Proof.
  unfold replay. induction txs as [|t txs IH]; intros nb p v Hv; simpl.
  - exists v. split; [exact Hv|]. unfold net_effect. simpl. ring.
  - assert (H1 : exists v1,
               dict_get (replay_one nb t) p = Some v1
               /\ (v1 == v + ((if String.eqb (debtor t) p then amount t else 0)
                             - (if String.eqb (creditor t) p then amount t
                                else 0)))%Q).
    { unfold replay_one. rewrite !dict_adjust_get, Hv.
      destruct (String.eqb (debtor t) p), (String.eqb (creditor t) p); simpl;
        eexists; (split; [reflexivity | ring]). }
    destruct H1 as [v1 [Hv1 Heq1]].
    destruct (IH _ _ _ Hv1) as [v' [Hv' Heq]].
    exists v'. split; [exact Hv'|].
    rewrite Heq, Heq1, net_effect_cons. ring.
Qed.

(** * What replaying the plan leaves *)

Lemma dict_adjust_keys (d : dict) (k : string) (f : Q -> Q) :
  keys (dict_adjust d k f) = keys d.
Proof.
  unfold dict_adjust. destruct (dict_get d k) as [x|] eqn:Hx; [|reflexivity].
  eapply keys_set_present; eassumption.
Qed.

Lemma replay_keys (txs : list transaction) :
  forall nb, keys (replay nb txs) = keys nb.
Proof.
  unfold replay. induction txs as [|t txs IH]; intros nb; simpl.
  - reflexivity.
  - rewrite IH. unfold replay_one. now rewrite !dict_adjust_keys.
Qed.

Lemma not_listed (nb : dict) (p : string) (v : Q) :
  dict_wf nb -> dict_get nb p = Some v ->
  (In p (names (spec_debtors nb)) -> (v < - eps)%Q)
  /\ (In p (names (spec_creditors nb)) -> (eps < v)%Q).
Proof.
  intros Hwf Hv. split; intros Hin; apply names_In in Hin;
    destruct Hin as [x Hx].
  - apply spec_debtors_In in Hx. destruct Hx as [Hx Hlt].
    apply (In_dict_get _ _ _ Hwf) in Hx. simpl in Hlt. congruence.
  - apply spec_creditors_In in Hx. destruct Hx as [Hx Hlt].
    apply (In_dict_get _ _ _ Hwf) in Hx. simpl in Hlt. congruence.
Qed.

(** What replaying the plan leaves each person with, by the side the
    person was on. *)
Lemma settle_view (nb : dict) :
  dict_wf nb ->
  exists rd rc,
    sweep (enough nb) (spec_debtors nb) (spec_creditors nb)
    = Some (settle_debts nb, (rd, rc))
    /\ forall p v, dict_get nb p = Some v ->
         exists r,
           dict_get (replay nb (settle_debts nb)) p = Some r
           /\ (r == v + net_effect (settle_debts nb) p)%Q
           /\ (((v < - eps)%Q /\ exists y, In (p, y) rd /\ (r == y)%Q)
               \/ ((eps < v)%Q /\ exists y, In (p, y) rc /\ (r == y)%Q)
               \/ ((- eps <= v)%Q /\ (v <= eps)%Q /\ (r == v)%Q)).
Proof.
  intros Hwf. destruct (settle_debts_run nb) as [rd [rc Hrun]].
  exists rd, rc. split; [exact Hrun|]. intros p v Hv.
  destruct (replay_get (settle_debts nb) nb p v Hv) as [r [Hr Heq]].
  exists r. split; [exact Hr|]. split; [exact Heq|].
  destruct (sweep_left_over _ _ _ _ _ _ Hrun (spec_lists_separate nb Hwf))
    as [Hld Hlc].
  pose proof (dict_get_In _ _ _ Hv) as Hin.
  destruct (Qlt_le_dec v (- eps)) as [Hd|Hd].
  - left. split; [exact Hd|]. destruct (Hld p v) as [y [Hy Hyeq]].
    { apply spec_debtors_In. split; assumption. }
    exists y. split; [exact Hy | now rewrite Heq, Hyeq].
  - destruct (Qlt_le_dec eps v) as [Hc|Hc].
    + right. left. split; [exact Hc|]. destruct (Hlc p v) as [y [Hy Hyeq]].
      { apply spec_creditors_In. split; assumption. }
      exists y. split; [exact Hy | now rewrite Heq, Hyeq].
    + right. right. split; [exact Hd|]. split; [exact Hc|].
      rewrite Heq.
      rewrite (net_effect_absent _ _ _ p
                 (sweep_tx_names _ _ _ _ _ _ Hrun)); [ring|..].
      * intros H. apply (not_listed nb p v Hwf Hv) in H. lra.
      * intros H. apply (not_listed nb p v Hwf Hv) in H. lra.
Qed.

Lemma net_effect_nonneg (txs : list transaction) (p : string) :
  Forall (fun t => (0 < amount t)%Q) txs ->
  (forall t, In t txs -> creditor t <> p) ->
  (0 <= net_effect txs p)%Q.
Proof.
  induction 1 as [|t txs Ht _ IH]; intros Hc.
  - unfold net_effect. simpl. lra.
  - rewrite net_effect_cons.
    assert (0 <= net_effect txs p)%Q by (apply IH; intros; apply Hc; now right).
    destruct (String.eqb_spec (creditor t) p) as [He|_].
    + exfalso. apply (Hc t); [now left | exact He].
    + destruct (String.eqb (debtor t) p); lra.
Qed.

Lemma net_effect_nonpos (txs : list transaction) (p : string) :
  Forall (fun t => (0 < amount t)%Q) txs ->
  (forall t, In t txs -> debtor t <> p) ->
  (net_effect txs p <= 0)%Q.
Proof.
  induction 1 as [|t txs Ht _ IH]; intros Hc.
  - unfold net_effect. simpl. lra.
  - rewrite net_effect_cons.
    assert (net_effect txs p <= 0)%Q by (apply IH; intros; apply Hc; now right).
    destruct (String.eqb_spec (debtor t) p) as [He|_].
    + exfalso. apply (Hc t); [now left | exact He].
    + destruct (String.eqb (creditor t) p); lra.
Qed.

(** * Rounding

    How far the rounding of the operations can move the sum of the
    balances from 0.  Two quantities are followed through the updates of
    the mapping: the sum of the balances, and the sum of their magnitudes,
    which bounds every balance and so the size of every rounding error.
    As long as the magnitudes stay below [bound], an update changes the
    sum by its operand and by at most [slack bound] more. *)

Lemma sum_map_set (f : Q -> Q) (d : dict) (k : string) (x y : Q) :
  dict_get d k = Some x ->
  (Qsum (map f (values (dict_set d k y)))
   == Qsum (map f (values d)) - f x + f y)%Q.
Proof.
  induction d as [|[k' v'] d IH]; simpl; [discriminate|].
  destruct (String.eqb_spec k' k) as [->|Hne]; simpl; intros H.
  - injection H as ->. ring.
  - rewrite (IH H). ring.
Qed.

Lemma magnitude_nonneg (d : dict) : (0 <= magnitude d)%Q.
Proof.
  unfold magnitude. induction d as [|[k v] d IH]; simpl; [lra|].
  pose proof (Qabs_nonneg v). simpl in IH. lra.
Qed.

Lemma magnitude_member (d : dict) (k : string) (x : Q) :
  dict_get d k = Some x -> (Qabs x <= magnitude d)%Q.
Proof.
  unfold magnitude. induction d as [|[k' v'] d IH]; simpl; [discriminate|].
  destruct (String.eqb k' k); intros H.
  - injection H as ->. pose proof (magnitude_nonneg d) as Hd.
    unfold magnitude in Hd. lra.
  - specialize (IH H). pose proof (Qabs_nonneg v'). lra.
Qed.

Lemma Qabs_bounds (x : Q) : (- Qabs x <= x)%Q /\ (x <= Qabs x)%Q.
Proof.
  split; [|apply Qle_Qabs].
  pose proof (Qle_Qabs (- x)) as H. rewrite Qabs_opp in H. lra.
Qed.

Lemma tiny_pos : (0 < tiny)%Q.
Proof. reflexivity. Qed.

Lemma slack_nonneg (bound : Q) : (0 <= bound)%Q -> (0 <= slack bound)%Q.
Proof.
  intros H. unfold slack, unit_roundoff. pose proof tiny_pos. lra.
Qed.

Section Rounding.

Variable fl : Q -> Q.
Hypothesis fl_rounds : rounds fl.
Variable bound : Q.
Hypothesis bound_le_huge : (bound <= huge)%Q.
Hypothesis bound_nonneg : (0 <= bound)%Q.

Lemma round_error (x : Q) :
  (Qabs x <= bound)%Q ->
  (- slack bound <= fl x - x)%Q /\ (fl x - x <= slack bound)%Q.
Proof.
  intros Hx. apply Qabs_Qle_condition.
  eapply Qle_trans; [apply fl_rounds; lra|].
  unfold slack, unit_roundoff. pose proof tiny_pos. lra.
Qed.

(** One update [d[k] = fl (d[k] + v)]. *)
Lemma update_bound (d : dict) (k : string) (x v : Q) :
  dict_get d k = Some x ->
  (magnitude d + Qabs v <= bound)%Q ->
  let d' := dict_set d k (fl (x + v)%Q) in
  (Qabs (Qsum (values d') - (Qsum (values d) + v)) <= slack bound)%Q
  /\ (magnitude d' <= magnitude d + Qabs v + slack bound)%Q.
Proof.
  intros Hx Hroom d'.
  pose proof (magnitude_member _ _ _ Hx) as Hmem.
  pose proof (Qabs_bounds x) as [Hx1 Hx2].
  pose proof (Qabs_bounds v) as [Hv1 Hv2].
  assert (Hsum : (Qabs (x + v) <= bound)%Q).
  { apply Qabs_Qle_condition. split; lra. }
  destruct (round_error _ Hsum) as [He1 He2].
  split.
  - unfold d'. rewrite (total_set _ _ _ _ Hx).
    apply Qabs_Qle_condition. split; lra.
  - unfold d', magnitude. rewrite (sum_map_set Qabs _ _ _ _ Hx).
    fold (magnitude d).
    assert (Hfl : (Qabs (fl (x + v)) <= Qabs x + Qabs v + slack bound)%Q).
    { apply Qabs_Qle_condition. split; lra. }
    lra.
Qed.

Lemma iadd_bound (d d' : dict) (k : string) (v : Q) :
  Rounded.dict_iadd fl d k v = Ok d' ->
  (magnitude d + Qabs v <= bound)%Q ->
  (Qabs (Qsum (values d') - (Qsum (values d) + v)) <= slack bound)%Q
  /\ (magnitude d' <= magnitude d + Qabs v + slack bound)%Q.
Proof.
  unfold Rounded.dict_iadd. destruct (dict_get d k) as [x|] eqn:Hx;
    [|discriminate].
  intros H Hroom. injection H as <-. now apply update_bound.
Qed.

Lemma isub_bound (d d' : dict) (k : string) (v : Q) :
  Rounded.dict_isub fl d k v = Ok d' ->
  (magnitude d + Qabs v <= bound)%Q ->
  (Qabs (Qsum (values d') - (Qsum (values d) - v)) <= slack bound)%Q
  /\ (magnitude d' <= magnitude d + Qabs v + slack bound)%Q.
Proof.
  unfold Rounded.dict_isub. destruct (dict_get d k) as [x|] eqn:Hx;
    [|discriminate].
  intros H Hroom. injection H as <-.
  change (x - v)%Q with (x + - v)%Q.
  destruct (update_bound d k x (- v)%Q Hx) as [H1 H2].
  { now rewrite Qabs_opp. }
  rewrite Qabs_opp in H2. split; [|exact H2].
  apply Qabs_Qle_condition in H1. apply Qabs_Qle_condition. split; lra.
Qed.

Lemma charge_bound (share : Q) :
  forall (participant_list : list string) (d d' : dict),
    Rounded.charge_shares fl share participant_list d = Ok d' ->
    (magnitude d
     + Qlen participant_list * (Qabs share + slack bound) <= bound)%Q ->
    (Qabs (Qsum (values d')
           - (Qsum (values d) - Qlen participant_list * share))
     <= Qlen participant_list * slack bound)%Q
    /\ (magnitude d'
        <= magnitude d
           + Qlen participant_list * (Qabs share + slack bound))%Q.
Proof.
  unfold Rounded.charge_shares.
  pose proof bound_nonneg as Hb.
  induction participant_list as [|p l IH]; intros d d' Hrun Hroom.
  - simpl in Hrun. injection Hrun as <-.
    change (Qlen (@nil string)) with 0%Q. split.
    + apply Qabs_Qle_condition. split; lra.
    + lra.
  - simpl in Hrun.
    destruct (Rounded.dict_isub fl d p share) as [d1|] eqn:H1;
      [|discriminate].
    simpl in Hrun. rewrite Qlen_cons in *.
    pose proof (Qlen_nonneg l) as Hn.
    pose proof (Qabs_nonneg share) as Hs.
    pose proof (slack_nonneg bound Hb) as Hk.
    assert (Hprod : (0 <= Qlen l * (Qabs share + slack bound))%Q)
      by (apply Qmult_le_0_compat; lra).
    destruct (isub_bound _ _ _ _ H1) as [Hs1 Hm1]; [lra|].
    destruct (IH _ _ Hrun) as [Hs2 Hm2]; [lra|].
    apply Qabs_Qle_condition in Hs1, Hs2. split.
    + apply Qabs_Qle_condition. split; lra.
    + lra.
Qed.

(** The rounded share: [n] shares miss the amount by the rounding of one
    division, [n] times. *)
Lemma share_bound (amount : Q) (x : string) (l : list string) :
  (Qabs amount <= bound)%Q ->
  let n := Qlen (x :: l) in
  let share := Rounded.share_of fl amount (x :: l) in
  (Qabs (amount - n * share) <= unit_roundoff * Qabs amount + n * tiny)%Q
  /\ (n * Qabs share <= 2 * Qabs amount + n * tiny)%Q.
Proof.
  intros Ha n share.
  assert (Hn : (1 <= n)%Q).
  { unfold n. rewrite Qlen_cons. pose proof (Qlen_nonneg l). lra. }
  set (q := (amount / n)%Q).
  assert (Hq : (n * q == amount)%Q).
  { unfold q. apply Qmult_div_r. lra. }
  assert (Habs : (n * Qabs q == Qabs amount)%Q).
  { rewrite <- Hq. rewrite Qabs_Qmult.
    rewrite (Qabs_pos n) by lra. reflexivity. }
  pose proof (Qabs_nonneg q) as Hq0.
  assert (Hqa : (Qabs q <= Qabs amount)%Q).
  { assert (0 <= (n - 1) * Qabs q)%Q by (apply Qmult_le_0_compat; lra).
    lra. }
  assert (Herr : (Qabs (share - q)
                  <= unit_roundoff * Qabs q + tiny)%Q).
  { apply fl_rounds. lra. }
  apply Qabs_Qle_condition in Herr. destruct Herr as [He1 He2].
  assert (H1 : (n * (q - (unit_roundoff * Qabs q + tiny)) <= n * share)%Q)
    by (apply Qmult_le_l; lra).
  assert (H2 : (n * share <= n * (q + (unit_roundoff * Qabs q + tiny)))%Q)
    by (apply Qmult_le_l; lra).
  pose proof (Qabs_bounds q) as [Hb1 Hb2].
  assert (Hs : (Qabs share <= Qabs q + (unit_roundoff * Qabs q + tiny))%Q).
  { apply Qabs_Qle_condition. split; lra. }
  assert (H3 : (n * Qabs share
                <= n * (Qabs q + (unit_roundoff * Qabs q + tiny)))%Q)
    by (apply Qmult_le_l; lra).
  pose proof (Qabs_nonneg amount) as Ha0.
  unfold unit_roundoff in *. split.
  - apply Qabs_Qle_condition. split; lra.
  - lra.
Qed.

(** One expense record with a participant: the amount is added once and
    the share subtracted [n] times. *)
Lemma expense_bound (d d' : dict) (row : expense_row) :
  Rounded.apply_expense fl d row = Ok d' ->
  parse_participants (eParticipants row) <> [] ->
  (magnitude d + growth_of_expense bound row <= bound)%Q ->
  (Qabs (Qsum (values d') - Qsum (values d))
   <= drift_of_expense bound row)%Q
  /\ (magnitude d' <= magnitude d + growth_of_expense bound row)%Q.
Proof.
  unfold Rounded.apply_expense, growth_of_expense, drift_of_expense.
  generalize (amount_or_zero (eAmount row)) (strip (ePayer row))
    (parse_participants (eParticipants row)).
  intros a payer plist Hrun Hne Hroom.
  destruct plist as [|x l]; [congruence|].
  destruct (Rounded.dict_iadd fl d payer a) as [d1|] eqn:H1;
    [|discriminate].
  simpl in Hrun.
  set (n := Qlen (x :: l)) in *.
  set (share := Rounded.share_of fl a (x :: l)) in *.
  assert (Hn : (1 <= n)%Q).
  { unfold n. rewrite Qlen_cons. pose proof (Qlen_nonneg l). lra. }
  pose proof (magnitude_nonneg d) as Hd0.
  pose proof (Qabs_nonneg a) as Ha0.
  pose proof tiny_pos as Ht.
  pose proof bound_nonneg as Hb.
  pose proof (slack_nonneg bound Hb) as Hk.
  assert (Hnk : (0 <= n * slack bound)%Q) by (apply Qmult_le_0_compat; lra).
  assert (Hnt : (0 <= n * tiny)%Q) by (apply Qmult_le_0_compat; lra).
  destruct (share_bound a x l) as [Hsh1 Hsh2]; [lra|].
  fold n in Hsh1, Hsh2. fold share in Hsh1, Hsh2.
  destruct (iadd_bound _ _ _ _ H1) as [Hs1 Hm1]; [lra|].
  destruct (charge_bound share (x :: l) d1 d' Hrun) as [Hs2 Hm2];
    [fold n | fold n in Hs2, Hm2].
  { unfold unit_roundoff in *. lra. }
  apply Qabs_Qle_condition in Hs1, Hs2, Hsh1.
  unfold unit_roundoff in *. split.
  - apply Qabs_Qle_condition. split; lra.
  - lra.
Qed.

Lemma growth_of_expense_nonneg (row : expense_row) :
  (0 <= growth_of_expense bound row)%Q.
Proof.
  unfold growth_of_expense.
  pose proof (Qabs_nonneg (amount_or_zero (eAmount row))).
  pose proof (Qlen_nonneg (parse_participants (eParticipants row))).
  pose proof (slack_nonneg bound bound_nonneg). pose proof tiny_pos.
  assert (0 <= (1 + Qlen (parse_participants (eParticipants row)))
               * (slack bound + tiny))%Q
    by (apply Qmult_le_0_compat; lra).
  lra.
Qed.

Lemma growth_of_payment_nonneg (row : payment_row) :
  (0 <= growth_of_payment bound row)%Q.
Proof.
  unfold growth_of_payment.
  pose proof (Qabs_nonneg (amount_or_zero (pAmount row))).
  pose proof (slack_nonneg bound bound_nonneg). lra.
Qed.

Lemma Qsum_nonneg {A} (f : A -> Q) (l : list A) :
  (forall x, 0 <= f x)%Q -> (0 <= Qsum (map f l))%Q.
Proof.
  intros H. induction l as [|x l IH]; simpl; [lra|].
  specialize (H x). lra.
Qed.

Lemma expenses_bound :
  forall (rows : list expense_row) (d d' : dict),
    for_each (Rounded.apply_expense fl) rows d = Ok d' ->
    (forall row, In row rows ->
       parse_participants (eParticipants row) <> []) ->
    (magnitude d + Qsum (map (growth_of_expense bound) rows) <= bound)%Q ->
    (Qabs (Qsum (values d') - Qsum (values d))
     <= Qsum (map (drift_of_expense bound) rows))%Q
    /\ (magnitude d'
        <= magnitude d + Qsum (map (growth_of_expense bound) rows))%Q.
Proof.
  induction rows as [|row rows IH]; intros d d' Hrun Hne Hroom.
  - simpl in Hrun. injection Hrun as <-. simpl map. simpl Qsum.
    split; [|lra]. apply Qabs_Qle_condition. split; lra.
  - simpl in Hrun.
    destruct (Rounded.apply_expense fl d row) as [d1|] eqn:H1;
      [|discriminate].
    simpl in Hrun. simpl map in *. simpl Qsum in *.
    pose proof (Qsum_nonneg (growth_of_expense bound) rows
                  growth_of_expense_nonneg) as Hrest.
    destruct (expense_bound _ _ _ H1) as [Hs1 Hm1];
      [apply Hne; now left | lra |].
    destruct (IH _ _ Hrun) as [Hs2 Hm2];
      [intros r Hr; apply Hne; now right | lra |].
    apply Qabs_Qle_condition in Hs1, Hs2. split; [|lra].
    apply Qabs_Qle_condition. split; lra.
Qed.

(** One payment record that names both sides, or neither. *)
Lemma payment_bound (d d' : dict) (row : payment_row) :
  Rounded.apply_payment fl d row = Ok d' ->
  truthy (strip (pPayer row)) = truthy (strip (pPayee row)) ->
  (magnitude d + growth_of_payment bound row <= bound)%Q ->
  (Qabs (Qsum (values d') - Qsum (values d)) <= 2 * slack bound)%Q
  /\ (magnitude d' <= magnitude d + growth_of_payment bound row)%Q.
Proof.
  unfold Rounded.apply_payment, growth_of_payment.
  generalize (amount_or_zero (pAmount row)) (strip (pPayer row))
    (strip (pPayee row)).
  intros a payer payee Hrun Hboth Hroom.
  pose proof (Qabs_nonneg a) as Ha.
  pose proof (slack_nonneg bound bound_nonneg) as Hk.
  rewrite Hboth in Hrun. destruct (truthy payee).
  - destruct (Rounded.dict_iadd fl d payer a) as [d1|] eqn:H1;
      [|discriminate].
    simpl in Hrun.
    destruct (iadd_bound _ _ _ _ H1) as [Hs1 Hm1]; [lra|].
    destruct (isub_bound _ _ _ _ Hrun) as [Hs2 Hm2]; [lra|].
    apply Qabs_Qle_condition in Hs1, Hs2. split; [|lra].
    apply Qabs_Qle_condition. split; lra.
  - simpl in Hrun. injection Hrun as <-. split; [|lra].
    apply Qabs_Qle_condition. split; lra.
Qed.

Lemma payments_bound :
  forall (rows : list payment_row) (d d' : dict),
    for_each (Rounded.apply_payment fl) rows d = Ok d' ->
    (forall row, In row rows ->
       truthy (strip (pPayer row)) = truthy (strip (pPayee row))) ->
    (magnitude d + Qsum (map (growth_of_payment bound) rows) <= bound)%Q ->
    (Qabs (Qsum (values d') - Qsum (values d))
     <= 2 * Qlen rows * slack bound)%Q
    /\ (magnitude d'
        <= magnitude d + Qsum (map (growth_of_payment bound) rows))%Q.
Proof.
  induction rows as [|row rows IH]; intros d d' Hrun Hboth Hroom.
  - simpl in Hrun. injection Hrun as <-. simpl map. simpl Qsum.
    change (Qlen (@nil payment_row)) with 0%Q. split; [|lra].
    apply Qabs_Qle_condition. split; lra.
  - simpl in Hrun.
    destruct (Rounded.apply_payment fl d row) as [d1|] eqn:H1;
      [|discriminate].
    simpl in Hrun. simpl map in *. simpl Qsum in *. rewrite Qlen_cons.
    pose proof (Qsum_nonneg (growth_of_payment bound) rows
                  growth_of_payment_nonneg) as Hrest.
    destruct (payment_bound _ _ _ H1) as [Hs1 Hm1];
      [apply Hboth; now left | lra |].
    destruct (IH _ _ Hrun) as [Hs2 Hm2];
      [intros r Hr; apply Hboth; now right | lra |].
    apply Qabs_Qle_condition in Hs1, Hs2. split; [|lra].
    apply Qabs_Qle_condition. split; lra.
Qed.

End Rounding.

Lemma zero_balances_zero (ps : list string) :
  Forall (fun x => snd x = 0%Q) (zero_balances ps).
Proof.
  assert (Hset : forall (d : dict) k,
             Forall (fun x => snd x = 0%Q) d ->
             Forall (fun x => snd x = 0%Q) (dict_set d k 0%Q)).
  { induction d as [|[k' v'] d IH]; simpl; intros k Hd.
    - repeat constructor.
    - inversion Hd; subst.
      destruct (String.eqb k' k); constructor; auto. }
  assert (Hfold : forall ps acc,
             Forall (fun x => snd x = 0%Q) acc ->
             Forall (fun x => snd x = 0%Q)
               (fold_left (fun nb person => dict_set nb person 0%Q) ps acc)).
  { induction ps0 as [|x ps0 IH]; intros acc Hacc; simpl; auto. }
  apply Hfold. constructor.
Qed.

Lemma zero_balances_magnitude (ps : list string) :
  (magnitude (zero_balances ps) == 0)%Q.
Proof.
  unfold magnitude.
  induction (zero_balances_zero ps) as [|[k v] d Hv _ IH]; simpl in *.
  - reflexivity.
  - rewrite IH, Hv. reflexivity.
Qed.

Lemma growth_total (bound : Q) (expenses : list expense_row)
  (payments : list payment_row) :
  (Qsum (map (growth_of_expense bound) expenses)
   + Qsum (map (growth_of_payment bound) payments)
   <= 3 * turnover expenses payments
      + updates expenses payments * (slack bound + tiny))%Q.
Proof.
  unfold turnover, updates.
  assert (He : (Qsum (map (growth_of_expense bound) expenses)
                == 3 * Qsum (map (fun row =>
                                    Qabs (amount_or_zero (eAmount row)))
                               expenses)
                   + Qsum (map (fun row =>
                                  1 + Qlen (parse_participants
                                              (eParticipants row)))
                             expenses)
                     * (slack bound + tiny))%Q).
  { induction expenses as [|row rows IH]; simpl; [ring|].
    rewrite IH. unfold growth_of_expense. ring. }
  assert (Hp : (Qsum (map (growth_of_payment bound) payments)
                == 2 * Qsum (map (fun row =>
                                    Qabs (amount_or_zero (pAmount row)))
                               payments)
                   + 2 * Qlen payments * slack bound)%Q).
  { induction payments as [|row rows IH]; simpl.
    - change (Qlen (@nil payment_row)) with 0%Q. ring.
    - rewrite IH, Qlen_cons. unfold growth_of_payment. ring. }
  rewrite He, Hp.
  pose proof (Qsum_nonneg (fun row => Qabs (amount_or_zero (pAmount row)))
                payments (fun row => Qabs_nonneg _)) as Hap.
  pose proof (Qlen_nonneg payments) as Hn. pose proof tiny_pos as Ht.
  assert (0 <= Qlen payments * tiny)%Q by (apply Qmult_le_0_compat; lra).
  lra.
Qed.

Lemma drift_total (bound : Q) (expenses : list expense_row)
  (payments : list payment_row) :
  (0 <= bound)%Q ->
  (Qsum (map (drift_of_expense bound) expenses)
   + 2 * Qlen payments * slack bound
   <= unit_roundoff * turnover expenses payments
      + updates expenses payments * (slack bound + tiny))%Q.
Proof.
  intros Hb. unfold turnover, updates.
  assert (He : (Qsum (map (drift_of_expense bound) expenses)
                == unit_roundoff
                   * Qsum (map (fun row =>
                                  Qabs (amount_or_zero (eAmount row)))
                             expenses)
                   + Qsum (map (fun row =>
                                  1 + Qlen (parse_participants
                                              (eParticipants row)))
                             expenses)
                     * (slack bound + tiny))%Q).
  { induction expenses as [|row rows IH]; simpl; [ring|].
    rewrite IH. unfold drift_of_expense. ring. }
  rewrite He.
  pose proof (Qsum_nonneg (fun row => Qabs (amount_or_zero (pAmount row)))
                payments (fun row => Qabs_nonneg _)) as Hap.
  pose proof (Qlen_nonneg payments) as Hn. pose proof tiny_pos as Ht.
  assert (0 <= Qlen payments * tiny)%Q by (apply Qmult_le_0_compat; lra).
  unfold unit_roundoff. lra.
Qed.

Lemma turnover_nonneg (expenses : list expense_row)
  (payments : list payment_row) : (0 <= turnover expenses payments)%Q.
Proof.
  unfold turnover.
  pose proof (Qsum_nonneg (fun row => Qabs (amount_or_zero (eAmount row)))
                expenses (fun row => Qabs_nonneg _)).
  pose proof (Qsum_nonneg (fun row => Qabs (amount_or_zero (pAmount row)))
                payments (fun row => Qabs_nonneg _)).
  lra.
Qed.

Lemma updates_nonneg (expenses : list expense_row)
  (payments : list payment_row) : (0 <= updates expenses payments)%Q.
Proof.
  unfold updates.
  pose proof (Qsum_nonneg
                (fun row => 1 + Qlen (parse_participants (eParticipants row)))%Q
                expenses) as He.
  pose proof (Qlen_nonneg payments).
  assert (0 <= Qsum (map (fun row =>
                            1 + Qlen (parse_participants (eParticipants row)))%Q
                       expenses))%Q.
  { apply He. intros row.
    pose proof (Qlen_nonneg (parse_participants (eParticipants row))). lra. }
  lra.
Qed.

Lemma turnover_within_updates (expenses : list expense_row)
  (payments : list payment_row) :
  (turnover expenses payments
   <= updates expenses payments * turnover expenses payments)%Q.
Proof.
  pose proof (turnover_nonneg expenses payments) as Ht.
  destruct expenses as [|row rows]; [destruct payments as [|row rows]|].
  - unfold turnover, updates. simpl.
    change (Qlen (@nil payment_row)) with 0%Q. lra.
  - assert (Hu : (1 <= updates [] (row :: rows))%Q).
    { unfold updates. simpl Qsum. rewrite Qlen_cons.
      pose proof (Qlen_nonneg rows). lra. }
    assert (0 <= (updates [] (row :: rows) - 1)
                 * turnover [] (row :: rows))%Q
      by (apply Qmult_le_0_compat; lra).
    lra.
  - assert (Hu : (1 <= updates (row :: rows) payments)%Q).
    { pose proof (updates_nonneg rows payments) as H.
      unfold updates in *. simpl map. simpl Qsum.
      pose proof (Qlen_nonneg (parse_participants (eParticipants row))).
      lra. }
    assert (0 <= (updates (row :: rows) payments - 1)
                 * turnover (row :: rows) payments)%Q
      by (apply Qmult_le_0_compat; lra).
    lra.
Qed.

(** Rounding to the grid is within the accuracy asked of [fl]. *)
Lemma to_grid_rounds : rounds to_grid.
Proof.
  intros x _. unfold to_grid.
  set (y := (x * grid + (1 # 2))%Q).
  pose proof (Qfloor_le y) as H1. pose proof (Qlt_floor y) as H2.
  rewrite inject_Z_plus in H2. change (inject_Z 1) with 1%Q in H2.
  set (z := inject_Z (Qfloor y)) in *.
  assert (Hg : (0 < grid)%Q) by reflexivity.
  assert (Hgt : (tiny * grid == 1 # 2)%Q) by reflexivity.
  pose proof (Qabs_nonneg x) as Hx.
  apply Qle_trans with tiny; [|unfold unit_roundoff; lra].
  assert (Heq : (z / grid - x == (z - x * grid) / grid)%Q)
    by (field; lra).
  rewrite Heq. unfold y in H1, H2.
  apply Qabs_Qle_condition. split.
  - apply Qle_shift_div_l; [exact Hg|]. lra.
  - apply Qle_shift_div_r; [exact Hg|]. lra.
Qed.

(** * The ledger of one person *)

Lemma amount_or_zero_of (c : amount_cell) : amount_or_zero c = amount_of c.
Proof. destruct c; reflexivity. Qed.

Lemma set_get (d : dict) (k p : string) (x y : Q) :
  dict_get d k = Some x ->
  dict_get (dict_set d k y) p
  = if String.eqb k p then Some y else dict_get d p.
Proof.
  intros _. destruct (String.eqb_spec k p) as [->|Hne].
  - apply dict_get_set_same.
  - now apply dict_get_set_other.
Qed.

Section Ledger.

Variable fl : Q -> Q.

Lemma rounded_iadd_get (d d' : dict) (k : string) (a : Q) :
  Rounded.dict_iadd fl d k a = Ok d' ->
  keys d' = keys d
  /\ forall p v, dict_get d p = Some v ->
       dict_get d' p
       = Some (if String.eqb k p then fl (v + a)%Q else v).
Proof.
  unfold Rounded.dict_iadd. destruct (dict_get d k) as [x|] eqn:Hx;
    [|discriminate].
  intros H. injection H as <-. split.
  - eapply keys_set_present; eassumption.
  - intros p v Hv. rewrite (set_get _ _ _ _ _ Hx).
    destruct (String.eqb_spec k p) as [->|Hne]; [|exact Hv].
    congruence.
Qed.

Lemma rounded_isub_get (d d' : dict) (k : string) (a : Q) :
  Rounded.dict_isub fl d k a = Ok d' ->
  keys d' = keys d
  /\ forall p v, dict_get d p = Some v ->
       dict_get d' p
       = Some (if String.eqb k p then fl (v - a)%Q else v).
Proof.
  unfold Rounded.dict_isub. destruct (dict_get d k) as [x|] eqn:Hx;
    [|discriminate].
  intros H. injection H as <-. split.
  - eapply keys_set_present; eassumption.
  - intros p v Hv. rewrite (set_get _ _ _ _ _ Hx).
    destruct (String.eqb_spec k p) as [->|Hne]; [|exact Hv].
    congruence.
Qed.

Lemma rounded_charge_get (share : Q) :
  forall (participant_list : list string) (d d' : dict),
    Rounded.charge_shares fl share participant_list d = Ok d' ->
    keys d' = keys d
    /\ forall p v, dict_get d p = Some v ->
         dict_get d' p
         = Some (fold_left
                   (fun b q => if String.eqb q p then fl (b - share)%Q else b)
                   participant_list v).
Proof.
  unfold Rounded.charge_shares.
  induction participant_list as [|q l IH]; intros d d' Hrun; simpl in Hrun.
  - injection Hrun as <-. split; [reflexivity|]. intros p v Hv. exact Hv.
  - destruct (Rounded.dict_isub fl d q share) as [d1|] eqn:H1;
      [|discriminate].
    simpl in Hrun. destruct (rounded_isub_get _ _ _ _ H1) as [Hk1 Hg1].
    destruct (IH _ _ Hrun) as [Hk2 Hg2]. split; [congruence|].
    intros p v Hv. simpl. apply Hg2, Hg1, Hv.
Qed.

Lemma rounded_expense_get (d d' : dict) (row : expense_row) :
  Rounded.apply_expense fl d row = Ok d' ->
  keys d' = keys d
  /\ forall p v, dict_get d p = Some v ->
       dict_get d' p = Some (expense_step fl p v row).
Proof.
  unfold Rounded.apply_expense, expense_step.
  rewrite amount_or_zero_of.
  destruct (Rounded.dict_iadd fl d (strip (ePayer row))
              (amount_of (eAmount row))) as [d1|] eqn:H1; [|discriminate].
  simpl. intros Hrun.
  destruct (rounded_iadd_get _ _ _ _ H1) as [Hk1 Hg1].
  destruct (rounded_charge_get _ _ _ _ Hrun) as [Hk2 Hg2].
  split; [congruence|]. intros p v Hv.
  rewrite (Hg2 p _ (Hg1 p v Hv)). reflexivity.
Qed.

Lemma rounded_expenses_get :
  forall (rows : list expense_row) (d d' : dict),
    for_each (Rounded.apply_expense fl) rows d = Ok d' ->
    keys d' = keys d
    /\ forall p v, dict_get d p = Some v ->
         dict_get d' p = Some (fold_left (expense_step fl p) rows v).
Proof.
  induction rows as [|row rows IH]; intros d d' Hrun; simpl in Hrun.
  - injection Hrun as <-. split; [reflexivity|]. intros p v Hv. exact Hv.
  - destruct (Rounded.apply_expense fl d row) as [d1|] eqn:H1;
      [|discriminate].
    simpl in Hrun. destruct (rounded_expense_get _ _ _ H1) as [Hk1 Hg1].
    destruct (IH _ _ Hrun) as [Hk2 Hg2]. split; [congruence|].
    intros p v Hv. simpl. apply Hg2, Hg1, Hv.
Qed.

Lemma rounded_payment_get (d d' : dict) (row : payment_row) :
  Rounded.apply_payment fl d row = Ok d' ->
  keys d' = keys d
  /\ forall p v, dict_get d p = Some v ->
       dict_get d' p = Some (payment_step fl p v row).
Proof.
  unfold Rounded.apply_payment, payment_step.
  rewrite amount_or_zero_of.
  generalize (amount_of (pAmount row)) (strip (pPayer row))
    (strip (pPayee row)).
  intros a payer payee.
  destruct (truthy payer); simpl.
  - destruct (Rounded.dict_iadd fl d payer a) as [d1|] eqn:H1;
      [|discriminate].
    simpl. destruct (rounded_iadd_get _ _ _ _ H1) as [Hk1 Hg1].
    destruct (truthy payee); simpl.
    + intros Hrun. destruct (rounded_isub_get _ _ _ _ Hrun) as [Hk2 Hg2].
      split; [congruence|]. intros p v Hv.
      rewrite (Hg2 p _ (Hg1 p v Hv)). reflexivity.
    + intros Hrun. injection Hrun as <-. split; [exact Hk1|].
      intros p v Hv. apply Hg1, Hv.
  - destruct (truthy payee); simpl.
    + intros Hrun. destruct (rounded_isub_get _ _ _ _ Hrun) as [Hk2 Hg2].
      split; [exact Hk2|]. intros p v Hv. apply Hg2, Hv.
    + intros Hrun. injection Hrun as <-. split; [reflexivity|].
      intros p v Hv. exact Hv.
Qed.

Lemma rounded_payments_get :
  forall (rows : list payment_row) (d d' : dict),
    Rounded.adjust_for_payments fl d rows = Ok d' ->
    keys d' = keys d
    /\ forall p v, dict_get d p = Some v ->
         dict_get d' p = Some (fold_left (payment_step fl p) rows v).
Proof.
  unfold Rounded.adjust_for_payments.
  induction rows as [|row rows IH]; intros d d' Hrun; simpl in Hrun.
  - injection Hrun as <-. split; [reflexivity|]. intros p v Hv. exact Hv.
  - destruct (Rounded.apply_payment fl d row) as [d1|] eqn:H1;
      [|discriminate].
    simpl in Hrun. destruct (rounded_payment_get _ _ _ H1) as [Hk1 Hg1].
    destruct (IH _ _ Hrun) as [Hk2 Hg2]. split; [congruence|].
    intros p v Hv. simpl. apply Hg2, Hg1, Hv.
Qed.

End Ledger.

(** Without rounding, [Rounded] is the rational model. *)
Lemma unrounded (expenses : list expense_row) (payments : list payment_row) :
  Rounded.compute_balances (fun x => x) expenses payments
  = compute_balances expenses payments.
Proof. reflexivity. Qed.

(** * Binary64: a loop that never ends *)

(** Once both remaining amounts are NaN the frame stays as it is, but for
    one more transaction per turn. *)
Lemma stuck_forever :
  forall (fuel : nat) (txs : list Binary64.transaction),
    Binary64.while_loop fuel (Binary64.stuck txs) = None.
Proof.
  induction fuel as [|fuel IH]; intros txs; [reflexivity|].
  change (Binary64.while_loop (S fuel) (Binary64.stuck txs))
    with (Binary64.while_loop fuel (Binary64.loop_body (Binary64.stuck txs))).
  change (Binary64.loop_body (Binary64.stuck txs))
    with (Binary64.stuck
            (txs ++ [Binary64.mkTx "Bob" "Alice" PrimFloat.nan])).
  apply IH.
Qed.

(** * The functions on binary64 numbers, run *)

(** On the first scenario binary64 arithmetic is exact, and the balances
    and the plan are those of the rational model. *)
Example binary64_scenario_1 :
  Binary64.compute_balances Binary64.dinner [] = Ok Binary64.after_dinner
  /\ Binary64.settle_debts_fuel 3 Binary64.after_dinner
     = Some Binary64.dinner_plan.
Proof. split; vm_compute; reflexivity. Qed.

(** With 1e11 shared by seven the share is rounded, and the balances that
    the code computes sum to 3 / 2^18, more than 1e-5. *)
Example binary64_rounding :
  Binary64.compute_balances Binary64.a_fortune_by_seven []
  = Ok Binary64.a_seventh_each
  /\ (Binary64.exact_sum Binary64.a_seventh_each == 3 # 262144)%Q.
Proof. split; [vm_compute; reflexivity | vm_compute; reflexivity]. Qed.

(** The order of the rows shows in the last digit of a balance. *)
Example binary64_order :
  Binary64.compute_balances Binary64.small_first []
  = Ok [("Alice", Binary64.sixty_cents_and_a_bit);
        ("Bob", PrimFloat.opp Binary64.sixty_cents_and_a_bit)]
  /\ Binary64.compute_balances Binary64.small_last []
     = Ok [("Alice", Binary64.sixty_cents);
           ("Bob", PrimFloat.opp Binary64.sixty_cents)].
Proof. split; vm_compute; reflexivity. Qed.

(** * The scenarios of the specification *)

Example scenario_1_balances :
  exists nb, compute_balances dinner [] = Ok nb /\ reduced nb = after_dinner.
Proof. eexists. split; reflexivity. Qed.

Example scenario_1_plan :
  settle_debts after_dinner
  = [mkTx "Bob" "Alice" 30; mkTx "Carol" "Alice" 30].
Proof. reflexivity. Qed.

Example scenario_2 :
  exists nb,
    compute_balances dinner bob_pays_back = Ok nb
    /\ reduced nb = [("Alice", 30%Q); ("Bob", 0%Q); ("Carol", (-30)%Q)]
    /\ reduced_plan (settle_debts nb) = [mkTx "Carol" "Alice" 30].
Proof. eexists. repeat split; reflexivity. Qed.

Example scenario_3 :
  exists nb,
    compute_expense_balances custom_split = Ok nb
    /\ reduced nb = [("Alice", 50%Q); ("Bob", (-50)%Q)].
Proof. eexists. split; reflexivity. Qed.

Example scenario_4 :
  settle_debts three_owe_two
  = [mkTx "Cy" "Ann" 30; mkTx "Dee" "Ann" 20; mkTx "Dee" "Ben" 10;
     mkTx "Eve" "Ben" 30].
Proof. reflexivity. Qed.

(** * The claims *)

(** ** Zero sum *)

(** C1, as stated, fails: an expense row without participants credits its
    payer and charges nobody, so the balances sum to the amount, here 90. *)
Lemma zero_sum_fails_without_participants :
  exists nb,
    compute_balances no_participants [] = Ok nb
    /\ ~ (Qabs (Qsum (values nb)) <= 1 # 1000000)%Q.
Proof.
  eexists. split; [reflexivity|]. vm_compute. intros H. now apply H.
Qed.

(** C1, amended: when the two functions return a mapping, every expense
    row lists at least one participant and every payment row names both a
    payer and a payee or neither, the balances sum to 0 up to the rounding
    of the operations.  With [n] the number of additions and subtractions
    the records cause (at most 2^52) and [a] the total of the absolute
    amounts (at most 2^1020), the sum is at most
    [(6n + 1) * 2^-53 * a + 4n * 2^-1075] away from 0, whatever rounding
    within the accuracy of binary64 the operations use; that is within
    [1e-6] as long as [n * a] is at most 10^9. *)
Theorem zero_sum_up_to_rounding (fl : Q -> Q)
  (expenses : list expense_row) (payments : list payment_row) (nb : dict) :
  rounds fl ->
  (forall row, In row expenses ->
     parse_participants (eParticipants row) <> []) ->
  (forall row, In row payments ->
     truthy (strip (pPayer row)) = truthy (strip (pPayee row))) ->
  (updates expenses payments <= 4503599627370496)%Q ->
  (8 * turnover expenses payments <= huge)%Q ->
  Rounded.compute_balances fl expenses payments = Ok nb ->
  (Qabs (Qsum (values nb))
   <= (6 * updates expenses payments + 1) * unit_roundoff
        * turnover expenses payments
      + 4 * updates expenses payments * tiny)%Q
  /\ ((updates expenses payments * turnover expenses payments
       <= 1000000000)%Q ->
      (Qabs (Qsum (values nb)) <= 1 # 1000000)%Q).
Proof.
  intros Hfl Hexp Hpay Hn Ha Hrun.
  set (N := updates expenses payments) in *.
  set (A := turnover expenses payments) in *.
  pose proof (updates_nonneg expenses payments) as HN0. fold N in HN0.
  pose proof (turnover_nonneg expenses payments) as HA0. fold A in HA0.
  pose proof tiny_pos as Ht.
  set (M := (6 * A + 4 * N * tiny)%Q).
  assert (HNt : (0 <= N * tiny)%Q) by (apply Qmult_le_0_compat; lra).
  assert (HNt' : (N * tiny <= 4503599627370496 * tiny)%Q)
    by (apply Qmult_le_compat_r; lra).
  assert (HM0 : (0 <= M)%Q) by (unfold M; lra).
  assert (HMh : (M <= huge)%Q).
  { unfold M.
    assert (Hh : (8 * (4 * (4503599627370496 * tiny)) <= huge)%Q)
      by (vm_compute; discriminate).
    assert (Hpos : (0 < huge)%Q) by reflexivity.
    lra. }
  assert (HNM : (N * M <= 4503599627370496 * M)%Q)
    by (apply Qmult_le_compat_r; lra).
  assert (Hbudget : (3 * A + N * (slack M + tiny) <= M)%Q).
  { unfold slack, unit_roundoff, M in *. lra. }
  unfold Rounded.compute_balances in Hrun.
  destruct (Rounded.compute_expense_balances fl expenses) as [nb0|] eqn:H0;
    [|discriminate].
  simpl in Hrun. unfold Rounded.compute_expense_balances in H0.
  unfold Rounded.adjust_for_payments in Hrun.
  pose proof (growth_total M expenses payments) as Hg.
  fold N in Hg. fold A in Hg.
  pose proof (drift_total M expenses payments HM0) as Hd.
  fold N in Hd. fold A in Hd.
  pose proof (Qsum_nonneg (growth_of_payment M) payments
                (growth_of_payment_nonneg M HM0)) as Hgp.
  pose proof (Qsum_nonneg (growth_of_expense M) expenses
                (growth_of_expense_nonneg M HM0)) as Hge.
  pose proof (zero_balances_total (all_persons expenses)) as Hz.
  pose proof (zero_balances_magnitude (all_persons expenses)) as Hzm.
  destruct (expenses_bound fl Hfl M HMh HM0 _ _ _ H0 Hexp) as [Hs1 Hm1];
    [lra|].
  destruct (payments_bound fl Hfl M HMh HM0 _ _ _ Hrun Hpay) as [Hs2 Hm2];
    [lra|].
  apply Qabs_Qle_condition in Hs1, Hs2.
  assert (Hsum : (Qabs (Qsum (values nb))
                  <= unit_roundoff * A + N * (slack M + tiny))%Q).
  { apply Qabs_Qle_condition. split; lra. }
  assert (HNNt : (N * (N * tiny) <= 4503599627370496 * (N * tiny))%Q)
    by (apply Qmult_le_compat_r; lra).
  assert (Hfinal : (Qabs (Qsum (values nb))
                    <= (6 * N + 1) * unit_roundoff * A + 4 * N * tiny)%Q).
  { eapply Qle_trans; [exact Hsum|].
    unfold slack, unit_roundoff, M. 
    setoid_replace (N * ((1 # 9007199254740992) * (6 * A + 4 * N * tiny)
                         + tiny + tiny))%Q
      with (6 * (1 # 9007199254740992) * (N * A)
            + 4 * (1 # 9007199254740992) * (N * (N * tiny))
            + 2 * (N * tiny))%Q by ring.
    setoid_replace ((6 * N + 1) * (1 # 9007199254740992) * A)%Q
      with (6 * (1 # 9007199254740992) * (N * A)
            + (1 # 9007199254740992) * A)%Q by ring.
    lra. }
  split; [exact Hfinal|].
  intros Hsmall. eapply Qle_trans; [exact Hfinal|].
  pose proof (turnover_within_updates expenses payments) as Hta.
  fold N in Hta. fold A in Hta.
  assert (Hh : (4 * (4503599627370496 * tiny) <= 1 # 1000000000)%Q)
    by (vm_compute; discriminate).
  unfold unit_roundoff.
  setoid_replace ((6 * N + 1) * (1 # 9007199254740992) * A)%Q
    with (6 * (1 # 9007199254740992) * (N * A)
          + (1 # 9007199254740992) * A)%Q by ring.
  lra.
Qed.

Lemma zero_sum_up_to_rounding_witness :
  Rounded.compute_balances to_grid hundred_by_three [] = Ok a_third_each
  /\ (Qabs (Qsum (values a_third_each))
      <= (6 * updates hundred_by_three [] + 1) * unit_roundoff
           * turnover hundred_by_three []
         + 4 * updates hundred_by_three [] * tiny)%Q
  /\ (Qabs (Qsum (values a_third_each)) <= 1 # 1000000)%Q
  /\ ~ (Qsum (values a_third_each) == 0)%Q.
Proof.
  split; [vm_compute; reflexivity|].
  destruct (zero_sum_up_to_rounding to_grid hundred_by_three []
              a_third_each) as [H1 H2].
  - exact to_grid_rounds.
  - intros row [<-|[]]. vm_compute. discriminate.
  - intros row [].
  - vm_compute. discriminate.
  - vm_compute. discriminate.
  - vm_compute. reflexivity.
  - split; [exact H1|]. split.
    + apply H2. vm_compute. discriminate.
    + vm_compute. discriminate.
Defined.

(** ** Totality *)

Lemma non_numeric_amount_is_zero (raw : string) :
  amount_or_zero (NonNumeric raw) = 0%Q.
Proof. reflexivity. Qed.

Lemma non_numeric_contributes_nothing (row : expense_row) (raw : string)
  (p : string) :
  eAmount row = NonNumeric raw -> (contribution row p == 0)%Q.
Proof.
  intros H. unfold contribution. rewrite H, non_numeric_amount_is_zero.
  assert (Hs : forall l, (share_of 0 l == 0)%Q).
  { intros [|x l]; [reflexivity|]. unfold share_of.
    unfold Qdiv. ring. }
  rewrite Hs. destruct (String.eqb _ p); ring.
Qed.

(** C2 fails on the code, at two places.  The second loop of
    [compute_expense_balances] credits the payer without the [if payer:]
    test of the first loop, so a row whose Payer cell is blank raises
    [KeyError]; and [adjust_for_payments] raises [KeyError] at a name the
    mapping has no entry for. *)
Theorem engine_raises_key_error :
  compute_expense_balances blank_payer = Raise (KeyError EmptyString)
  /\ adjust_for_payments after_dinner dave_pays_alice
     = Raise (KeyError "Dave").
Proof. split; reflexivity. Qed.

(** ** Entries of the mapping *)

(** C3 fails on the code: only the names of the expense rows are given an
    entry, and [adjust_for_payments] raises [KeyError] at a payer or payee
    that no expense row names. *)
Theorem payment_only_person_raises :
  compute_balances lunch carol_pays_alice = Raise (KeyError "Carol").
Proof. reflexivity. Qed.

(** ** Split type and percentages *)

Lemma same_but_split_persons (ps : list string) (r1 r2 : expense_row) :
  same_but_split r1 r2 -> collect_persons ps r1 = collect_persons ps r2.
Proof.
  intros [_ [Hp [_ [Hl _]]]]. unfold collect_persons. now rewrite Hp, Hl.
Qed.

Lemma same_but_split_apply (nb : dict) (r1 r2 : expense_row) :
  same_but_split r1 r2 -> apply_expense nb r1 = apply_expense nb r2.
Proof.
  intros [_ [Hp [Ha [Hl _]]]]. unfold apply_expense. now rewrite Hp, Ha, Hl.
Qed.

Lemma same_but_split_all_persons (rows1 rows2 : list expense_row) :
  Forall2 same_but_split rows1 rows2 ->
  forall acc,
    fold_left collect_persons rows1 acc = fold_left collect_persons rows2 acc.
Proof.
  induction 1 as [|r1 r2 l1 l2 Hr _ IH]; intros acc; simpl.
  - reflexivity.
  - now rewrite (same_but_split_persons acc r1 r2 Hr), IH.
Qed.

Lemma same_but_split_for_each (rows1 rows2 : list expense_row) :
  Forall2 same_but_split rows1 rows2 ->
  forall nb,
    for_each apply_expense rows1 nb = for_each apply_expense rows2 nb.
Proof.
  induction 1 as [|r1 r2 l1 l2 Hr _ IH]; intros nb; simpl.
  - reflexivity.
  - rewrite (same_but_split_apply nb r1 r2 Hr).
    destruct (apply_expense nb r2); simpl; [apply IH | reflexivity].
Qed.

(** C4: expense rows that differ only in Split Type and Percentages give
    the same result, so the split is always equal and the percentages are
    never used. *)
Theorem split_type_ignored (rows1 rows2 : list expense_row) :
  Forall2 same_but_split rows1 rows2 ->
  compute_expense_balances rows1 = compute_expense_balances rows2.
Proof.
  intros H. unfold compute_expense_balances, all_persons.
  rewrite (same_but_split_all_persons _ _ H).
  now apply same_but_split_for_each.
Qed.

Lemma split_type_ignored_witness :
  compute_expense_balances custom_split = compute_expense_balances equal_split.
Proof.
  apply split_type_ignored. constructor; [|constructor].
  repeat split; reflexivity.
Defined.

(** ** The effect of each expense record *)

(** C5 fails on the code, by the slip of C2: a record whose Payer cell is
    blank is not credited anything.  The first loop leaves the empty name
    out of the mapping, the second loop credits the payer without that
    test, and [net_balance[payer] += amount] raises [KeyError] with the
    empty name: alone and without participants, where the claim has the
    payer still credited the full amount; with a participant; and after
    rows that are in order, whose effect is lost with it.  A Payer cell
    holding a no-break space is blank once stripped. *)
Theorem blank_payer_is_never_credited :
  compute_expense_balances nobody_pays = Raise (KeyError EmptyString)
  /\ compute_expense_balances blank_payer = Raise (KeyError EmptyString)
  /\ compute_expense_balances (dinner ++ no_break_space_pays)
     = Raise (KeyError EmptyString).
Proof. repeat split; reflexivity. Qed.

(** ** The settlement sweep *)

Lemma py_min_Qmin (a b : Q) : py_min a b = Qmin a b.
Proof.
  unfold py_min, Qltb, Qmin, GenericMinMax.gmin.
  destruct (Qle_bool a b) eqn:Hle; simpl.
  - apply Qle_bool_iff in Hle. apply (proj1 (Qle_alt a b)) in Hle.
    destruct (a ?= b)%Q eqn:Hc; [reflexivity | reflexivity | congruence].
  - destruct (a ?= b)%Q eqn:Hc; [| |reflexivity]; exfalso;
      assert (Hle' : (a <= b)%Q) by (apply Qle_alt; rewrite Hc; discriminate);
      apply Qle_bool_iff in Hle'; congruence.
Qed.

Lemma settled_within (x : Q) :
  settled x = if Qlt_le_dec (Qabs x) epsilon then true else false.
Proof.
  change epsilon with eps. destruct (Qlt_le_dec (Qabs x) eps) as [H|H].
  - now apply Qltb_lt.
  - now apply Qltb_ge.
Qed.

Lemma within_settled {A} (x : Q) (u v : A) :
  (if Qlt_le_dec (Qabs x) epsilon then u else v)
  = if settled x then u else v.
Proof.
  rewrite settled_within. now destruct (Qlt_le_dec (Qabs x) epsilon).
Qed.

Lemma is_creditor_owed (x : item) : is_creditor x = owed_money x.
Proof.
  unfold owed_money. change epsilon with eps.
  destruct (Qlt_le_dec eps (snd x)) as [H|H].
  - now apply Qltb_lt.
  - now apply Qltb_ge.
Qed.

Lemma is_debtor_owes (x : item) : is_debtor x = owes_money x.
Proof.
  unfold owes_money. change epsilon with eps.
  destruct (Qlt_le_dec (snd x) (- eps)) as [H|H].
  - now apply Qltb_lt.
  - now apply Qltb_ge.
Qed.

Lemma sweep_two_cursor :
  forall (fuel : nat) (ds cs : list item),
    option_map fst (sweep fuel ds cs) = two_cursor_sweep fuel ds cs.
Proof.
  induction fuel as [|fuel IH]; intros ds cs;
    destruct ds as [|[dn d] ds]; destruct cs as [|[cn c] cs];
    try reflexivity.
  cbn [sweep two_cursor_sweep]. rewrite <- py_min_Qmin.
  rewrite !within_settled, <- IH.
  destruct (sweep fuel _ _) as [[txs [rd rc]]|]; reflexivity.
Qed.

(** C6: the creditors are the entries above [1e-9], sorted by balance
    descending, the debtors the entries below [-1e-9], sorted ascending;
    and for every amount of fuel the loop of the code returns what the
    two-cursor sweep of the specification returns on these two lists, each
    step emitting [min(c, -d)] for the current pair and moving on from an
    amount once it is within [1e-9] of 0.  With fuel for one step per
    listed person the sweep has ended, and its output, in emission order,
    is the plan. *)
Theorem settle_debts_is_sweep (nb : dict) :
  Permutation (fr_creditors (enter nb)) (filter owed_money nb)
  /\ Permutation (fr_debtors (enter nb)) (filter owes_money nb)
  /\ StronglySorted (fun x y => (snd y <= snd x)%Q) (fr_creditors (enter nb))
  /\ StronglySorted (fun x y => (snd x <= snd y)%Q) (fr_debtors (enter nb))
  /\ (forall fuel,
        settle_debts_fuel fuel nb
        = two_cursor_sweep fuel (fr_debtors (enter nb))
            (fr_creditors (enter nb)))
  /\ two_cursor_sweep
       (List.length (filter owes_money nb)
        + List.length (filter owed_money nb))
       (fr_debtors (enter nb)) (fr_creditors (enter nb))
     = Some (settle_debts nb).
Proof.
  assert (Hc : filter is_creditor nb = filter owed_money nb)
    by (apply filter_ext; intros x; apply is_creditor_owed).
  assert (Hd : filter is_debtor nb = filter owes_money nb)
    by (apply filter_ext; intros x; apply is_debtor_owes).
  rewrite <- Hc, <- Hd.
  change (fr_creditors (enter nb)) with (spec_creditors nb).
  change (fr_debtors (enter nb)) with (spec_debtors nb).
  split; [apply sort_by_perm|].
  split; [apply sort_by_perm|].
  split; [apply descending_sorted|].
  split; [apply ascending_sorted|].
  split.
  - intros fuel. rewrite settle_debts_fuel_plan. apply sweep_two_cursor.
  - destruct (settle_debts_run nb) as [rd [rc Hrun]].
    rewrite <- sweep_two_cursor. fold (enough nb). now rewrite Hrun.
Qed.

(** ** Replaying the plan *)

(** C7, as stated, fails: these balances sum to 0 exactly, Cy is a creditor
    (2^-29 is above 1e-9), the two debts of 16 + 2^-30 are each settled
    against a credit of 16 with 2^-30 (below 1e-9) written off, and the
    sweep stops with nothing paid to Cy. *)
Lemma replay_leaves_residue :
  (Qsum (values near_miss) == 0)%Q
  /\ is_creditor ("Cy", (1 # 536870912)%Q) = true
  /\ settle_debts near_miss = [mkTx "Dee" "Ann" 16; mkTx "Eve" "Ben" 16]
  /\ exists r,
       dict_get (replay near_miss (settle_debts near_miss)) "Cy" = Some r
       /\ (eps < Qabs r)%Q.
Proof.
  split; [reflexivity|]. split; [reflexivity|]. split; [reflexivity|].
  eexists. split; reflexivity.
Qed.

Lemma after_dinner_wf : dict_wf after_dinner.
Proof.
  unfold dict_wf, after_dinner. simpl.
  repeat constructor; simpl; intuition discriminate.
Defined.

Lemma near_miss_wf : dict_wf near_miss.
Proof.
  unfold dict_wf, near_miss. simpl.
  repeat constructor; simpl; intuition discriminate.
Defined.

(** C7, amended: replaying the plan settles one of the two sides, not
    both: either every debtor or every creditor ends strictly within
    [1e-9] of 0; and it overshoots on neither side: a debtor ends between
    its balance and 0, a creditor between 0 and its balance. *)
Theorem replay_settles_one_side (nb : dict) :
  dict_wf nb ->
  ((forall p v, dict_get nb p = Some v -> (v < - eps)%Q ->
      exists r, dict_get (replay nb (settle_debts nb)) p = Some r
                /\ (Qabs r < eps)%Q)
   \/ (forall p v, dict_get nb p = Some v -> (eps < v)%Q ->
         exists r, dict_get (replay nb (settle_debts nb)) p = Some r
                   /\ (Qabs r < eps)%Q))
  /\ forall p v, dict_get nb p = Some v ->
       exists r,
         dict_get (replay nb (settle_debts nb)) p = Some r
         /\ ((v < - eps)%Q -> (v <= r)%Q /\ (r <= 0)%Q)
         /\ ((eps < v)%Q -> (0 <= r)%Q /\ (r <= v)%Q).
Proof.
  intros Hwf. destruct (settle_view nb Hwf) as [rd [rc [Hrun Hview]]].
  pose proof eps_pos as Heps.
  destruct (sweep_signs _ _ _ _ _ _ Hrun (spec_lists_signed nb))
    as [Hpos [Hrd Hrc]].
  pose proof (sweep_tx_names _ _ _ _ _ _ Hrun) as Hnames.
  rewrite Forall_forall in Hnames, Hrd, Hrc.
  destruct (spec_lists_separate nb Hwf) as [_ [_ Hsep]].
  split.
  - destruct (sweep_exhausts _ _ _ _ _ _ Hrun) as [Hall|Hall];
      unfold all_settled in Hall; rewrite Forall_forall in Hall;
      [left | right]; intros p v Hv Hside;
      destruct (Hview p v Hv) as [r [Hr [_ Hcases]]];
      exists r; (split; [exact Hr|]);
      destruct Hcases as [[Hd [y [Hy Hry]]]|[[Hc [y [Hy Hry]]]|[H1 [H2 _]]]];
      try lra; rewrite Hry; apply Qabs_Qlt_condition, settled_true;
      apply (Hall (p, y) Hy).
  - intros p v Hv. destruct (Hview p v Hv) as [r [Hr [Heq Hcases]]].
    exists r. split; [exact Hr|].
    destruct Hcases as [[Hd [y [Hy Hry]]]|[[Hc [y [Hy Hry]]]|[H1 [H2 H3]]]].
    + assert (Hn : (0 <= net_effect (settle_debts nb) p)%Q).
      { apply net_effect_nonneg; [exact Hpos|]. intros t Ht He.
        destruct (Hnames t Ht) as [_ Hcr]. rewrite He in Hcr.
        apply (Hsep p); [|exact Hcr].
        apply (in_names p v), spec_debtors_In. split; [|exact Hd].
        now apply dict_get_In. }
      specialize (Hrd _ Hy). simpl in Hrd.
      repeat split; intros; try lra.
    + assert (Hn : (net_effect (settle_debts nb) p <= 0)%Q).
      { apply net_effect_nonpos; [exact Hpos|]. intros t Ht He.
        destruct (Hnames t Ht) as [Hdb _]. rewrite He in Hdb.
        apply (Hsep p); [exact Hdb|].
        apply (in_names p v), spec_creditors_In. split; [|exact Hc].
        now apply dict_get_In. }
      specialize (Hrc _ Hy). simpl in Hrc.
      repeat split; intros; try lra.
    + repeat split; intros; lra.
Qed.

Lemma replay_settles_one_side_witness :
  ((forall p v, dict_get near_miss p = Some v -> (v < - eps)%Q ->
      exists r, dict_get (replay near_miss (settle_debts near_miss)) p = Some r
                /\ (Qabs r < eps)%Q)
   \/ (forall p v, dict_get near_miss p = Some v -> (eps < v)%Q ->
         exists r, dict_get (replay near_miss (settle_debts near_miss)) p
                   = Some r
                   /\ (Qabs r < eps)%Q))
  /\ forall p v, dict_get near_miss p = Some v ->
       exists r,
         dict_get (replay near_miss (settle_debts near_miss)) p = Some r
         /\ ((v < - eps)%Q -> (v <= r)%Q /\ (r <= 0)%Q)
         /\ ((eps < v)%Q -> (0 <= r)%Q /\ (r <= v)%Q).
Proof. apply (replay_settles_one_side near_miss). exact near_miss_wf. Defined.

(** ** Termination and the number of transactions *)

(** C8, as stated, fails: two expenses of 1e308 that Alice pays for Bob
    leave Alice with a balance of [inf] and Bob with [-inf].  The first
    turn of the loop settles [inf]; what remains on both sides is
    [inf - inf], NaN; [abs(nan) < 1e-9] is false, no cursor moves, and
    every later turn finds the same two NaN again.  On no amount of fuel
    does the loop return. *)
Lemma settle_debts_never_returns :
  Binary64.compute_balances Binary64.two_huge_expenses []
  = Ok Binary64.infinite_balances
  /\ ~ exists fuel txs,
         Binary64.settle_debts_fuel fuel Binary64.infinite_balances
         = Some txs.
Proof.
  split; [vm_compute; reflexivity|].
  intros [fuel [txs H]]. unfold Binary64.settle_debts_fuel in H.
  destruct fuel as [|fuel]; [discriminate|].
  change (Binary64.while_loop (S fuel)
            (Binary64.enter Binary64.infinite_balances))
    with (Binary64.while_loop fuel
            (Binary64.stuck [Binary64.mkTx "Bob" "Alice" PrimFloat.infinity]))
    in H.
  rewrite stuck_forever in H. discriminate.
Qed.

(** C8, amended: on a mapping whose balances are all finite numbers the
    loop returns on any fuel of at least the number of debtors plus the
    number of creditors, always with the plan [settle_debts]; and with at
    least one debtor and one creditor the plan has at most
    debtors + creditors - 1 transactions. *)
Theorem settle_debts_total (nb : dict) :
  (forall fuel,
      List.length (filter is_debtor nb) + List.length (filter is_creditor nb)
      <= fuel ->
      settle_debts_fuel fuel nb = Some (settle_debts nb))
  /\ (1 <= List.length (filter is_debtor nb) ->
      1 <= List.length (filter is_creditor nb) ->
      List.length (settle_debts nb)
      <= List.length (filter is_debtor nb)
         + List.length (filter is_creditor nb) - 1).
Proof.
  split.
  - intros fuel Hle. now apply settle_debts_enough.
  - intros _ _. destruct (settle_debts_run nb) as [rd [rc Hrun]].
    apply sweep_count in Hrun.
    pose proof (spec_lists_length nb) as Hlen. unfold enough in Hlen. lia.
Qed.

Lemma settle_debts_total_witness :
  settle_debts_fuel 5 three_owe_two = Some (settle_debts three_owe_two)
  /\ List.length (settle_debts three_owe_two)
     <= List.length (filter is_debtor three_owe_two)
        + List.length (filter is_creditor three_owe_two) - 1.
Proof.
  destruct (settle_debts_total three_owe_two) as [Hrun Hcount]. split.
  - apply Hrun. vm_compute. lia.
  - apply Hcount; vm_compute; lia.
Defined.

(** ** The shape of a transaction *)

(** C9: in a mapping with one entry per person, every transaction of the
    plan has a strictly positive amount, a debtor whose balance is below
    [-1e-9] and a creditor whose balance is above [1e-9], and the two are
    different persons. *)
Theorem transactions_well_formed (nb : dict) :
  dict_wf nb ->
  Forall (fun t =>
            (0 < amount t)%Q
            /\ (exists b, dict_get nb (debtor t) = Some b /\ (b < - eps)%Q)
            /\ (exists b, dict_get nb (creditor t) = Some b /\ (eps < b)%Q)
            /\ debtor t <> creditor t)
         (settle_debts nb).
Proof.
  intros Hwf. destruct (settle_debts_run nb) as [rd [rc Hrun]].
  destruct (sweep_signs _ _ _ _ _ _ Hrun (spec_lists_signed nb)) as [Hpos _].
  pose proof (sweep_tx_names _ _ _ _ _ _ Hrun) as Hnames.
  rewrite Forall_forall in *. intros t Ht.
  destruct (Hnames t Ht) as [Hd Hc].
  apply names_In in Hd. destruct Hd as [x Hx].
  apply names_In in Hc. destruct Hc as [y Hy].
  apply spec_debtors_In in Hx. apply spec_creditors_In in Hy.
  simpl in Hx, Hy. destruct Hx as [Hx Hlt]. destruct Hy as [Hy Hgt].
  apply (In_dict_get _ _ _ Hwf) in Hx. apply (In_dict_get _ _ _ Hwf) in Hy.
  split; [now apply Hpos|]. split; [eauto|]. split; [eauto|].
  intros Heq. rewrite Heq in Hx. assert (x = y) by congruence. subst y.
  pose proof eps_pos. lra.
Qed.

Lemma three_owe_two_wf : dict_wf three_owe_two.
Proof.
  unfold dict_wf, three_owe_two. simpl.
  repeat constructor; simpl; intuition discriminate.
Defined.

Lemma transactions_well_formed_witness :
  Forall (fun t =>
            (0 < amount t)%Q
            /\ (exists b, dict_get three_owe_two (debtor t) = Some b
                          /\ (b < - eps)%Q)
            /\ (exists b, dict_get three_owe_two (creditor t) = Some b
                          /\ (eps < b)%Q)
            /\ debtor t <> creditor t)
         (settle_debts three_owe_two).
Proof.
  apply (transactions_well_formed three_owe_two). exact three_owe_two_wf.
Defined.

(** ** The caller's mapping *)

Lemma loop_body_net_balance (fr : frame) :
  fr_net_balance (loop_body fr) = fr_net_balance fr.
Proof.
  unfold loop_body.
  destruct (nth_error (fr_debtors fr) (fr_i fr)) as [[dn d]|];
    [|reflexivity].
  destruct (nth_error (fr_creditors fr) (fr_j fr)) as [[cn c]|]; reflexivity.
Qed.

Lemma while_loop_net_balance :
  forall (fuel : nat) (fr fr' : frame),
    while_loop fuel fr = Some fr' -> fr_net_balance fr' = fr_net_balance fr.
Proof.
  induction fuel as [|fuel IH]; intros fr fr'; simpl;
    destruct (loop_cond fr); try discriminate.
  - intros H. now injection H as <-.
  - intros H. rewrite (IH _ _ H). apply loop_body_net_balance.
  - intros H. now injection H as <-.
Qed.

(** C10: [settle_debts] returns with the mapping it was given left as it
    was, entry for entry, so running it again on the mapping gives the same
    plan. *)
Theorem settle_debts_preserves_input (nb : dict) :
  exists fr,
    settle_debts_frame (enough nb) nb = Some fr
    /\ fr_transactions fr = settle_debts nb
    /\ fr_net_balance fr = nb
    /\ settle_debts (fr_net_balance fr) = settle_debts nb.
Proof.
  pose proof (settle_debts_enough nb (enough nb) (le_n _)) as Hrun.
  unfold settle_debts_fuel in Hrun.
  destruct (settle_debts_frame (enough nb) nb) as [fr|] eqn:Hfr;
    [|discriminate].
  simpl in Hrun. injection Hrun as Htx.
  apply while_loop_net_balance in Hfr. simpl in Hfr.
  exists fr. repeat split; [exact Htx | exact Hfr | now rewrite Hfr].
Qed.


(** * Further properties *)

(** ** Names *)

Lemma truthy_false (s : string) : truthy s = false <-> s = EmptyString.
Proof. destruct s; simpl; split; congruence. Qed.

Lemma whitespace_utf8 : whitespace = map utf8 whitespace_code_points.
Proof. reflexivity. Qed.

Lemma drop_prefix_app (w l r : list ascii) :
  drop_prefix w l = Some r <-> l = w ++ r.
Proof.
  revert l. induction w as [|a w IH]; intros l; simpl.
  - split; [intros H; now injection H | intros ->; reflexivity].
  - destruct l as [|b l]; [split; discriminate|].
    destruct (Ascii.eqb_spec a b) as [->|Hne].
    + rewrite IH. split; [intros ->; reflexivity | intros H; now injection H].
    + split; [discriminate | intros H; injection H as -> _; congruence].
Qed.

Lemma drop_any_some (chars : list (list ascii)) (l r : list ascii) :
  drop_any chars l = Some r -> exists w, In w chars /\ l = w ++ r.
Proof.
  induction chars as [|w chars IH]; simpl; [discriminate|].
  destruct (drop_prefix w l) as [r'|] eqn:Hw.
  - intros H. injection H as ->. exists w. split; [now left|].
    now apply drop_prefix_app.
  - intros H. destruct (IH H) as [w' [Hin Heq]]. exists w'. auto.
Qed.

Lemma drop_any_none (chars : list (list ascii)) (l : list ascii) :
  drop_any chars l = None ->
  forall w r, In w chars -> l <> w ++ r.
Proof.
  induction chars as [|w chars IH]; simpl; intros H w' r Hin; [contradiction|].
  destruct (drop_prefix w l) as [r'|] eqn:Hw; [discriminate|].
  destruct Hin as [<-|Hin].
  - intros Heq. apply drop_prefix_app in Heq. congruence.
  - now apply IH.
Qed.

Lemma drop_any_prefix (chars : list (list ascii)) (l x : list ascii) :
  drop_any chars (l ++ x) = None -> drop_any chars l = None.
Proof.
  intros H. destruct (drop_any chars l) as [r|] eqn:Hl; [|reflexivity].
  destruct (drop_any_some _ _ _ Hl) as [w [Hin ->]].
  exfalso. apply (drop_any_none _ _ H w (r ++ x) Hin).
  now rewrite app_assoc.
Qed.

Lemma strip_front_fixed (chars : list (list ascii)) (fuel : nat)
  (l : list ascii) :
  drop_any chars l = None -> strip_front chars fuel l = l.
Proof. intros H. destruct fuel; simpl; [reflexivity | now rewrite H]. Qed.

Lemma made_of_app (chars : list (list ascii)) (a b : list ascii) :
  made_of chars a -> made_of chars b -> made_of chars (a ++ b).
Proof.
  induction 1 as [|w l Hw _ IH]; intros Hb; simpl; [exact Hb|].
  rewrite <- app_assoc. constructor; auto.
Qed.

Lemma made_of_rev (chars : list (list ascii)) (a : list ascii) :
  made_of (map (@rev ascii) chars) a -> made_of chars (rev a).
Proof.
  induction 1 as [|w l Hw _ IH]; simpl; [constructor|].
  rewrite rev_app_distr. apply made_of_app; [exact IH|].
  apply in_map_iff in Hw. destruct Hw as [w' [<- Hw']].
  rewrite rev_involutive. rewrite <- (app_nil_r w').
  constructor; [exact Hw' | constructor].
Qed.

Lemma strip_front_split (chars : list (list ascii)) :
  forall (fuel : nat) (l : list ascii),
    exists a, l = a ++ strip_front chars fuel l /\ made_of chars a.
Proof.
  induction fuel as [|fuel IH]; intros l; simpl.
  - exists []. split; [reflexivity | constructor].
  - destruct (drop_any chars l) as [r|] eqn:Hl.
    + destruct (drop_any_some _ _ _ Hl) as [w [Hin ->]].
      destruct (IH r) as [a [Ha Hm]].
      exists (w ++ a). split.
      * rewrite <- app_assoc. now rewrite <- Ha.
      * now constructor.
    + exists []. split; [reflexivity | constructor].
Qed.

Lemma strip_front_done (chars : list (list ascii)) :
  (forall w, In w chars -> w <> []) ->
  forall (fuel : nat) (l : list ascii),
    List.length l <= fuel ->
    drop_any chars (strip_front chars fuel l) = None.
Proof.
  intros Hne. induction fuel as [|fuel IH]; intros l Hlen; simpl.
  - destruct l; [|simpl in Hlen; lia].
    destruct (drop_any chars []) as [r|] eqn:H; [|reflexivity].
    destruct (drop_any_some _ _ _ H) as [w [Hin Heq]].
    symmetry in Heq. apply app_eq_nil in Heq. destruct Heq as [-> _].
    now apply Hne in Hin.
  - destruct (drop_any chars l) as [r|] eqn:Hl; [|exact Hl].
    apply IH. destruct (drop_any_some _ _ _ Hl) as [w [Hin ->]].
    rewrite length_app in Hlen. specialize (Hne w Hin).
    destruct w; [congruence|]. simpl in Hlen. lia.
Qed.

Lemma whitespace_nonempty (w : list ascii) : In w whitespace -> w <> [].
Proof.
  intros Hin ->. revert Hin. unfold whitespace. simpl.
  intuition discriminate.
Qed.

Lemma rev_whitespace_nonempty (w : list ascii) :
  In w (map (@rev ascii) whitespace) -> w <> [].
Proof.
  intros Hin. apply in_map_iff in Hin. destruct Hin as [w' [<- Hin]].
  apply whitespace_nonempty in Hin. destruct w'; [congruence|].
  simpl. intros H. apply app_eq_nil in H. destruct H. discriminate.
Qed.

Lemma lstrip_bytes (s : string) :
  list_ascii_of_string (lstrip s) = lstrip_l (list_ascii_of_string s).
Proof. unfold lstrip. now rewrite list_ascii_of_string_of_list_ascii. Qed.

Lemma rstrip_bytes (s : string) :
  list_ascii_of_string (rstrip s) = rstrip_l (list_ascii_of_string s).
Proof. unfold rstrip. now rewrite list_ascii_of_string_of_list_ascii. Qed.

Lemma strip_bytes (s : string) :
  list_ascii_of_string (strip s)
  = rstrip_l (lstrip_l (list_ascii_of_string s)).
Proof. unfold strip. now rewrite rstrip_bytes, lstrip_bytes. Qed.

Lemma lstrip_l_done (l : list ascii) : drop_any whitespace (lstrip_l l) = None.
Proof. apply strip_front_done; [apply whitespace_nonempty | lia]. Qed.

Lemma rstrip_l_done (l : list ascii) :
  drop_any (map (@rev ascii) whitespace) (rev (rstrip_l l)) = None.
Proof.
  unfold rstrip_l. rewrite rev_involutive.
  apply strip_front_done; [apply rev_whitespace_nonempty | lia].
Qed.

Lemma lstrip_l_split (l : list ascii) :
  exists a, l = a ++ lstrip_l l /\ made_of whitespace a.
Proof. apply strip_front_split. Qed.

Lemma rstrip_l_split (l : list ascii) :
  exists b, l = rstrip_l l ++ b /\ made_of whitespace b.
Proof.
  unfold rstrip_l.
  destruct (strip_front_split (map (@rev ascii) whitespace)
              (List.length (rev l)) (rev l)) as [a [Ha Hm]].
  exists (rev a). split; [|now apply made_of_rev].
  rewrite <- rev_app_distr, <- Ha. now rewrite rev_involutive.
Qed.

Lemma lstrip_l_fixed (l : list ascii) :
  drop_any whitespace l = None -> lstrip_l l = l.
Proof. apply strip_front_fixed. Qed.

Lemma rstrip_l_fixed (l : list ascii) :
  drop_any (map (@rev ascii) whitespace) (rev l) = None -> rstrip_l l = l.
Proof.
  intros H. unfold rstrip_l. rewrite strip_front_fixed by exact H.
  apply rev_involutive.
Qed.

Lemma strip_l_idempotent (l : list ascii) :
  rstrip_l (lstrip_l (rstrip_l (lstrip_l l))) = rstrip_l (lstrip_l l).
Proof.
  set (t := lstrip_l l).
  assert (Hp : drop_any whitespace (rstrip_l t) = None).
  { destruct (rstrip_l_split t) as [b [Hb _]].
    apply (drop_any_prefix _ _ b). rewrite <- Hb. apply lstrip_l_done. }
  rewrite (lstrip_l_fixed _ Hp). apply rstrip_l_fixed, rstrip_l_done.
Qed.

Lemma bytes_inj (s t : string) :
  list_ascii_of_string s = list_ascii_of_string t -> s = t.
Proof.
  intros H. rewrite <- (string_of_list_ascii_of_string s),
    <- (string_of_list_ascii_of_string t). now rewrite H.
Qed.

Lemma strip_idempotent (s : string) : strip (strip s) = strip s.
Proof.
  apply bytes_inj. rewrite !strip_bytes. apply strip_l_idempotent.
Qed.

Lemma strip_tidy (s : string) : truthy (strip s) = true -> tidy (strip s).
Proof. intros H. split; [exact H | apply strip_idempotent]. Qed.

Lemma bytes_app (a b : string) :
  list_ascii_of_string (a ++ b)
  = list_ascii_of_string a ++ list_ascii_of_string b.
Proof. induction a as [|c a IH]; simpl; [reflexivity | now rewrite IH]. Qed.

Lemma text_app (a b : list ascii) :
  string_of_list_ascii (a ++ b)
  = (string_of_list_ascii a ++ string_of_list_ascii b)%string.
Proof. induction a as [|c a IH]; simpl; [reflexivity | now rewrite IH]. Qed.

Lemma made_of_blank (a : list ascii) :
  made_of whitespace a -> blank (string_of_list_ascii a).
Proof.
  induction 1 as [|w l Hw _ IH]; simpl; [constructor|].
  rewrite text_app. now constructor.
Qed.

(** [strip] takes a run of whitespace characters off each end. *)
Lemma strip_split (s : string) :
  exists a b, s = (a ++ strip s ++ b)%string /\ blank a /\ blank b.
Proof.
  destruct (lstrip_l_split (list_ascii_of_string s)) as [a [Ha Hma]].
  destruct (rstrip_l_split (lstrip_l (list_ascii_of_string s)))
    as [b [Hb Hmb]].
  exists (string_of_list_ascii a), (string_of_list_ascii b).
  split; [|split; now apply made_of_blank].
  apply bytes_inj. rewrite !bytes_app, strip_bytes.
  rewrite !list_ascii_of_string_of_list_ascii. now rewrite <- Hb.
Qed.

Lemma strip_ends (s : string) :
  starts_with_space (strip s) = false /\ ends_with_space (strip s) = false.
Proof.
  unfold starts_with_space, ends_with_space. rewrite strip_bytes. split.
  - set (t := lstrip_l (list_ascii_of_string s)).
    destruct (rstrip_l_split t) as [b [Hb _]].
    rewrite (drop_any_prefix _ _ b); [reflexivity|].
    rewrite <- Hb. apply lstrip_l_done.
  - now rewrite rstrip_l_done.
Qed.

(** X1: [strip] takes a run of whitespace characters off each end of the
    text and leaves the rest as it is; what it returns neither starts nor
    ends with a whitespace character (any of the 29 that [str.isspace]
    knows, the no-break space among them), so that stripping again changes
    nothing. *)
Theorem strip_normalises (s : string) :
  (exists a b, s = (a ++ strip s ++ b)%string /\ blank a /\ blank b)
  /\ starts_with_space (strip s) = false
  /\ ends_with_space (strip s) = false
  /\ strip (strip s) = strip s.
Proof.
  split; [apply strip_split|].
  destruct (strip_ends s) as [H1 H2].
  split; [exact H1|]. split; [exact H2 | apply strip_idempotent].
Qed.

(** ** Participants *)

Lemma no_comma_bytes (s : string) :
  no_comma s = true <-> ~ In ","%char (list_ascii_of_string s).
Proof.
  induction s as [|c s IH]; simpl.
  - intuition.
  - rewrite andb_true_iff, negb_true_iff, IH.
    destruct (Ascii.eqb_spec c ","%char) as [->|Hne]; intuition congruence.
Qed.

Lemma no_comma_strip (s : string) :
  no_comma s = true -> no_comma (strip s) = true.
Proof.
  rewrite !no_comma_bytes. intros H Hin. apply H.
  destruct (strip_split s) as [a [b [Heq _]]].
  rewrite Heq at 1. rewrite !bytes_app.
  apply in_or_app. right. apply in_or_app. now left.
Qed.

Lemma split_comma_no_comma (s : string) :
  Forall (fun p => no_comma p = true) (split_comma s).
Proof.
  induction s as [|c r IH]; simpl.
  - repeat constructor.
  - destruct (Ascii.eqb c ","%char) eqn:Hc.
    + constructor; [reflexivity | exact IH].
    + destruct (split_comma r) as [|h t].
      * repeat constructor. simpl. now rewrite Hc.
      * inversion IH; subst. constructor; [|assumption].
        simpl. rewrite Hc. assumption.
Qed.

(** X2: every name read from a Participants cell is non-empty, neither
    starts nor ends with a whitespace character, has nothing left to strip
    and contains no comma. *)
Theorem parsed_names_clean (participants : string) :
  Forall (fun p => truthy p = true
                   /\ starts_with_space p = false
                   /\ ends_with_space p = false
                   /\ strip p = p
                   /\ no_comma p = true)
         (parse_participants participants).
Proof.
  unfold parse_participants. apply Forall_forall. intros p Hp.
  apply filter_In in Hp. destruct Hp as [Hin Ht].
  apply in_map_iff in Hin. destruct Hin as [q [<- Hq]].
  destruct (strip_ends q) as [Hs He].
  split; [exact Ht|]. split; [exact Hs|]. split; [exact He|].
  split; [apply strip_idempotent|].
  apply no_comma_strip.
  pose proof (split_comma_no_comma participants) as H.
  rewrite Forall_forall in H. now apply H.
Qed.

Lemma append_assoc' (a b c : string) : ((a ++ b) ++ c = a ++ (b ++ c))%string.
Proof. induction a as [|x a IH]; simpl; [reflexivity | now rewrite IH]. Qed.

Lemma append_empty (a : string) : (a ++ EmptyString = a)%string.
Proof. induction a as [|x a IH]; simpl; [reflexivity | now rewrite IH]. Qed.

Lemma split_comma_nonempty (s : string) : split_comma s <> [].
Proof.
  induction s as [|c r IH]; simpl; [discriminate|].
  destruct (Ascii.eqb c ","%char); [discriminate|].
  destruct (split_comma r); discriminate.
Qed.

Lemma split_comma_prefix (n s : string) :
  no_comma n = true ->
  split_comma (n ++ s)
  = match split_comma s with
    | h :: t => (n ++ h)%string :: t
    | [] => []
    end.
Proof.
  induction n as [|c n IH]; simpl; intros H.
  - now destruct (split_comma s).
  - apply andb_true_iff in H. destruct H as [Hc Hn].
    apply negb_true_iff in Hc. rewrite Hc, (IH Hn).
    pose proof (split_comma_nonempty s).
    destruct (split_comma s); [congruence | reflexivity].
Qed.

Lemma split_comma_then (n s : string) :
  no_comma n = true ->
  split_comma (n ++ String ","%char s) = n :: split_comma s.
Proof.
  intros H. rewrite (split_comma_prefix _ _ H). simpl.
  now rewrite append_empty.
Qed.

Lemma split_comma_single (n : string) :
  no_comma n = true -> split_comma n = [n].
Proof.
  intros H. rewrite <- (append_empty n) at 1.
  rewrite (split_comma_prefix _ _ H). simpl. now rewrite append_empty.
Qed.

Lemma tidy_fixed (n : string) :
  tidy n ->
  lstrip_l (list_ascii_of_string n) = list_ascii_of_string n
  /\ rstrip_l (list_ascii_of_string n) = list_ascii_of_string n.
Proof.
  intros [_ Hs]. apply (f_equal list_ascii_of_string) in Hs.
  rewrite strip_bytes in Hs. set (l := list_ascii_of_string n) in *.
  destruct (lstrip_l_split l) as [a [Ha _]].
  destruct (rstrip_l_split (lstrip_l l)) as [b [Hb _]].
  assert (Hlen : List.length l
                 = List.length a + (List.length l + List.length b)).
  { rewrite Ha at 1. rewrite length_app. rewrite Hb at 1.
    rewrite length_app, Hs. reflexivity. }
  assert (a = []) by (destruct a; [reflexivity | simpl in Hlen; lia]).
  subst a. simpl in Ha. rewrite <- Ha in Hs. split; [now symmetry | exact Hs].
Qed.

Lemma strip_after_space (n : string) :
  tidy n -> strip (String " "%char n) = n.
Proof.
  intros H. destruct (tidy_fixed n H) as [Hl Hr].
  apply bytes_inj. rewrite strip_bytes.
  change (list_ascii_of_string (String " "%char n))
    with (" "%char :: list_ascii_of_string n).
  assert (Hstep : lstrip_l (" "%char :: list_ascii_of_string n)
                  = lstrip_l (list_ascii_of_string n)).
  { unfold lstrip_l. simpl List.length.
    change (strip_front whitespace (S (List.length (list_ascii_of_string n)))
              (" "%char :: list_ascii_of_string n))
      with (strip_front whitespace (List.length (list_ascii_of_string n))
              (list_ascii_of_string n)).
    reflexivity. }
  now rewrite Hstep, Hl.
Qed.

Lemma no_comma_app (a b : string) :
  no_comma a = true -> no_comma b = true -> no_comma (a ++ b) = true.
Proof.
  induction a as [|c a IH]; simpl; [auto|]. intros H Hb.
  apply andb_true_iff in H. destruct H as [Hc Ha]. now rewrite Hc, IH.
Qed.

Lemma pieces_of_joined :
  forall (ns : list string) (pre : string),
    Forall (fun p => tidy p /\ no_comma p = true) ns ->
    ns <> [] ->
    pre = EmptyString \/ pre = " " ->
    map strip (split_comma (pre ++ String.concat ", " ns)) = ns.
Proof.
  induction ns as [|n rest IH]; intros pre Hall Hne Hpre; [congruence|].
  inversion Hall as [|? ? [Ht Hc] Hrest]; subst.
  assert (Hpc : no_comma pre = true) by (destruct Hpre as [->| ->]; reflexivity).
  assert (Hstrip : strip (pre ++ n) = n).
  { destruct Hpre as [->| ->]; simpl.
    - apply Ht.
    - now apply strip_after_space. }
  destruct rest as [|n2 rest'].
  - simpl String.concat.
    rewrite split_comma_single by now apply no_comma_app.
    simpl. now rewrite Hstrip.
  - change (String.concat ", " (n :: n2 :: rest'))
      with (n ++ String ","%char (String " "%char EmptyString
                                  ++ String.concat ", " (n2 :: rest')))%string.
    rewrite <- append_assoc'.
    rewrite split_comma_then by now apply no_comma_app.
    simpl map. rewrite Hstrip. f_equal.
    apply (IH " "); [exact Hrest | discriminate | now right].
Qed.

(** X3: a list of clean names (non-empty, stripped, without comma) written
    out with a comma and a space between them is read back as that list,
    duplicates and order kept. *)
Theorem parse_joined_names (ns : list string) :
  Forall (fun p => tidy p /\ no_comma p = true) ns ->
  parse_participants (String.concat ", " ns) = ns.
Proof.
  intros Hall. unfold parse_participants.
  destruct ns as [|n rest]; [reflexivity|].
  pose proof (pieces_of_joined (n :: rest) EmptyString Hall) as H.
  change (EmptyString ++ String.concat ", " (n :: rest))%string
    with (String.concat ", " (n :: rest)) in H.
  rewrite H; [|discriminate | now left].
  apply forallb_filter_id. apply forallb_forall. intros p Hp.
  rewrite Forall_forall in Hall. now apply Hall.
Qed.

Lemma parse_joined_names_witness :
  parse_participants (String.concat ", " ["Alice"; "Bob"; "Bob"])
  = ["Alice"; "Bob"; "Bob"].
Proof.
  apply parse_joined_names.
  repeat constructor.
Defined.

(** ** When the balance functions return and when they raise *)

Lemma parse_participants_tidy (s p : string) :
  In p (parse_participants s) -> tidy p.
Proof.
  unfold parse_participants. intros Hp.
  apply filter_In in Hp. destruct Hp as [Hin Ht].
  apply in_map_iff in Hin. destruct Hin as [q [<- _]].
  now apply strip_tidy.
Qed.

Lemma mentions_tidy (row : expense_row) (q : string) :
  mentions row q -> tidy q.
Proof.
  intros [[Ht ->]|Hin].
  - now apply strip_tidy.
  - eapply parse_participants_tidy; eassumption.
Qed.

Lemma all_persons_tidy (rows : list expense_row) (q : string) :
  In q (all_persons rows) -> tidy q.
Proof.
  intros H. apply all_persons_In in H. destruct H as [row [_ Hm]].
  eapply mentions_tidy; eassumption.
Qed.

Lemma empty_not_person (rows : list expense_row) :
  ~ In EmptyString (keys (zero_balances (all_persons rows))).
Proof.
  intros H. apply zero_balances_keys, all_persons_tidy in H.
  destruct H as [H _]. discriminate.
Qed.

Lemma blank_payer_raise (nb : dict) (row : expense_row) :
  truthy (strip (ePayer row)) = false ->
  ~ In EmptyString (keys nb) ->
  apply_expense nb row = Raise (KeyError EmptyString).
Proof.
  intros Hb Hk. apply truthy_false in Hb. unfold apply_expense, dict_iadd.
  rewrite Hb. destruct (dict_get nb EmptyString) as [x|] eqn:Hx.
  - exfalso. apply Hk. eapply dict_get_some_keys; eassumption.
  - reflexivity.
Qed.

Lemma expenses_raise :
  forall (rows : list expense_row) (nb : dict),
    (forall row q, In row rows -> mentions row q -> In q (keys nb)) ->
    ~ In EmptyString (keys nb) ->
    (exists row, In row rows /\ truthy (strip (ePayer row)) = false) ->
    for_each apply_expense rows nb = Raise (KeyError EmptyString).
Proof.
  induction rows as [|r rows IH]; intros nb Hin Hk [row [Hrow Hb]].
  - destruct Hrow.
  - simpl. destruct (truthy (strip (ePayer r))) eqn:Hr.
    + destruct (apply_expense_ok nb r) as [nb1 [Hrun [Hkeys _]]].
      { apply (Hin r); [now left | left; auto]. }
      { intros p Hp. apply (Hin r); [now left | now right]. }
      rewrite Hrun. simpl. apply IH.
      * intros row' q Hrow' Hq. rewrite Hkeys. apply (Hin row'); auto.
        now right.
      * now rewrite Hkeys.
      * destruct Hrow as [->|Hrow]; [congruence|]. eauto.
    + now rewrite blank_payer_raise.
Qed.

Lemma payers_dec (rows : list expense_row) :
  (forall row, In row rows -> truthy (strip (ePayer row)) = true)
  \/ (exists row, In row rows /\ truthy (strip (ePayer row)) = false).
Proof.
  induction rows as [|r rows [IH|[row [Hin Hb]]]].
  - left. intros row [].
  - destruct (truthy (strip (ePayer r))) eqn:Hr.
    + left. intros row [<-|Hin]; auto.
    + right. exists r. split; [now left | exact Hr].
  - right. exists row. split; [now right | exact Hb].
Qed.

Lemma compute_returns (rows : list expense_row) :
  (forall row, In row rows -> truthy (strip (ePayer row)) = true) ->
  exists nb,
    compute_expense_balances rows = Ok nb
    /\ keys nb = keys (zero_balances (all_persons rows))
    /\ forall p v, dict_get nb p = Some v -> (v == contributions rows p)%Q.
Proof.
  intros Hpayer. unfold compute_expense_balances.
  destruct (expenses_ok rows (zero_balances (all_persons rows)))
    as [nb [Hrun [Hkeys Hget]]].
  { intros row q Hin Hq. apply zero_balances_keys, all_persons_In.
    exists row. split; [exact Hin|]. unfold mentions.
    destruct Hq as [->|Hq]; [left | right]; auto. }
  exists nb. split; [exact Hrun|]. split; [exact Hkeys|].
  intros p v Hv.
  destruct (keys_dict_get (zero_balances (all_persons rows)) p) as [z Hz].
  { rewrite <- Hkeys. eapply dict_get_some_keys; eassumption. }
  destruct (Hget p z Hz) as [v' [Hv' Heq]].
  assert (v' = v) by congruence. subst v'.
  rewrite Heq, (zero_balances_get _ _ _ Hz). ring.
Qed.

Lemma compute_raises (rows : list expense_row) :
  (exists row, In row rows /\ truthy (strip (ePayer row)) = false) ->
  compute_expense_balances rows = Raise (KeyError EmptyString).
Proof.
  intros H. unfold compute_expense_balances. apply expenses_raise.
  - intros row q Hin Hq. apply zero_balances_keys, all_persons_In. eauto.
  - apply empty_not_person.
  - exact H.
Qed.

Lemma compute_ok_payers (rows : list expense_row) (nb : dict) :
  compute_expense_balances rows = Ok nb ->
  forall row, In row rows -> truthy (strip (ePayer row)) = true.
Proof.
  intros Hrun. destruct (payers_dec rows) as [H|H]; [exact H|].
  rewrite (compute_raises rows H) in Hrun. discriminate.
Qed.

Lemma compute_result (rows : list expense_row) (nb : dict) :
  compute_expense_balances rows = Ok nb ->
  (forall p, In p (keys nb) <-> exists row, In row rows /\ mentions row p)
  /\ forall p v, dict_get nb p = Some v -> (v == contributions rows p)%Q.
Proof.
  intros Hrun.
  destruct (compute_returns rows (compute_ok_payers rows nb Hrun))
    as [nb' [Hrun' [Hkeys Hget]]].
  assert (nb' = nb) by congruence. subst nb'. split; [|exact Hget].
  intros p. rewrite Hkeys, zero_balances_keys. apply all_persons_In.
Qed.

(** X4: [compute_expense_balances] returns a mapping exactly when every
    row has a non-blank payer; as soon as one row has a blank payer it
    raises [KeyError] with the empty name, whatever the other rows are. *)
Theorem compute_expense_balances_outcome (rows : list expense_row) :
  ((forall row, In row rows -> truthy (strip (ePayer row)) = true) ->
   exists nb, compute_expense_balances rows = Ok nb)
  /\ ((exists row, In row rows /\ truthy (strip (ePayer row)) = false) ->
      compute_expense_balances rows = Raise (KeyError EmptyString)).
Proof.
  split.
  - intros H. destruct (compute_returns rows H) as [nb [Hrun _]]. eauto.
  - apply compute_raises.
Qed.

Lemma compute_expense_balances_outcome_witness :
  (exists nb, compute_expense_balances dinner = Ok nb)
  /\ compute_expense_balances (dinner ++ no_break_space_pays)
     = Raise (KeyError EmptyString).
Proof.
  split.
  - apply (compute_expense_balances_outcome dinner).
    intros row [<-|[]]. reflexivity.
  - apply (compute_expense_balances_outcome (dinner ++ no_break_space_pays)).
    exists (expense no_break_space 10 "Bob"). split.
    + right. left. reflexivity.
    + reflexivity.
Defined.

(** ** Payments *)

Lemma apply_payment_keys (nb nb' : dict) (row : payment_row) :
  apply_payment nb row = Ok nb' -> keys nb' = keys nb.
Proof.
  unfold apply_payment, dict_iadd, dict_isub.
  destruct (truthy (strip (pPayer row))).
  - destruct (dict_get nb (strip (pPayer row))) as [x|] eqn:Hx; simpl;
      [|discriminate].
    destruct (truthy (strip (pPayee row))).
    + destruct (dict_get _ (strip (pPayee row))) as [y|] eqn:Hy;
        [|discriminate].
      intros H. injection H as <-.
      now rewrite (keys_set_present _ _ _ _ Hy), (keys_set_present _ _ _ _ Hx).
    + intros H. injection H as <-. now rewrite (keys_set_present _ _ _ _ Hx).
  - simpl. destruct (truthy (strip (pPayee row))).
    + destruct (dict_get nb (strip (pPayee row))) as [y|] eqn:Hy;
        [|discriminate].
      intros H. injection H as <-. now rewrite (keys_set_present _ _ _ _ Hy).
    + intros H. now injection H as <-.
Qed.

Lemma apply_payment_ok (nb : dict) (row : payment_row) :
  known nb row -> exists nb', apply_payment nb row = Ok nb'.
Proof.
  intros [Hp He]. unfold apply_payment, dict_iadd, dict_isub.
  destruct (truthy (strip (pPayer row))).
  - destruct (keys_dict_get _ _ (Hp eq_refl)) as [x Hx]. rewrite Hx. simpl.
    destruct (truthy (strip (pPayee row))); [|eauto].
    destruct (keys_dict_get (dict_set nb (strip (pPayer row)) (x + amount_or_zero (pAmount row))%Q)
                (strip (pPayee row))) as [y Hy].
    { rewrite (keys_set_present _ _ _ _ Hx). now apply He. }
    rewrite Hy. eauto.
  - simpl. destruct (truthy (strip (pPayee row))); [|eauto].
    destruct (keys_dict_get _ _ (He eq_refl)) as [y Hy]. rewrite Hy. eauto.
Qed.

Lemma apply_payment_raise (nb : dict) (row : payment_row) (e : exn) :
  apply_payment nb row = Raise e ->
  exists k, e = KeyError k /\ ~ In k (keys nb)
            /\ (k = strip (pPayer row) \/ k = strip (pPayee row)).
Proof.
  unfold apply_payment, dict_iadd, dict_isub.
  assert (Hnone : forall d k, dict_get d k = None -> ~ In k (keys d)).
  { intros d k H Hin. apply dict_get_keys in Hin. contradiction. }
  destruct (truthy (strip (pPayer row))).
  - destruct (dict_get nb (strip (pPayer row))) as [x|] eqn:Hx; simpl.
    + destruct (truthy (strip (pPayee row))); [|discriminate].
      destruct (dict_get _ (strip (pPayee row))) as [y|] eqn:Hy;
        [discriminate|].
      intros H. injection H as <-. eexists. split; [reflexivity|].
      split; [|now right].
      apply Hnone in Hy. now rewrite (keys_set_present _ _ _ _ Hx) in Hy.
    + intros H. injection H as <-. eexists. split; [reflexivity|].
      split; [now apply Hnone | now left].
  - simpl. destruct (truthy (strip (pPayee row))); [|discriminate].
    destruct (dict_get nb (strip (pPayee row))) as [y|] eqn:Hy;
      [discriminate|].
    intros H. injection H as <-. eexists. split; [reflexivity|].
    split; [now apply Hnone | now right].
Qed.

Lemma apply_payment_known (nb nb' : dict) (row : payment_row) :
  apply_payment nb row = Ok nb' -> known nb row.
Proof.
  unfold apply_payment, dict_iadd, dict_isub, known.
  destruct (truthy (strip (pPayer row))).
  - destruct (dict_get nb (strip (pPayer row))) as [x|] eqn:Hx; simpl;
      [|discriminate].
    destruct (truthy (strip (pPayee row))).
    + destruct (dict_get _ (strip (pPayee row))) as [y|] eqn:Hy;
        [|discriminate].
      intros _. split; intros _.
      * eapply dict_get_some_keys; eassumption.
      * apply dict_get_some_keys in Hy.
        now rewrite (keys_set_present _ _ _ _ Hx) in Hy.
    + intros _. split; [intros _ | discriminate].
      eapply dict_get_some_keys; eassumption.
  - simpl. destruct (truthy (strip (pPayee row))).
    + destruct (dict_get nb (strip (pPayee row))) as [y|] eqn:Hy;
        [|discriminate].
      intros _. split; [discriminate | intros _].
      eapply dict_get_some_keys; eassumption.
    + intros _. split; discriminate.
Qed.

Lemma apply_payment_get (nb nb' : dict) (row : payment_row) :
  apply_payment nb row = Ok nb' ->
  forall p v, dict_get nb p = Some v ->
    exists v', dict_get nb' p = Some v'
               /\ (v' == v + payment_effect row p)%Q.
Proof.
  unfold apply_payment, payment_effect, dict_iadd, dict_isub.
  generalize (amount_or_zero (pAmount row)) (strip (pPayer row))
    (strip (pPayee row)).
  intros a payer payee Hrun p v Hv.
  assert (Hset : forall d k x y,
             dict_get d k = Some x ->
             forall w, dict_get d p = Some w ->
               exists w', dict_get (dict_set d k y) p = Some w'
                          /\ w' = if String.eqb k p then y else w).
  { intros d k x y Hk w Hw. destruct (String.eqb_spec k p) as [->|Hne].
    - rewrite dict_get_set_same. eauto.
    - rewrite dict_get_set_other by exact Hne. eauto. }
  destruct (truthy payer).
  - destruct (dict_get nb payer) as [x|] eqn:Hx; simpl in Hrun;
      [|discriminate].
    destruct (Hset nb payer x (x + a)%Q Hx v Hv) as [w [Hw Hweq]].
    destruct (truthy payee).
    + destruct (dict_get _ payee) as [y|] eqn:Hy; [|discriminate].
      injection Hrun as <-.
      destruct (Hset _ payee y (y - a)%Q Hy w Hw) as [w' [Hw' Hweq']].
      exists w'. split; [exact Hw'|]. subst w' w. simpl.
      destruct (String.eqb_spec payee p) as [Hee|Hee];
        destruct (String.eqb_spec payer p) as [Hpp|Hpp]; subst.
      * rewrite dict_get_set_same in Hy. injection Hy as <-.
        assert (x = v) by congruence. subst. ring.
      * rewrite dict_get_set_other in Hy by exact Hpp.
        assert (y = v) by congruence. subst. ring.
      * assert (x = v) by congruence. subst. ring.
      * ring.
    + injection Hrun as <-. exists w. split; [exact Hw|]. subst w. simpl.
      destruct (String.eqb_spec payer p) as [Hpp|Hpp]; subst.
      * assert (x = v) by congruence. subst. ring.
      * ring.
  - simpl in Hrun. destruct (truthy payee).
    + destruct (dict_get nb payee) as [y|] eqn:Hy; [|discriminate].
      injection Hrun as <-.
      destruct (Hset nb payee y (y - a)%Q Hy v Hv) as [w [Hw Hweq]].
      exists w. split; [exact Hw|]. subst w. simpl.
      destruct (String.eqb_spec payee p) as [Hee|Hee]; subst.
      * assert (y = v) by congruence. subst. ring.
      * ring.
    + injection Hrun as <-. exists v. split; [exact Hv|]. simpl. ring.
Qed.

Lemma adjust_keys :
  forall (rows : list payment_row) (nb nb' : dict),
    adjust_for_payments nb rows = Ok nb' -> keys nb' = keys nb.
Proof.
  unfold adjust_for_payments.
  induction rows as [|r rows IH]; intros nb nb'; simpl.
  - intros H. now injection H as <-.
  - destruct (apply_payment nb r) as [nb1|] eqn:H1; simpl; [|discriminate].
    intros H. rewrite (IH _ _ H). eapply apply_payment_keys; eassumption.
Qed.

Lemma known_keys (nb nb' : dict) (row : payment_row) :
  keys nb' = keys nb -> known nb row -> known nb' row.
Proof. unfold known. intros ->. auto. Qed.

Lemma adjust_ok :
  forall (rows : list payment_row) (nb : dict),
    (forall row, In row rows -> known nb row) ->
    exists nb', adjust_for_payments nb rows = Ok nb'.
Proof.
  unfold adjust_for_payments.
  induction rows as [|r rows IH]; intros nb Hk; simpl.
  - eauto.
  - destruct (apply_payment_ok nb r) as [nb1 H1]; [apply Hk; now left|].
    rewrite H1. simpl. apply IH. intros row Hin.
    apply (known_keys nb); [eapply apply_payment_keys; eassumption|].
    apply Hk. now right.
Qed.

Lemma adjust_known :
  forall (rows : list payment_row) (nb nb' : dict),
    adjust_for_payments nb rows = Ok nb' ->
    forall row, In row rows -> known nb row.
Proof.
  unfold adjust_for_payments.
  induction rows as [|r rows IH]; intros nb nb'; simpl.
  - intros _ row [].
  - destruct (apply_payment nb r) as [nb1|] eqn:H1; simpl; [|discriminate].
    intros H row [<-|Hin].
    + eapply apply_payment_known; eassumption.
    + apply (known_keys nb1).
      * symmetry. eapply apply_payment_keys; eassumption.
      * eapply IH; eassumption.
Qed.

Lemma adjust_raise :
  forall (rows : list payment_row) (nb : dict) (e : exn),
    adjust_for_payments nb rows = Raise e ->
    exists k row, e = KeyError k /\ ~ In k (keys nb) /\ In row rows
                  /\ (k = strip (pPayer row) \/ k = strip (pPayee row)).
Proof.
  unfold adjust_for_payments.
  induction rows as [|r rows IH]; intros nb e; simpl; [discriminate|].
  destruct (apply_payment nb r) as [nb1|e1] eqn:H1; simpl.
  - intros H. destruct (IH _ _ H) as [k [row [He [Hk [Hin Hor]]]]].
    exists k, row. rewrite (apply_payment_keys _ _ _ H1) in Hk. auto.
  - intros H. injection H as <-.
    destruct (apply_payment_raise _ _ _ H1) as [k [He [Hk Hor]]].
    exists k, r. auto.
Qed.

Lemma adjust_get :
  forall (rows : list payment_row) (nb nb' : dict),
    adjust_for_payments nb rows = Ok nb' ->
    forall p v, dict_get nb p = Some v ->
      exists v', dict_get nb' p = Some v'
                 /\ (v' == v + payment_effects rows p)%Q.
Proof.
  unfold adjust_for_payments.
  induction rows as [|r rows IH]; intros nb nb'; simpl.
  - intros H p v Hv. injection H as <-. exists v. split; [exact Hv|].
    unfold payment_effects. simpl. ring.
  - destruct (apply_payment nb r) as [nb1|] eqn:H1; simpl; [|discriminate].
    intros H p v Hv.
    destruct (apply_payment_get _ _ _ H1 p v Hv) as [v1 [Hv1 Heq1]].
    destruct (IH _ _ H p v1 Hv1) as [v' [Hv' Heq]].
    exists v'. split; [exact Hv'|]. rewrite Heq, Heq1.
    unfold payment_effects. simpl. ring.
Qed.

(** X5: [adjust_for_payments] returns exactly when every non-blank payer
    and payee of the payment rows has an entry in the mapping it is given;
    when it raises, it raises [KeyError] at the payer or payee of one of
    the rows, a name the mapping has no entry for. *)
Theorem adjust_for_payments_outcome (nb : dict) (rows : list payment_row) :
  ((exists nb', adjust_for_payments nb rows = Ok nb')
   <-> forall row, In row rows -> known nb row)
  /\ forall e, adjust_for_payments nb rows = Raise e ->
       exists k row, e = KeyError k /\ ~ In k (keys nb) /\ In row rows
                     /\ (k = strip (pPayer row) \/ k = strip (pPayee row)).
Proof.
  split; [split|].
  - intros [nb' H]. eapply adjust_known; eassumption.
  - apply adjust_ok.
  - apply adjust_raise.
Qed.

Lemma adjust_for_payments_outcome_witness :
  (exists nb', adjust_for_payments after_dinner bob_pays_back = Ok nb')
  /\ exists k row,
       KeyError "Dave" = KeyError k /\ ~ In k (keys after_dinner)
       /\ In row dave_pays_alice
       /\ (k = strip (pPayer row) \/ k = strip (pPayee row)).
Proof.
  split.
  - destruct (adjust_for_payments_outcome after_dinner bob_pays_back)
      as [[_ Hok] _].
    apply Hok. intros row [<-|[]]. split; intros _; simpl; tauto.
  - destruct (adjust_for_payments_outcome after_dinner dave_pays_alice)
      as [_ Hraise].
    apply Hraise. reflexivity.
Defined.

(** X6: when [adjust_for_payments] returns, the mapping has the names it
    had, in the same order (no entry is added, dropped or moved), and the
    balance of each person is the balance before, taken through the
    payment rows in order: the amount is added when the person is the
    (non-blank) payer of the row, then subtracted when the person is its
    (non-blank) payee, each operation with its rounding [fl], whatever
    that is; a non-numeric amount counts as 0. *)
Theorem adjust_for_payments_effect (fl : Q -> Q) (nb nb' : dict)
  (rows : list payment_row) :
  Rounded.adjust_for_payments fl nb rows = Ok nb' ->
  keys nb' = keys nb
  /\ forall p v, dict_get nb p = Some v ->
       dict_get nb' p = Some (fold_left (payment_step fl p) rows v).
Proof.
  unfold Rounded.adjust_for_payments. revert nb nb'.
  induction rows as [|row rows IH]; intros d d' Hrun; simpl in Hrun.
  - injection Hrun as <-. split; [reflexivity|]. intros p v Hv. exact Hv.
  - destruct (Rounded.apply_payment fl d row) as [d1|] eqn:H1;
      [|discriminate].
    simpl in Hrun. destruct (rounded_payment_get _ _ _ _ H1) as [Hk1 Hg1].
    destruct (IH _ _ Hrun) as [Hk2 Hg2]. split; [congruence|].
    intros p v Hv. simpl. apply Hg2, Hg1, Hv.
Qed.

Lemma adjust_for_payments_effect_witness :
  exists nb',
    adjust_for_payments after_dinner bob_pays_back = Ok nb'
    /\ keys nb' = keys after_dinner
    /\ forall p v, dict_get after_dinner p = Some v ->
         dict_get nb' p
         = Some (fold_left (payment_step (fun x => x) p) bob_pays_back v).
Proof.
  eexists. split; [reflexivity|].
  apply (adjust_for_payments_effect (fun x => x) after_dinner _
           bob_pays_back).
  reflexivity.
Defined.

(** ** The two functions together *)

Lemma balances_split (expenses : list expense_row)
  (payments : list payment_row) (nb : dict) :
  compute_balances expenses payments = Ok nb ->
  exists nb0,
    compute_expense_balances expenses = Ok nb0
    /\ adjust_for_payments nb0 payments = Ok nb.
Proof.
  unfold compute_balances.
  destruct (compute_expense_balances expenses) as [nb0|]; simpl;
    [eauto | discriminate].
Qed.

Lemma balances_result (expenses : list expense_row)
  (payments : list payment_row) (nb : dict) :
  compute_balances expenses payments = Ok nb ->
  (forall p, In p (keys nb) <-> exists row, In row expenses /\ mentions row p)
  /\ forall p v, dict_get nb p = Some v ->
       (v == contributions expenses p + payment_effects payments p)%Q.
Proof.
  intros Hrun. destruct (balances_split _ _ _ Hrun) as [nb0 [H0 H1]].
  destruct (compute_result _ _ H0) as [Hkeys Hget]. split.
  - intros p. rewrite (adjust_keys _ _ _ H1). apply Hkeys.
  - intros p v Hv.
    destruct (keys_dict_get nb0 p) as [v0 Hv0].
    { rewrite <- (adjust_keys _ _ _ H1).
      eapply dict_get_some_keys; eassumption. }
    destruct (adjust_get _ _ _ H1 p v0 Hv0) as [v' [Hv' Heq]].
    assert (v' = v) by congruence. subst v'.
    now rewrite Heq, (Hget p v0 Hv0).
Qed.

Lemma balances_ok_conditions (expenses : list expense_row)
  (payments : list payment_row) (nb : dict) :
  compute_balances expenses payments = Ok nb ->
  (forall row, In row expenses -> truthy (strip (ePayer row)) = true)
  /\ (forall row, In row payments ->
        (truthy (strip (pPayer row)) = true ->
         person_of expenses (strip (pPayer row)))
        /\ (truthy (strip (pPayee row)) = true ->
            person_of expenses (strip (pPayee row)))).
Proof.
  intros Hrun. destruct (balances_split _ _ _ Hrun) as [nb0 [H0 H1]].
  split; [eapply compute_ok_payers; eassumption|].
  intros row Hin. destruct (compute_result _ _ H0) as [Hkeys _].
  destruct (adjust_known _ _ _ H1 row Hin) as [Hp He].
  split; intros Ht; apply Hkeys; auto.
Qed.

Lemma balances_ok (expenses : list expense_row)
  (payments : list payment_row) :
  (forall row, In row expenses -> truthy (strip (ePayer row)) = true) ->
  (forall row, In row payments ->
     (truthy (strip (pPayer row)) = true ->
      person_of expenses (strip (pPayer row)))
     /\ (truthy (strip (pPayee row)) = true ->
         person_of expenses (strip (pPayee row)))) ->
  exists nb, compute_balances expenses payments = Ok nb.
Proof.
  intros Hexp Hpay.
  destruct (compute_returns expenses Hexp) as [nb0 [H0 _]].
  destruct (compute_result _ _ H0) as [Hkeys _].
  destruct (adjust_ok payments nb0) as [nb H1].
  { intros row Hin. destruct (Hpay row Hin) as [Hp He].
    split; intros Ht; apply Hkeys; [exact (Hp Ht) | exact (He Ht)]. }
  exists nb. unfold compute_balances. now rewrite H0.
Qed.

(** X7: the two functions in sequence return a mapping exactly when every
    expense row has a non-blank payer and every non-blank payer and payee
    of a payment row is named, as payer or participant, by some expense
    row. *)
Theorem compute_balances_returns_iff (expenses : list expense_row)
  (payments : list payment_row) :
  (exists nb, compute_balances expenses payments = Ok nb)
  <-> (forall row, In row expenses -> truthy (strip (ePayer row)) = true)
      /\ (forall row, In row payments ->
            (truthy (strip (pPayer row)) = true ->
             person_of expenses (strip (pPayer row)))
            /\ (truthy (strip (pPayee row)) = true ->
                person_of expenses (strip (pPayee row)))).
Proof.
  split.
  - intros [nb Hrun]. eapply balances_ok_conditions; eassumption.
  - intros [Hexp Hpay]. now apply balances_ok.
Qed.

Lemma compute_balances_returns_iff_witness :
  exists nb, compute_balances dinner bob_pays_back = Ok nb.
Proof.
  apply (compute_balances_returns_iff dinner bob_pays_back). split.
  - intros row [<-|[]]. reflexivity.
  - intros row [<-|[]]. split; intros _; exists (expense "Alice" 90 "Alice, Bob, Carol");
      (split; [now left|]).
    + right. simpl. tauto.
    + left. split; reflexivity.
Defined.

(** X8: when the two functions in sequence return a mapping, its entries
    are the persons the expense rows name, and the balance of each person
    is the ledger of that person: from 0, through the expense rows in
    order, the amount is added when the person is the payer of the row and
    the share, the amount divided by the number of participants, is
    subtracted once for each time the person is listed; then through the
    payment rows.  Every operation comes with its rounding [fl], whatever
    that is; with none, these are the two functions as modelled above. *)
Theorem ledger_law (fl : Q -> Q) (expenses : list expense_row)
  (payments : list payment_row) (nb : dict) :
  Rounded.compute_balances fl expenses payments = Ok nb ->
  (forall p, In p (keys nb) <-> person_of expenses p)
  /\ (forall p v, dict_get nb p = Some v ->
        v = ledger fl expenses payments p)
  /\ Rounded.compute_balances (fun x => x) expenses payments
     = compute_balances expenses payments.
Proof.
  unfold Rounded.compute_balances at 1, Rounded.compute_expense_balances.
  destruct (for_each (Rounded.apply_expense fl) expenses
              (zero_balances (all_persons expenses))) as [nb0|] eqn:H0;
    [|discriminate].
  simpl. intros H1.
  destruct (rounded_expenses_get fl _ _ _ H0) as [Hk0 Hg0].
  destruct (rounded_payments_get fl _ _ _ H1) as [Hk1 Hg1].
  split; [|split; [|reflexivity]].
  - intros p. rewrite Hk1, Hk0, zero_balances_keys. apply all_persons_In.
  - intros p v Hv.
    destruct (keys_dict_get (zero_balances (all_persons expenses)) p)
      as [z Hz].
    { rewrite <- Hk0, <- Hk1. eapply dict_get_some_keys; eassumption. }
    pose proof (zero_balances_get _ _ _ Hz) as ->.
    rewrite (Hg1 p _ (Hg0 p _ Hz)) in Hv. injection Hv as <-. reflexivity.
Qed.

Lemma ledger_law_witness :
  (forall p, In p (keys a_third_each) <-> person_of hundred_by_three p)
  /\ (forall p v, dict_get a_third_each p = Some v ->
        v = ledger to_grid hundred_by_three [] p)
  /\ Rounded.compute_balances (fun x => x) hundred_by_three []
     = compute_balances hundred_by_three [].
Proof.
  apply (ledger_law to_grid hundred_by_three [] a_third_each).
  vm_compute. reflexivity.
Defined.

Lemma keys_set_absent (d : dict) (k : string) (v : Q) :
  dict_get d k = None -> keys (dict_set d k v) = keys d ++ [k].
Proof.
  induction d as [|[k' v'] d IH]; simpl; [reflexivity|].
  destruct (String.eqb_spec k' k) as [->|Hne]; [discriminate|].
  intros H. simpl. f_equal. now apply IH.
Qed.

Lemma dict_set_wf (d : dict) (k : string) (v : Q) :
  dict_wf d -> dict_wf (dict_set d k v).
Proof.
  unfold dict_wf. intros Hwf.
  destruct (dict_get d k) as [x|] eqn:Hx.
  - now rewrite (keys_set_present _ _ _ _ Hx).
  - rewrite (keys_set_absent _ _ _ Hx).
    eapply Permutation_NoDup; [apply Permutation_cons_append|].
    constructor; [|exact Hwf].
    intros Hin. apply dict_get_keys in Hin. contradiction.
Qed.

Lemma zero_balances_wf (ps : list string) : dict_wf (zero_balances ps).
Proof.
  unfold zero_balances.
  assert (H : forall acc, dict_wf acc ->
              dict_wf (fold_left (fun nb person => dict_set nb person 0%Q)
                                 ps acc)).
  { induction ps as [|x ps IH]; intros acc Hacc; simpl; [exact Hacc|].
    apply IH. now apply dict_set_wf. }
  apply H. constructor.
Qed.

Lemma compute_wf (rows : list expense_row) (nb : dict) :
  compute_expense_balances rows = Ok nb -> dict_wf nb.
Proof.
  intros Hrun.
  destruct (compute_returns rows (compute_ok_payers rows nb Hrun))
    as [nb' [Hrun' [Hkeys _]]].
  assert (nb' = nb) by congruence. subst nb'.
  unfold dict_wf. rewrite Hkeys. apply zero_balances_wf.
Qed.

Lemma balances_wf (expenses : list expense_row)
  (payments : list payment_row) (nb : dict) :
  compute_balances expenses payments = Ok nb -> NoDup (keys nb).
Proof.
  intros Hrun. destruct (balances_split _ _ _ Hrun) as [nb0 [H0 H1]].
  rewrite (adjust_keys _ _ _ H1). eapply compute_wf; eassumption.
Qed.

Lemma person_of_perm (e e' : list expense_row) (p : string) :
  Permutation e e' -> person_of e p -> person_of e' p.
Proof.
  intros Hp [row [Hin Hm]]. exists row. split; [|exact Hm].
  eapply Permutation_in; eassumption.
Qed.

(** X9: the order of the rows decides neither whether the two functions
    return nor who gets an entry: if they return a mapping, they also do
    on the same expense rows and payment rows in any other order, and the
    two mappings have the same persons.  (The balances themselves may
    differ in their last digits: the additions are done in another
    order.) *)
Theorem balances_order_independent (expenses expenses' : list expense_row)
  (payments payments' : list payment_row) (nb : dict) :
  Permutation expenses expenses' ->
  Permutation payments payments' ->
  compute_balances expenses payments = Ok nb ->
  exists nb',
    compute_balances expenses' payments' = Ok nb'
    /\ Permutation (keys nb) (keys nb').
Proof.
  intros He Hp Hrun.
  assert (Hok : exists nb', compute_balances expenses' payments' = Ok nb').
  { destruct (balances_ok_conditions expenses payments nb Hrun)
      as [Hexp Hpay].
    apply balances_ok.
    - intros row Hin. apply Hexp.
      eapply Permutation_in; [symmetry|]; eassumption.
    - intros row Hin.
      destruct (Hpay row) as [H1 H2].
      { eapply Permutation_in; [symmetry|]; eassumption. }
      split; intros Ht; eapply person_of_perm; eauto. }
  destruct Hok as [nb' Hrun']. exists nb'. split; [exact Hrun'|].
  destruct (balances_result _ _ _ Hrun) as [Hkeys _].
  destruct (balances_result _ _ _ Hrun') as [Hkeys' _].
  apply NoDup_Permutation.
  - eapply balances_wf; eassumption.
  - eapply balances_wf; eassumption.
  - intros p. rewrite Hkeys, Hkeys'. split; apply person_of_perm;
      [exact He | symmetry; exact He].
Qed.

Lemma balances_order_independent_witness :
  exists nb',
    compute_balances (snack ++ dinner) bob_pays_back = Ok nb'
    /\ Permutation (keys evening) (keys nb').
Proof.
  apply (balances_order_independent (dinner ++ snack) (snack ++ dinner)
           bob_pays_back bob_pays_back).
  - apply Permutation_app_comm.
  - apply Permutation_refl.
  - reflexivity.
Defined.

(** ** More on the settlement plan *)

(** X10: replaying the plan never overshoots: a debtor ends between its
    balance and 0, a creditor between 0 and its balance, and a person that
    is neither keeps its balance. *)
Theorem replay_never_overshoots (nb : dict) (p : string) (v : Q) :
  dict_wf nb ->
  dict_get nb p = Some v ->
  exists r,
    dict_get (replay nb (settle_debts nb)) p = Some r
    /\ ((v < - eps)%Q -> (v <= r)%Q /\ (r <= 0)%Q)
    /\ ((eps < v)%Q -> (0 <= r)%Q /\ (r <= v)%Q)
    /\ ((- eps <= v)%Q -> (v <= eps)%Q -> (r == v)%Q).
Proof.
  intros Hwf Hv. destruct (settle_view nb Hwf) as [rd [rc [Hrun Hview]]].
  destruct (Hview p v Hv) as [r [Hr [Heq Hcases]]].
  exists r. split; [exact Hr|].
  destruct (sweep_signs _ _ _ _ _ _ Hrun (spec_lists_signed nb))
    as [Hpos [Hrd Hrc]].
  pose proof (sweep_tx_names _ _ _ _ _ _ Hrun) as Hnames.
  rewrite Forall_forall in Hnames, Hrd, Hrc.
  destruct (spec_lists_separate nb Hwf) as [_ [_ Hsep]].
  pose proof eps_pos as Heps.
  destruct Hcases as [[Hd [y [Hy Hry]]]|[[Hc [y [Hy Hry]]]|[H1 [H2 H3]]]].
  - assert (Hn : (0 <= net_effect (settle_debts nb) p)%Q).
    { apply net_effect_nonneg; [exact Hpos|]. intros t Ht He.
      destruct (Hnames t Ht) as [_ Hcr]. rewrite He in Hcr.
      apply (Hsep p); [|exact Hcr].
      apply (in_names p v), spec_debtors_In. split; [|exact Hd].
      now apply dict_get_In. }
    specialize (Hrd _ Hy). simpl in Hrd.
    repeat split; intros; try lra.
  - assert (Hn : (net_effect (settle_debts nb) p <= 0)%Q).
    { apply net_effect_nonpos; [exact Hpos|]. intros t Ht He.
      destruct (Hnames t Ht) as [Hdb _]. rewrite He in Hdb.
      apply (Hsep p); [exact Hdb|].
      apply (in_names p v), spec_creditors_In. split; [|exact Hc].
      now apply dict_get_In. }
    specialize (Hrc _ Hy). simpl in Hrc.
    repeat split; intros; try lra.
  - repeat split; intros; lra.
Qed.

Lemma replay_never_overshoots_witness :
  exists r,
    dict_get (replay after_dinner (settle_debts after_dinner)) "Alice" = Some r
    /\ ((60 < - eps)%Q -> (60 <= r)%Q /\ (r <= 0)%Q)
    /\ ((eps < 60)%Q -> (0 <= r)%Q /\ (r <= 60)%Q)
    /\ ((- eps <= 60)%Q -> (60 <= eps)%Q -> (r == 60)%Q).
Proof.
  apply (replay_never_overshoots after_dinner "Alice" 60%Q).
  - exact after_dinner_wf.
  - reflexivity.
Defined.

(** X11: replaying the plan settles one side completely: either every
    debtor or every creditor ends strictly within [1e-9] of 0. *)
Theorem one_side_is_settled (nb : dict) :
  dict_wf nb ->
  (forall p v, dict_get nb p = Some v -> (v < - eps)%Q ->
     exists r, dict_get (replay nb (settle_debts nb)) p = Some r
               /\ (Qabs r < eps)%Q)
  \/ (forall p v, dict_get nb p = Some v -> (eps < v)%Q ->
        exists r, dict_get (replay nb (settle_debts nb)) p = Some r
                  /\ (Qabs r < eps)%Q).
Proof.
  intros Hwf. destruct (settle_view nb Hwf) as [rd [rc [Hrun Hview]]].
  pose proof eps_pos as Heps.
  destruct (sweep_exhausts _ _ _ _ _ _ Hrun) as [Hall|Hall];
    unfold all_settled in Hall; rewrite Forall_forall in Hall;
    [left | right]; intros p v Hv Hside;
    destruct (Hview p v Hv) as [r [Hr [_ Hcases]]];
    exists r; (split; [exact Hr|]);
    destruct Hcases as [[Hd [y [Hy Hry]]]|[[Hc [y [Hy Hry]]]|[H1 [H2 _]]]];
    try lra; rewrite Hry; apply Qabs_Qlt_condition, settled_true;
    apply (Hall (p, y) Hy).
Qed.

Lemma one_side_is_settled_witness :
  (forall p v, dict_get near_miss p = Some v -> (v < - eps)%Q ->
     exists r, dict_get (replay near_miss (settle_debts near_miss)) p = Some r
               /\ (Qabs r < eps)%Q)
  \/ (forall p v, dict_get near_miss p = Some v -> (eps < v)%Q ->
        exists r, dict_get (replay near_miss (settle_debts near_miss)) p = Some r
                  /\ (Qabs r < eps)%Q).
Proof.
  apply (one_side_is_settled near_miss).
  unfold dict_wf, near_miss. simpl.
  repeat constructor; simpl; intuition discriminate.
Defined.

Lemma filter_none {A} (f : A -> bool) (l : list A) :
  (forall x, In x l -> f x = false) -> filter f l = [].
Proof.
  induction l as [|x l IH]; simpl; intros H; [reflexivity|].
  rewrite (H x) by now left. apply IH. intros y Hy. apply H. now right.
Qed.

Lemma no_side_no_plan (nb : dict) :
  filter is_debtor nb = [] \/ filter is_creditor nb = [] ->
  settle_debts nb = [].
Proof.
  intros H. destruct (settle_debts_run nb) as [rd [rc Hrun]].
  rewrite sweep_exhausted in Hrun.
  - now injection Hrun.
  - unfold spec_debtors, spec_creditors.
    destruct H as [->| ->]; [left | right]; reflexivity.
Qed.

Lemma both_sides_some_plan (nb : dict) :
  filter is_debtor nb <> [] -> filter is_creditor nb <> [] ->
  settle_debts nb <> [].
Proof.
  intros Hd Hc. destruct (settle_debts_run nb) as [rd [rc Hrun]].
  pose proof (spec_lists_length nb) as Hlen.
  assert (Hds : spec_debtors nb <> []).
  { intros H. apply Hd. apply length_zero_iff_nil.
    unfold spec_debtors in H. apply (f_equal (@List.length item)) in H.
    now rewrite (Permutation_length (sort_by_perm _ _)) in H. }
  assert (Hcs : spec_creditors nb <> []).
  { intros H. apply Hc. apply length_zero_iff_nil.
    unfold spec_creditors in H. apply (f_equal (@List.length item)) in H.
    now rewrite (Permutation_length (sort_by_perm _ _)) in H. }
  destruct (spec_debtors nb) as [|[dn d] ds]; [congruence|].
  destruct (spec_creditors nb) as [|[cn c] cs]; [congruence|].
  destruct (enough nb) as [|fuel]; [simpl in Hlen; lia|].
  simpl in Hrun. destruct (sweep fuel _ _) as [[txs [rd' rc']]|];
    [|discriminate].
  injection Hrun as Htx _ _. rewrite <- Htx. discriminate.
Qed.

(** X12: the plan is empty exactly when the mapping has no debtor (below
    [-1e-9]) or no creditor (above [1e-9]); this is when the page shows
    that no settlement is needed. *)
Theorem plan_empty_iff (nb : dict) :
  settle_debts nb = []
  <-> filter is_debtor nb = [] \/ filter is_creditor nb = [].
Proof.
  split; [|apply no_side_no_plan].
  intros H. destruct (filter is_debtor nb) as [|x l] eqn:Hd; [now left|].
  destruct (filter is_creditor nb) as [|y l'] eqn:Hc; [now right|].
  exfalso. apply (both_sides_some_plan nb); [rewrite Hd | rewrite Hc | exact H];
    discriminate.
Qed.

Lemma replay_settles (nb : dict) :
  dict_wf nb -> settle_debts (replay nb (settle_debts nb)) = [].
Proof.
  intros Hwf. destruct (settle_view nb Hwf) as [rd [rc [Hrun Hview]]].
  set (rb := replay nb (settle_debts nb)) in *.
  assert (Hrb : dict_wf rb).
  { unfold dict_wf, rb. now rewrite replay_keys. }
  assert (Hentry : forall p r, In (p, r) rb ->
             exists v, dict_get nb p = Some v
                       /\ (((v < - eps)%Q /\ exists y, In (p, y) rd /\ (r == y)%Q)
                           \/ ((eps < v)%Q /\ exists y, In (p, y) rc /\ (r == y)%Q)
                           \/ ((- eps <= v)%Q /\ (v <= eps)%Q /\ (r == v)%Q))).
  { intros p r Hin.
    destruct (keys_dict_get nb p) as [v Hv].
    { unfold rb in Hin. rewrite <- (replay_keys (settle_debts nb) nb).
      apply (in_map fst) in Hin. exact Hin. }
    exists v. split; [exact Hv|].
    destruct (Hview p v Hv) as [r' [Hr' [_ Hcases]]].
    apply (In_dict_get _ _ _ Hrb) in Hin.
    assert (r' = r) by congruence. subst r'. exact Hcases. }
  destruct (sweep_signs _ _ _ _ _ _ Hrun (spec_lists_signed nb))
    as [_ [Hrd Hrc]].
  rewrite Forall_forall in Hrd, Hrc.
  pose proof eps_pos as Heps.
  apply no_side_no_plan.
  destruct (sweep_exhausts _ _ _ _ _ _ Hrun) as [Hall|Hall];
    unfold all_settled in Hall; rewrite Forall_forall in Hall;
    [left | right]; apply filter_none; intros [p r] Hin;
    destruct (Hentry p r Hin) as [v [_ Hcases]];
    destruct Hcases as [[Hd [y [Hy Hry]]]|[[Hc [y [Hy Hry]]]|[H1 [H2 H3]]]].
  - apply Qltb_ge. simpl. rewrite Hry.
    specialize (Hall _ Hy). apply settled_true in Hall. simpl in Hall. lra.
  - apply Qltb_ge. simpl. rewrite Hry.
    specialize (Hrc _ Hy). simpl in Hrc. lra.
  - apply Qltb_ge. simpl. rewrite H3. lra.
  - apply Qltb_ge. simpl. rewrite Hry.
    specialize (Hrd _ Hy). simpl in Hrd. lra.
  - apply Qltb_ge. simpl. rewrite Hry.
    specialize (Hall _ Hy). apply settled_true in Hall. simpl in Hall. lra.
  - apply Qltb_ge. simpl. rewrite H3. lra.
Qed.

Lemma plan_empty_iff_witness :
  settle_debts [("Alice", 60%Q); ("Bob", 0%Q)] = [].
Proof.
  apply (plan_empty_iff [("Alice", 60%Q); ("Bob", 0%Q)]).
  left. reflexivity.
Defined.

(** X13: the plan is complete: replaying its transactions against the
    mapping keeps the persons of the mapping, in order, and leaves
    [settle_debts] nothing more to settle. *)
Theorem plan_is_complete (nb : dict) :
  dict_wf nb ->
  keys (replay nb (settle_debts nb)) = keys nb
  /\ settle_debts (replay nb (settle_debts nb)) = [].
Proof.
  intros Hwf. split.
  - apply replay_keys.
  - now apply replay_settles.
Qed.

Lemma plan_is_complete_witness :
  keys (replay three_owe_two (settle_debts three_owe_two)) = keys three_owe_two
  /\ settle_debts (replay three_owe_two (settle_debts three_owe_two)) = [].
Proof. apply (plan_is_complete three_owe_two). exact three_owe_two_wf. Defined.

(** X14: no two transactions of a plan are between the same debtor and
    the same creditor. *)
Theorem no_pair_twice (nb : dict) :
  dict_wf nb -> NoDup (map pair_of (settle_debts nb)).
Proof.
  intros Hwf. destruct (settle_debts_run nb) as [rd [rc Hrun]].
  pose proof (spec_lists_separate nb Hwf) as Hsep. revert Hsep.
  enough (H : Forall (fun t => In (debtor t) (names (spec_debtors nb))
                               /\ In (creditor t) (names (spec_creditors nb)))
                (settle_debts nb)
              /\ (separate (spec_debtors nb) (spec_creditors nb) ->
                  NoDup (map pair_of (settle_debts nb)))) by apply H.
  revert Hrun.
  apply (sweep_cases (fun ds cs txs _ _ =>
           Forall (fun t => In (debtor t) (names ds)
                            /\ In (creditor t) (names cs)) txs
           /\ (separate ds cs -> NoDup (map pair_of txs)))).
  - intros ds cs _. split; constructor.
  - intros dn d ds cn c cs txs _ _ a d' c' [Hnames IH]. split.
    { constructor; [simpl; auto|].
      eapply Forall_impl; [|exact Hnames]. intros t [Hd Hc].
      destruct (settled d'), (settled c'); simpl in *; tauto. }
    intros Hsep.
    specialize (IH (separate_step dn d d' ds cn c c' cs _ _ Hsep)).
    destruct Hsep as [Hnd [Hnc _]]. simpl in Hnd, Hnc.
    inversion Hnd as [|? ? Hdn _]; subst.
    inversion Hnc as [|? ? Hcn _]; subst.
    simpl. constructor; [|exact IH].
    intros Hin. apply in_map_iff in Hin. destruct Hin as [t [Hpair Ht]].
    unfold pair_of in Hpair. injection Hpair as Hdt Hct.
    rewrite Forall_forall in Hnames. destruct (Hnames t Ht) as [Hd Hc].
    rewrite Hdt in Hd. rewrite Hct in Hc.
    destruct (one_side_settled c d) as [Hs|Hs]; fold a in Hs;
      [fold d' in Hs; rewrite Hs in Hd | fold c' in Hs; rewrite Hs in Hc];
      contradiction.
Qed.

Lemma no_pair_twice_witness :
  NoDup (map pair_of (settle_debts three_owe_two)).
Proof. apply (no_pair_twice three_owe_two). exact three_owe_two_wf. Defined.

(** ** Paying what the plan says *)

Lemma compute_keys_tidy (rows : list expense_row) (nb : dict) (p : string) :
  compute_expense_balances rows = Ok nb -> In p (keys nb) -> tidy p.
Proof.
  intros Hrun Hin. destruct (compute_result rows nb Hrun) as [Hkeys _].
  apply Hkeys in Hin. destruct Hin as [row [_ Hm]].
  eapply mentions_tidy; eassumption.
Qed.

Lemma pay_plan_replay (pay_date pay_notes : string) :
  forall (txs : list transaction) (nb : dict),
    (forall t, In t txs ->
       tidy (debtor t) /\ tidy (creditor t)
       /\ In (debtor t) (keys nb) /\ In (creditor t) (keys nb)) ->
    adjust_for_payments nb (pay_plan pay_date pay_notes txs)
    = Ok (replay nb txs).
Proof.
  unfold adjust_for_payments, replay.
  induction txs as [|t txs IH]; intros nb Hall; simpl; [reflexivity|].
  destruct (Hall t (or_introl eq_refl)) as [[Htd Hsd] [[Htc Hsc] [Hkd Hkc]]].
  assert (Hstep : apply_payment nb
                    (form_payment_row pay_date (debtor t) (amount t)
                       (creditor t) pay_notes)
                  = Ok (replay_one nb t)).
  { unfold apply_payment, replay_one, dict_iadd, dict_isub, dict_adjust.
    simpl. rewrite Hsd, Hsc, Htd, Htc.
    change (amount_or_zero (Numeric (amount t))) with (amount t).
    destruct (keys_dict_get nb (debtor t) Hkd) as [x Hx]. rewrite Hx. simpl.
    destruct (keys_dict_get (dict_set nb (debtor t) (x + amount t)%Q)
                (creditor t)) as [y Hy].
    { now rewrite (keys_set_present _ _ _ _ Hx). }
    now rewrite Hy. }
  rewrite Hstep. simpl. apply IH. intros t' Ht'.
  destruct (Hall t' (or_intror Ht')) as [H1 [H2 [H3 H4]]].
  unfold replay_one. rewrite !dict_adjust_keys. auto.
Qed.

Lemma plan_names (nb : dict) (t : transaction) :
  In t (settle_debts nb) ->
  In (debtor t) (keys nb) /\ In (creditor t) (keys nb)
  /\ (0 < amount t)%Q.
Proof.
  intros Ht. destruct (settle_debts_run nb) as [rd [rc Hrun]].
  destruct (sweep_signs _ _ _ _ _ _ Hrun (spec_lists_signed nb)) as [Hpos _].
  pose proof (sweep_tx_names _ _ _ _ _ _ Hrun) as Hnames.
  rewrite Forall_forall in Hpos, Hnames.
  destruct (Hnames t Ht) as [Hd Hc].
  apply names_In in Hd. destruct Hd as [x Hx].
  apply names_In in Hc. destruct Hc as [y Hy].
  apply spec_debtors_In in Hx. apply spec_creditors_In in Hy.
  destruct Hx as [Hx _]. destruct Hy as [Hy _].
  apply (in_map fst) in Hx. apply (in_map fst) in Hy.
  repeat split; [exact Hx | exact Hy | now apply Hpos].
Qed.

(** X15: for balances computed from expense rows, every transaction of
    the plan passes the checks of the payment form; once all of them are
    entered as payments, the balances are those of the replayed plan, and
    the next plan is empty. *)
Theorem paying_the_plan (expenses : list expense_row) (nb : dict)
  (pay_date pay_notes : string) :
  compute_expense_balances expenses = Ok nb ->
  Forall (fun t => payment_error (debtor t) (creditor t) (amount t)
                   = EmptyString) (settle_debts nb)
  /\ compute_balances expenses (pay_plan pay_date pay_notes (settle_debts nb))
     = Ok (replay nb (settle_debts nb))
  /\ settle_debts (replay nb (settle_debts nb)) = [].
Proof.
  intros Hrun.
  assert (Hall : forall t, In t (settle_debts nb) ->
             tidy (debtor t) /\ tidy (creditor t)
             /\ In (debtor t) (keys nb) /\ In (creditor t) (keys nb)).
  { intros t Ht. destruct (plan_names nb t Ht) as [Hd [Hc _]].
    repeat split; try assumption;
      eapply compute_keys_tidy; eassumption || (apply Hd) || (apply Hc). }
  split; [|split].
  - apply Forall_forall. intros t Ht.
    destruct (Hall t Ht) as [[Htd _] [[Htc _] _]].
    destruct (plan_names nb t Ht) as [_ [_ Hpos]].
    unfold payment_error. rewrite Htd, Htc. simpl.
    destruct (Qle_bool (amount t) 0) eqn:Hle; [|reflexivity].
    apply Qle_bool_iff in Hle. lra.
  - unfold compute_balances. rewrite Hrun. simpl.
    now apply pay_plan_replay.
  - apply replay_settles. eapply compute_wf; eassumption.
Qed.

Lemma paying_the_plan_witness :
  Forall (fun t => payment_error (debtor t) (creditor t) (amount t)
                   = EmptyString) (settle_debts dinner_balances)
  /\ compute_balances dinner
       (pay_plan "01/03/2025" "settled" (settle_debts dinner_balances))
     = Ok (replay dinner_balances (settle_debts dinner_balances))
  /\ settle_debts (replay dinner_balances (settle_debts dinner_balances)) = [].
Proof.
  apply (paying_the_plan dinner dinner_balances). reflexivity.
Defined.

(** ** The forms *)

(** X17: the payer check of the expense form looks at the text as typed,
    not stripped: a payer made of whitespace only is treated by the form
    like any other name, and every list of rows that holds a row with such
    a payer makes [compute_expense_balances] raise [KeyError]. *)
Theorem whitespace_payer_slips_through (payer : string) :
  truthy payer = true ->
  strip payer = EmptyString ->
  (forall other amt plist split_type pcts,
      truthy other = true ->
      expense_error payer amt plist split_type pcts
      = expense_error other amt plist split_type pcts)
  /\ (forall rows row,
        In row rows -> ePayer row = payer ->
        compute_expense_balances rows = Raise (KeyError EmptyString)).
Proof.
  intros Ht Hs. split.
  - intros other amt plist split_type pcts Ho. unfold expense_error.
    now rewrite Ht, Ho.
  - intros rows row Hin Hp. apply compute_raises. exists row.
    split; [exact Hin|]. now rewrite Hp, Hs.
Qed.

Lemma whitespace_payer_slips_through_witness :
  expense_error no_break_space 10 ["Bob"] "Equal" []
  = expense_error "Alice" 10 ["Bob"] "Equal" []
  /\ compute_expense_balances (dinner ++ no_break_space_pays)
     = Raise (KeyError EmptyString).
Proof.
  destruct (whitespace_payer_slips_through no_break_space eq_refl eq_refl)
    as [H1 H2].
  split.
  - apply H1. reflexivity.
  - apply (H2 _ (expense no_break_space 10 "Bob")).
    + right. left. reflexivity.
    + reflexivity.
Defined.

(** ** Rows for the sheet *)

Lemma sheet_cell_not_none (json_dumps : dict -> string) (r : record)
  (col : string) :
  sheet_cell json_dumps r col <> PNone.
Proof.
  unfold sheet_cell.
  destruct (record_get r col (PStr EmptyString)) as [|s|q|d];
    try discriminate.
  destruct (String.eqb col "Percentages"); discriminate.
Qed.

(** X19: the row handed to the sheet always has one cell per column of the
    worksheet (seven for worksheet 0, five for any other), whatever keys
    the record has; no cell is [None]; and the Percentages cell is never a
    dictionary. *)
Theorem sheet_row_shape (json_dumps : dict -> string) (worksheet_index : Z)
  (new_data_row : record) :
  List.length (sheet_row json_dumps worksheet_index new_data_row)
  = (if Z.eqb worksheet_index 0 then 7 else 5)
  /\ Forall (fun v => v <> PNone)
       (sheet_row json_dumps worksheet_index new_data_row)
  /\ forall d, sheet_cell json_dumps new_data_row "Percentages" <> PDict d.
Proof.
  unfold sheet_row. split; [|split].
  - rewrite length_map. now destruct (Z.eqb worksheet_index 0).
  - apply Forall_forall. intros v Hv. apply in_map_iff in Hv.
    destruct Hv as [col [<- _]]. apply sheet_cell_not_none.
  - intros d. unfold sheet_cell.
    destruct (record_get new_data_row "Percentages" (PStr EmptyString));
      simpl; discriminate.
Qed.

(** ** What the plan depends on and where it starts *)

(** X21: the plan depends on the debtors and the creditors only: two
    mappings with the same entries below [-1e-9] and the same entries
    above [1e-9], in the same order, get the same plan, whatever other
    entries they hold. *)
Theorem plan_ignores_the_settled (nb nb' : dict) :
  filter is_debtor nb = filter is_debtor nb' ->
  filter is_creditor nb = filter is_creditor nb' ->
  settle_debts nb = settle_debts nb'.
Proof.
  intros Hd Hc. unfold settle_debts. rewrite !settle_debts_fuel_plan.
  unfold plan_settlement, enough, spec_debtors, spec_creditors.
  now rewrite Hd, Hc.
Qed.

Lemma plan_ignores_the_settled_witness :
  settle_debts after_dinner
  = settle_debts (("Zoe", (1 # 2000000000)%Q) :: after_dinner).
Proof. apply plan_ignores_the_settled; reflexivity. Defined.

Lemma sorted_head_least (R : item -> item -> Prop) (x y : item)
  (l : list item) :
  StronglySorted R (x :: l) -> In y l -> R x y.
Proof.
  intros H Hin. inversion H as [|? ? _ Hall]; subst.
  rewrite Forall_forall in Hall. now apply Hall.
Qed.

(** X23: the first transaction of a plan is between the person with the
    lowest balance and the person with the highest, for the smaller of
    what the one owes and the other is owed. *)
Theorem plan_starts_with_the_largest (nb : dict) (t : transaction)
  (rest : list transaction) :
  dict_wf nb ->
  settle_debts nb = t :: rest ->
  exists b c,
    dict_get nb (debtor t) = Some b
    /\ dict_get nb (creditor t) = Some c
    /\ amount t = py_min c (- b)%Q
    /\ forall p v, dict_get nb p = Some v -> (b <= v)%Q /\ (v <= c)%Q.
Proof.
  intros Hwf Hplan. destruct (settle_debts_run nb) as [rd [rc Hrun]].
  rewrite Hplan in Hrun.
  pose proof (ascending_sorted (filter is_debtor nb)) as Hsd.
  pose proof (descending_sorted (filter is_creditor nb)) as Hsc.
  fold (spec_debtors nb) in Hsd. fold (spec_creditors nb) in Hsc.
  pose proof (spec_debtors_In nb) as Hind.
  pose proof (spec_creditors_In nb) as Hinc.
  destruct (spec_debtors nb) as [|[dn d] ds].
  { rewrite sweep_exhausted in Hrun by now left. discriminate. }
  destruct (spec_creditors nb) as [|[cn c] cs].
  { rewrite sweep_exhausted in Hrun by now right. discriminate. }
  destruct (enough nb) as [|fuel]; [discriminate|].
  simpl in Hrun. destruct (sweep fuel _ _) as [[txs [rd' rc']]|];
    [|discriminate].
  injection Hrun as Ht _ _ _. subst t. simpl.
  destruct (proj1 (Hind (dn, d)) (or_introl eq_refl)) as [Hdn Hdlt].
  destruct (proj1 (Hinc (cn, c)) (or_introl eq_refl)) as [Hcn Hclt].
  simpl in Hdlt, Hclt. pose proof eps_pos as Heps.
  exists d, c. split; [now apply In_dict_get|].
  split; [now apply In_dict_get|]. split; [reflexivity|].
  intros p v Hv. apply dict_get_In in Hv. split.
  - destruct (Qlt_le_dec v (- eps)) as [Hlt|Hge]; [|lra].
    assert (Hin : In (p, v) ((dn, d) :: ds)) by (apply Hind; auto).
    destruct Hin as [Heq|Hin]; [injection Heq as _ ->; lra|].
    apply (sorted_head_least _ _ _ _ Hsd Hin).
  - destruct (Qlt_le_dec eps v) as [Hlt|Hge]; [|lra].
    assert (Hin : In (p, v) ((cn, c) :: cs)) by (apply Hinc; auto).
    destruct Hin as [Heq|Hin]; [injection Heq as _ ->; lra|].
    apply (sorted_head_least _ _ _ _ Hsc Hin).
Qed.

Lemma plan_starts_with_the_largest_witness :
  exists b c,
    dict_get three_owe_two "Cy" = Some b
    /\ dict_get three_owe_two "Ann" = Some c
    /\ 30%Q = py_min c (- b)%Q
    /\ forall p v, dict_get three_owe_two p = Some v ->
         (b <= v)%Q /\ (v <= c)%Q.
Proof.
  apply (plan_starts_with_the_largest three_owe_two (mkTx "Cy" "Ann" 30)
           [mkTx "Dee" "Ann" 20; mkTx "Dee" "Ben" 10; mkTx "Eve" "Ben" 30]).
  - exact three_owe_two_wf.
  - reflexivity.
Defined.

(** X24: every name that gets an entry in the mapping is non-empty,
    neither starts nor ends with a whitespace character and has nothing
    left to strip. *)
Theorem balance_names_are_tidy (expenses : list expense_row)
  (payments : list payment_row) (nb : dict) :
  compute_balances expenses payments = Ok nb ->
  Forall (fun p => truthy p = true
                   /\ starts_with_space p = false
                   /\ ends_with_space p = false
                   /\ strip p = p)
         (keys nb).
Proof.
  intros Hrun. destruct (balances_result _ _ _ Hrun) as [Hkeys _].
  apply Forall_forall. intros p Hp. apply Hkeys in Hp.
  destruct Hp as [row [_ Hm]].
  destruct (mentions_tidy _ _ Hm) as [Ht Hs].
  destruct (strip_ends p) as [H1 H2]. rewrite Hs in H1, H2. auto.
Qed.

Lemma balance_names_are_tidy_witness :
  exists nb,
    compute_balances dinner bob_pays_back = Ok nb
    /\ Forall (fun p => truthy p = true
                        /\ starts_with_space p = false
                        /\ ends_with_space p = false
                        /\ strip p = p)
         (keys nb).
Proof.
  eexists. split; [reflexivity|].
  apply (balance_names_are_tidy dinner bob_pays_back). reflexivity.
Defined.
